(** * pygod/models/base.py : the detector base class

    A shallow embedding of [BaseDetector] and of the numerical primitives it
    calls, followed by the properties of its scoring, calibration, confidence
    and parameter-introspection methods.

    Numbers.  Scores are Python/numpy floats (binary64).  A finite float is
    the rational it denotes ([Q]); the IEEE special values that a division by
    zero produces are kept apart in [fnum].  Rounding to the nearest double,
    ties to even ([fl]), is applied wherever a discrete outcome hangs on it:
    in the threshold and so in the labels (the argument
    [100 * (1 - contamination)] and every step of [numpy.percentile]), in
    the integer [n - int(n * contamination)] of the confidence estimate and
    in the range test of the min-max scaler.  The probabilities themselves
    (mean, standard deviation, posterior, binomial distribution function,
    scaled scores) are continuous in their inputs and are computed exactly:
    the values of the code differ from them by rounding errors only.  The
    exponent range is not bounded (no overflow, no underflow).

    Library calls (numpy, scipy, scikit-learn) are not part of the
    repository; each is given a definition with its documented behaviour
    ([numpy.percentile] with the steps of its implementation since numpy
    1.20), and the two transcendental ones ([erf], [sqrt]) are section
    variables.

    The instance is seen in two ways.  The numerical methods work on a record
    ([Detector.t]) whose fitted attributes are optional fields; the
    introspection methods ([get_params], [set_params]) work on a store of
    objects with attribute dictionaries ([Params]), since there parameter
    names are strings and nested estimators are shared references. *)

From stdpp Require Import base gmap strings.
From Stdlib Require Import ZArith QArith Qround Qabs Qminmax Qpower Lqa Lia.
From Stdlib Require Import List Bool.
From Stdlib Require Import Strings.String Strings.Ascii.
From Stdlib Require Import Sorting.Sorted Sorting.Permutation.
From Stdlib Require Import Structures.OrdersEx.
Import ListNotations.

Local Open Scope Q_scope.

(** ** Exceptions and results *)

Inductive exn :=
| NotFittedError
| ValueError (args : list string)
| AttributeError (name : string)
| IndexError
| RuntimeError (msg : string)
| RecursionError
| KeyError (key : string)
| InvalidParameter (key : string) (estimator : positive).

Inductive result (A : Type) :=
| Ok (a : A)
| Err (e : exn).
Arguments Ok {A} a.
Arguments Err {A} e.

(** ** Numbers *)

Module Num.

(** A float that may have left the finite range. *)
Inductive fnum := Fin (q : Q) | PInf | NInf | NaN.

Definition Qgtb (x y : Q) : bool := negb (Qle_bool x y).
Definition Qltb (x y : Q) : bool := negb (Qle_bool y x).

(** *** Rounding to binary64

    [ilog2 q] is the exponent of a positive [q]: [2 ^ ilog2 q <= q <
    2 ^ (ilog2 q + 1)]. *)
Definition ilog2 (q : Q) : Z :=
  let k := (Z.log2 (Qnum q) - Z.log2 (Zpos (Qden q)))%Z in
  if Qle_bool (2 ^ k) q then k else (k - 1)%Z.

(** The nearest integer, the even one of two that are equally near. *)
Definition rne (q : Q) : Z :=
  let f := Qfloor q in
  match Qcompare (q - inject_Z f) (1 # 2) with
  | Lt => f
  | Gt => (f + 1)%Z
  | Eq => if Z.even f then f else (f + 1)%Z
  end.

(** The double nearest to [x]: a significand of 53 bits, ties to even. *)
Definition fl (x : Q) : Q :=
  if Qeq_bool x 0 then 0
  else
    let e := ilog2 (Qabs x) in
    Qred (inject_Z (rne (x * 2 ^ (52 - e))) * 2 ^ (e - 52)).

(** The rationals that are doubles. *)
Definition representable (x : Q) : Prop := fl x == x.

(** [np.finfo(np.float64).eps] *)
Definition eps : Q := 2 ^ (-52).

(** numpy true division of a finite array by a scalar: a zero divisor gives
    an infinity, or nan for 0/0 (with a warning, not an exception). *)
Definition fdiv (a b : Q) : fnum :=
  if Qeq_bool b 0 then
    if Qeq_bool a 0 then NaN else if Qltb 0 a then PInf else NInf
  else Fin (a / b).

(** [ndarray.clip(lo, hi)] : nan stays nan. *)
Definition clip (lo hi x : Q) : Q :=
  if Qltb x lo then lo else if Qltb hi x then hi else x.

Definition fclip (lo hi : Q) (x : fnum) : fnum :=
  match x with
  | Fin q => Fin (clip lo hi q)
  | PInf => Fin hi
  | NInf => Fin lo
  | NaN => NaN
  end.

(** [1 - x] on a possibly non-finite float. *)
Definition fcompl (x : fnum) : fnum :=
  match x with
  | Fin q => Fin (1 - q)
  | PInf => NInf
  | NInf => PInf
  | NaN => NaN
  end.

Definition in_unit (x : fnum) : Prop :=
  match x with
  | Fin q => 0 <= q <= 1
  | _ => False
  end.

(** Row sum of a probability row, defined only on finite entries. *)
Definition fadd (x y : fnum) : fnum :=
  match x, y with
  | Fin a, Fin b => Fin (a + b)
  | NaN, _ | _, NaN => NaN
  | PInf, NInf | NInf, PInf => NaN
  | PInf, _ | _, PInf => PInf
  | NInf, _ | _, NInf => NInf
  end.

Definition feq (x y : fnum) : Prop :=
  match x, y with
  | Fin a, Fin b => a == b
  | PInf, PInf | NInf, NInf => True
  | _, _ => False
  end.

Definition sumQ (l : list Q) : Q := fold_right Qplus 0 l.

Definition Qlen (l : list Q) : Q := inject_Z (Z.of_nat (List.length l)).

(** [np.mean] of a one-dimensional array. *)
Definition mean (a : list Q) : Q := sumQ a / Qlen a.

(** Insertion sort, ascending: the order statistics of an array. *)
Fixpoint insert_sorted (x : Q) (l : list Q) : list Q :=
  match l with
  | [] => [x]
  | y :: l' => if Qle_bool x y then x :: l else y :: insert_sorted x l'
  end.

Definition sort (l : list Q) : list Q := fold_right insert_sorted [] l.

(** [numpy.lib.function_base._lerp(a, b, t)]: [a + (b - a) * t], computed
    from [b] when [t >= 0.5] so that the result stays between [a] and [b]. *)
Definition lerp (a b t : Q) : Q :=
  let diff_b_a := fl (b - a) in
  if Qle_bool (1 # 2) t then fl (b - fl (diff_b_a * fl (1 - t)))
  else fl (a + fl (diff_b_a * t)).

(** [numpy.percentile(a, q)] with the default linear interpolation: the
    virtual index [(n-1) * (q/100)] into the sorted array, interpolated
    between its two neighbours; an index at or beyond the last position
    gives the last element. *)
Definition percentile (a : list Q) (q : Q) : result Q :=
  if Qltb q 0 || Qltb 100 q then
    Err (ValueError ["Percentiles must be in the range [0, 100]"%string])
  else
    match a with
    | [] => Err IndexError
    | _ :: _ =>
        let arr := sort a in
        let n := List.length a in
        let quantile := fl (q / 100) in
        let virtual_index := fl (inject_Z (Z.of_nat (n - 1)) * quantile) in
        let previous := Nat.min (Z.to_nat (Qfloor virtual_index)) (n - 1) in
        let next := Nat.min (S previous) (n - 1) in
        let gamma := fl (virtual_index - inject_Z (Z.of_nat previous)) in
        Ok (lerp (nth previous arr 0) (nth next arr 0) gamma)
    end.

End Num.

(** ** Numerical library calls used by the confidence estimator and the
    linear calibration *)

Module Lib.
Import Num.

(** [np.vectorize(pyfunc)(xs)] without [otypes]: the output type is found by
    calling [pyfunc] on the first element, so an empty input is refused. *)
Definition vectorize {A B : Type} (pyfunc : A -> B) (xs : list A)
  : result (list B) :=
  match xs with
  | [] => Err (ValueError
            ["cannot call `vectorize` on size 0 inputs unless `otypes` is set"%string])
  | _ :: _ => Ok (map pyfunc xs)
  end.

(** [np.count_nonzero] of a boolean array. *)
Definition count_nonzero (mask : list bool) : Z :=
  Z.of_nat (List.length (filter (fun b => b) mask)).

(** Python's [int(x)] on a float: truncation toward zero. *)
Definition int_of_float (x : Q) : Z := Z.quot (Qnum x) (Zpos (Qden x)).

Fixpoint Qpow (x : Q) (n : nat) : Q :=
  match n with
  | O => 1
  | S n' => x * Qpow x n'
  end.

Fixpoint choose (n k : nat) : nat :=
  match k, n with
  | O, _ => 1%nat
  | S _, O => 0%nat
  | S k', S n' => (choose n' k' + choose n' k)%nat
  end.

Definition binom_pmf (n : nat) (p : Q) (i : nat) : Q :=
  inject_Z (Z.of_nat (choose n i)) * Qpow p i * Qpow (1 - p) (n - i).

(** One term of the expansion of [(a + b)^n]. *)
Definition term (a b : Q) (n i : nat) : Q :=
  inject_Z (Z.of_nat (choose n i)) * Qpow a i * Qpow b (n - i).

(** [scipy.stats.binom.cdf(k, n, p)] at an integer [k]: the probability of at
    most [k] successes among [n] trials. *)
Definition binom_cdf (k : Z) (n : nat) (p : Q) : Q :=
  if (k <? 0)%Z then 0
  else sumQ (map (binom_pmf n p) (seq 0 (S (Nat.min (Z.to_nat k) n)))).

(** [arr[mask]] *)
Fixpoint compress {A : Type} (mask : list bool) (arr : list A) : list A :=
  match mask, arr with
  | m :: mask', x :: arr' =>
      if m then x :: compress mask' arr' else compress mask' arr'
  | _, _ => []
  end.

(** [np.place(arr, mask, vals)]: the masked positions of [arr] receive the
    elements of [vals] in order, [vals] being repeated when it is too short. *)
Fixpoint place_from {A : Type} (arr : list A) (mask : list bool)
    (rest vals : list A) : list A :=
  match arr, mask with
  | x :: arr', m :: mask' =>
      if m then
        match rest, vals with
        | v :: rest', _ => v :: place_from arr' mask' rest' vals
        | [], v :: vals' => v :: place_from arr' mask' vals' vals
        | [], [] => x :: place_from arr' mask' [] vals
        end
      else x :: place_from arr' mask' rest vals
  | _, _ => arr
  end.

Definition place {A : Type} (arr : list A) (mask : list bool) (vals : list A)
  : result (list A) :=
  match vals with
  | [] => if existsb (fun b => b) mask
          then Err (ValueError ["Cannot insert from an empty array!"%string])
          else Ok arr
  | _ :: _ => Ok (place_from arr mask vals vals)
  end.

(** [sklearn.preprocessing.MinMaxScaler] with the default feature range
    (0, 1), on a single feature. *)
Record MinMaxScaler := { min_ : Q; scale_ : Q }.

Definition minimum (x : Q) (l : list Q) : Q := fold_right Qmin x l.
Definition maximum (x : Q) (l : list Q) : Q := fold_right Qmax x l.

(** [sklearn.preprocessing._data._handle_zeros_in_scale]: a range below
    [10 * eps], and so a zero range, is replaced by 1 before dividing. *)
Definition handle_zeros_in_scale (scale : Q) : Q :=
  if Qltb scale (10 * eps) then 1 else scale.

Definition MinMaxScaler_fit (X : list Q) : result MinMaxScaler :=
  match X with
  | [] => Err (ValueError ["Found array with 0 sample(s)"%string])
  | x :: X' =>
      let data_min := minimum x X' in
      let data_max := maximum x X' in
      let data_range := fl (data_max - data_min) in
      let scale := (1 - 0) / handle_zeros_in_scale data_range in
      Ok {| min_ := 0 - data_min * scale; scale_ := scale |}
  end.

Definition MinMaxScaler_transform (s : MinMaxScaler) (X : list Q)
  : result (list Q) :=
  match X with
  | [] => Err (ValueError ["Found array with 0 sample(s)"%string])
  | _ :: _ => Ok (map (fun x => x * scale_ s + min_ s) X)
  end.

End Lib.

(** ** The statements of the design document, in its words

    These definitions follow the specification, not the code; the
    arithmetic in them is exact. *)

Module PercentileSpec.
Import Num.

(** The rank of the [q]-th percentile among [n] order statistics, counted
    from 0. *)
Definition rank (q : Q) (n : nat) : Q :=
  q / 100 * inject_Z (Z.of_nat (n - 1)).

(** Linear interpolation between the order statistics [s] around the rank
    [r]; the last one at or beyond the last rank. *)
Definition interpolate (s : list Q) (r : Q) : Q :=
  let last := (List.length s - 1)%nat in
  let lo := Nat.min (Z.to_nat (Qfloor r)) last in
  let hi := Nat.min (S lo) last in
  nth lo s 0 + (r - inject_Z (Z.of_nat lo)) * (nth hi s 0 - nth lo s 0).


(** The [q]-th percentile of the scores whose order statistics are [s]. *)
Definition percentile (s : list Q) (q : Q) : Q :=
  interpolate s (rank q (List.length s)).

End PercentileSpec.

Module ConfidenceSpec.
Import Num Lib.

(** [k x]: how many training scores are at most [x]. *)
Definition k (train : list Q) (x : Q) : Z :=
  Z.of_nat (List.length (filter (fun s => Qle_bool s x) train)).

(** Laplace-smoothed posterior outlier probability. *)
Definition p (train : list Q) (x : Q) : Q :=
  (1 + inject_Z (k train x)) / (2 + inject_Z (Z.of_nat (List.length train))).

(** [m = n - floor (n * contamination)] *)
Definition m (n : nat) (contamination : Q) : Z :=
  (Z.of_nat n - Qfloor (inject_Z (Z.of_nat n) * contamination))%Z.

(** The same with the product rounded to a double before the floor is
    taken. *)
Definition m_double (n : nat) (contamination : Q) : Z :=
  (Z.of_nat n - Qfloor (fl (inject_Z (Z.of_nat n) * contamination)))%Z.

(** [BinomCDF (m; n, p)]: the probability of at most [m] successes among [n]
    independent trials of probability [p]. *)
Definition BinomCDF (m : Z) (n : nat) (p : Q) : Q :=
  sumQ (map (fun i => inject_Z (Z.of_nat (choose n i))
                      * Qpow p i * Qpow (1 - p) (n - i))
            (seq 0 (S (Z.to_nat m)))).

Definition c (m : Z) (train : list Q) (x : Q) : Q :=
  1 - BinomCDF m (List.length train) (p train x).

(** The confidence is reported toward the predicted class. *)
Definition reported (m : Z) (train : list Q) (threshold : Q) (x : Q) : Q :=
  if Qgtb x threshold then c m train x else 1 - c m train x.

End ConfidenceSpec.

Module UnifySpec.
Import Num.

(** [clip (v, 0, 1)] *)
Definition clip01 (v : Q) : Q := Qmax 0 (Qmin 1 v).

(** The mean of the squared deviations from [mu]. *)
Definition variance (a : list Q) (mu : Q) : Q :=
  sumQ (map (fun x => (x - mu) * (x - mu)) a) / Qlen a.

End UnifySpec.

(** ** The detector and its methods *)

Module Detector.
Import Num Lib.

(** What [predict] and [predict_proba] return: the result alone, or paired
    with the confidence when [return_confidence] is set. *)
Inductive returned (A : Type) :=
| Alone (a : A)
| WithConfidence (a : A) (confidence : list Q).
Arguments Alone {A} a.
Arguments WithConfidence {A} a confidence.

Section BaseDetector.

(** The graph type and the state a concrete detector adds are opaque; the
    abstract method [decision_function] is supplied by the subclass. *)
Context {Graph Model : Type}.

Record t := mk {
  contamination : Q;
  model : Model;
  decision_scores_ : option (list Q);
  threshold_ : option Q;
  labels_ : option (list Z);
  _mu : option Q;
  _sigma : option Q
}.

(** The constructor validates [contamination]; the fitted attributes do not
    exist yet. *)
Definition __init__ (contamination : Q) (model : Model) : result t :=
  if negb (Qltb 0 contamination && Qle_bool contamination (1 # 2)) then
    Err (ValueError ["contamination must be in (0, 0.5]"%string])
  else Ok (mk contamination model None None None None None).

Variable decision_function : t -> Graph -> list Q.
Variable erf : Q -> Q.
Variable sqrt : Q -> Q.

(** Methods run on the instance: they may read it, write it and raise. *)
Definition M (A : Type) : Type := t -> result A * t.

Definition ret {A : Type} (a : A) : M A := fun self => (Ok a, self).

Definition bind {A B : Type} (m : M A) (k : A -> M B) : M B :=
  fun self =>
    match m self with
    | (Ok a, self') => k a self'
    | (Err e, self') => (Err e, self')
    end.

Definition raise {A : Type} (e : exn) : M A := fun self => (Err e, self).

Definition lift {A : Type} (r : result A) : M A := fun self => (r, self).

Definition getattr {A : Type} (name : string) (field : t -> option A) : M A :=
  fun self =>
    match field self with
    | Some a => (Ok a, self)
    | None => (Err (AttributeError name), self)
    end.

Definition setattr (update : t -> t) : M unit :=
  fun self => (Ok tt, update self).

Notation "x <- m ;; k" := (bind m (fun x => k))
  (at level 100, m at next level, right associativity).
Notation "m ;;; k" := (bind m (fun _ => k))
  (at level 100, right associativity).

Definition set_threshold_ (v : Q) (d : t) : t :=
  mk (contamination d) (model d) (decision_scores_ d) (Some v) (labels_ d)
     (_mu d) (_sigma d).
Definition set_labels_ (v : list Z) (d : t) : t :=
  mk (contamination d) (model d) (decision_scores_ d) (threshold_ d) (Some v)
     (_mu d) (_sigma d).
Definition set__mu (v : Q) (d : t) : t :=
  mk (contamination d) (model d) (decision_scores_ d) (threshold_ d)
     (labels_ d) (Some v) (_sigma d).
Definition set__sigma (v : Q) (d : t) : t :=
  mk (contamination d) (model d) (decision_scores_ d) (threshold_ d)
     (labels_ d) (_mu d) (Some v).

Definition isSome {A : Type} (o : option A) : bool :=
  match o with Some _ => true | None => false end.

(** [check_is_fitted(self, ['decision_scores_', 'threshold_', 'labels_'])] *)
Definition check_is_fitted : M unit :=
  fun self =>
    if isSome (decision_scores_ self) && isSome (threshold_ self)
       && isSome (labels_ self)
    then (Ok tt, self)
    else (Err NotFittedError, self).

(** What [check_is_fitted] tests. *)
Definition fitted (self : t) : Prop :=
  decision_scores_ self <> None /\ threshold_ self <> None
  /\ labels_ self <> None.

(** [(scores > threshold).astype('int').ravel()] *)
Definition above (threshold : Q) (scores : list Q) : list Z :=
  map (fun s => if Qgtb s threshold then 1%Z else 0%Z) scores.

(** [np.std]: the square root of the mean squared deviation. *)
Definition std (a : list Q) : Q :=
  let m := mean a in
  sqrt (mean (map (fun x => Qabs (x - m) * Qabs (x - m)) a)).

Definition predict_confidence (G : Graph) : M (list Q) :=
  check_is_fitted ;;;
  train <- getattr "decision_scores_" decision_scores_ ;;
  let n := List.length train in
  test_scores <- (fun self => (Ok (decision_function self G), self)) ;;
  n_instances <- lift (vectorize
    (fun x => count_nonzero (map (fun s => Qle_bool s x) train))
    test_scores) ;;
  posterior_prob <- lift (vectorize
    (fun x : Z => (1 + inject_Z x) / (2 + inject_Z (Z.of_nat n)))
    n_instances) ;;
  c <- (fun self => (Ok (contamination self), self)) ;;
  confidence <- lift (vectorize
    (fun p => 1 - binom_cdf
                   (Z.of_nat n
                    - int_of_float (fl (inject_Z (Z.of_nat n) * c)))
                   n p)
    posterior_prob) ;;
  threshold <- getattr "threshold_" threshold_ ;;
  let prediction := above threshold test_scores in
  let mask := map (fun l => (l =? 0)%Z) prediction in
  lift (place confidence mask (map (fun c => 1 - c) (compress mask confidence))).

Definition predict (G : Graph) (return_confidence : bool)
  : M (returned (list Z)) :=
  check_is_fitted ;;;
  pred_score <- (fun self => (Ok (decision_function self G), self)) ;;
  threshold <- getattr "threshold_" threshold_ ;;
  let prediction := above threshold pred_score in
  if return_confidence then
    confidence <- predict_confidence G ;;
    ret (WithConfidence prediction confidence)
  else ret (Alone prediction).

(** [erf] on a possibly non-finite argument. *)
Definition ferf (x : fnum) : fnum :=
  match x with
  | Fin q => Fin (erf q)
  | PInf => Fin 1
  | NInf => Fin (-1)
  | NaN => NaN
  end.

(** The two columns of [probs], row by row. *)
Definition rows (outlier : list fnum) : list (fnum * fnum) :=
  map (fun p => (fcompl p, p)) outlier.

Definition predict_proba (G : Graph) (method : string)
    (return_confidence : bool) : M (returned (list (fnum * fnum))) :=
  check_is_fitted ;;;
  train_scores <- getattr "decision_scores_" decision_scores_ ;;
  test_scores <- (fun self => (Ok (decision_function self G), self)) ;;
  if String.eqb method "linear" then
    scaler <- lift (MinMaxScaler_fit train_scores) ;;
    scaled <- lift (MinMaxScaler_transform scaler test_scores) ;;
    let probs := rows (map (fun x => Fin (clip 0 1 x)) scaled) in
    if return_confidence then
      confidence <- predict_confidence G ;;
      ret (WithConfidence probs confidence)
    else ret (Alone probs)
  else if String.eqb method "unify" then
    mu <- getattr "_mu" _mu ;;
    sigma <- getattr "_sigma" _sigma ;;
    let pre_erf_score :=
      map (fun x => fdiv (x - mu) (sigma * sqrt 2)) test_scores in
    let erf_score := map ferf pre_erf_score in
    let probs := rows (map (fclip 0 1) erf_score) in
    if return_confidence then
      confidence <- predict_confidence G ;;
      ret (WithConfidence probs confidence)
    else ret (Alone probs)
  else
    raise (ValueError
             [method; "is not a valid probability conversion method"%string]).

Definition _process_decision_scores : M unit :=
  scores <- getattr "decision_scores_" decision_scores_ ;;
  c <- (fun self => (Ok (contamination self), self)) ;;
  threshold <- lift (percentile scores (fl (100 * fl (1 - c)))) ;;
  setattr (set_threshold_ threshold) ;;;
  setattr (set_labels_ (above threshold scores)) ;;;
  setattr (set__mu (mean scores)) ;;;
  setattr (set__sigma (std scores)).

(** *** Notions used to state the properties of the methods *)

(** A method is read-only when no run of it changes the instance. *)
Definition read_only {A : Type} (m : M A) : Prop :=
  forall self, snd (m self) = self.

(** The confidence [predict_confidence] reports for a test score, in the
    terms of the code. *)
Definition confidence_of (train : list Q) (c thr : Q) (x : Q) : Q :=
  let n := List.length train in
  let conf :=
    1 - binom_cdf
          (Z.of_nat n - int_of_float (fl (inject_Z (Z.of_nat n) * c))) n
          (ConfidenceSpec.p train x) in
  if Qgtb x thr then conf else 1 - conf.

(** The instance once [_process_decision_scores] has returned. *)
Definition processed (d : t) (scores : list Q) (thr : Q) : t :=
  mk (contamination d) (model d) (decision_scores_ d) (Some thr)
     (Some (above thr scores)) (Some (mean scores)) (Some (std scores)).

(** The outlier probability that the "unify" method gives a test score. *)
Definition unify_probability (mu sigma : Q) (x : Q) : fnum :=
  fclip 0 1 (ferf (fdiv (x - mu) (sigma * sqrt 2))).

(** A well-formed row of the probability matrix. *)
Definition row_ok (r : fnum * fnum) : Prop :=
  in_unit (snd r) /\ fst r = fcompl (snd r)
  /\ feq (fadd (fst r) (snd r)) (Fin 1).

End BaseDetector.
End Detector.

(** ** Parameter introspection

    Estimators are objects of a store; a parameter value may refer to another
    estimator, which [set_params] then mutates in place. *)

Module Params.

Inductive value :=
| VNone
| VBool (b : bool)
| VInt (z : Z)
| VFloat (q : Q)
| VStr (s : string)
| VObj (l : positive).

(** [inspect.Parameter.kind] *)
Inductive kind :=
| POSITIONAL_ONLY
| POSITIONAL_OR_KEYWORD
| VAR_POSITIONAL
| KEYWORD_ONLY
| VAR_KEYWORD.

Definition kind_eqb (a b : kind) : bool :=
  match a, b with
  | POSITIONAL_ONLY, POSITIONAL_ONLY
  | POSITIONAL_OR_KEYWORD, POSITIONAL_OR_KEYWORD
  | VAR_POSITIONAL, VAR_POSITIONAL
  | KEYWORD_ONLY, KEYWORD_ONLY
  | VAR_KEYWORD, VAR_KEYWORD => true
  | _, _ => false
  end.

Record parameter := { name : string; pkind : kind }.

(** An estimator instance: its class, the signature of its constructor as
    [inspect.signature] gives it for the bound method, so without [self]
    ([None] when the class inherits [object.__init__]), and its
    attributes. *)
Record object := {
  class_name : string;
  init : option (list parameter);
  attrs : gmap string value
}.

(** Python dictionaries keep insertion order; assigning to a present key
    keeps its position. *)
Fixpoint dict_set {V : Type} (d : list (string * V)) (k : string) (v : V)
  : list (string * V) :=
  match d with
  | [] => [(k, v)]
  | (k', v') :: d' =>
      if String.eqb k' k then (k, v) :: d' else (k', v') :: dict_set d' k v
  end.

Fixpoint dict_get {V : Type} (d : list (string * V)) (k : string) : option V :=
  match d with
  | [] => None
  | (k', v') :: d' => if String.eqb k' k then Some v' else dict_get d' k
  end.

Definition dict_mem {V : Type} (d : list (string * V)) (k : string) : bool :=
  match dict_get d k with Some _ => true | None => false end.

Definition dict_update {V : Type} (d items : list (string * V))
  : list (string * V) :=
  fold_left (fun d kv => dict_set d (fst kv) (snd kv)) items d.

(** [sorted] on strings. *)
Fixpoint insert_name (x : string) (l : list string) : list string :=
  match l with
  | [] => [x]
  | y :: l' => if String.leb x y then x :: l else y :: insert_name x l'
  end.

Definition sorted (l : list string) : list string :=
  fold_right insert_name [] l.

(** [inspect.signature] of [object.__init__] bound to an instance: a
    [*args] and a [**kwargs] parameter. *)
Definition object_init : list parameter :=
  [ {| name := "args"; pkind := VAR_POSITIONAL |};
    {| name := "kwargs"; pkind := VAR_KEYWORD |} ].

(** [_get_param_names] has no [@classmethod] decorator and [get_params]
    calls it on the instance: [cls.__init__] is a bound method, which is
    never [object.__init__] itself, so the early [return []] is not taken
    and a class without a constructor of its own is introspected through
    the signature of [object.__init__].

    With a [*args] parameter the message of the [RuntimeError] is built
    first, by formatting the instance with [%s], that is by [__repr__],
    which calls [get_params] and so this function again on the same
    instance.  [limit] is what the interpreter's recursion limit leaves for
    these calls. *)
Definition init_signature (o : object) : list parameter :=
  match init o with
  | Some signature => signature
  | None => object_init
  end.

Definition parameters (o : object) : list parameter :=
  filter (fun p => negb (String.eqb (name p) "self")
                   && negb (kind_eqb (pkind p) VAR_KEYWORD))
         (init_signature o).

Fixpoint param_names_within (limit : nat) (o : object)
  : result (list string) :=
  match limit with
  | O => Err RecursionError
  | S limit' =>
      if existsb (fun p => kind_eqb (pkind p) VAR_POSITIONAL) (parameters o)
      then
        match param_names_within limit' o with
        | Ok _ => Err (RuntimeError
            "scikit-learn estimators should always specify their parameters in the signature of their __init__ (no varargs).")
        | Err e => Err e
        end
      else Ok (sorted (map name (parameters o)))
  end.

(** [sys.getrecursionlimit()] *)
Definition recursion_limit : nat := 1000.

Definition _get_param_names (o : object) : result (list string) :=
  param_names_within recursion_limit o.

(** [getattr(self, key, None)] *)
Definition getattr (o : object) (key : string) : value :=
  match attrs o !! key with
  | Some v => v
  | None => VNone
  end.

(** [hasattr(value, 'get_params')]: the value is an estimator of the
    store. *)
Definition has_get_params (h : gmap positive object) (v : value)
  : option positive :=
  match v with
  | VObj l => match h !! l with Some _ => Some l | None => None end
  | _ => None
  end.

Definition flatten (key : string) (kv : string * value) : string * value :=
  (key ++ "__" ++ fst kv, snd kv)%string.

Fixpoint get_params_loop (get_params : positive -> result (list (string * value)))
    (h : gmap positive object) (o : object) (deep : bool)
    (names : list string) (out : list (string * value))
  : result (list (string * value)) :=
  match names with
  | [] => Ok out
  | key :: names' =>
      let value := getattr o key in
      match (if deep then has_get_params h value else None) with
      | Some l =>
          match get_params l with
          | Ok deep_items =>
              get_params_loop get_params h o deep names'
                (dict_set (dict_update out (map (flatten key) deep_items))
                          key value)
          | Err e => Err e
          end
      | None =>
          get_params_loop get_params h o deep names' (dict_set out key value)
      end
  end.

(** [fuel] bounds the depth of nested estimators that is followed, as the
    interpreter's recursion limit does. *)
Fixpoint get_params (fuel : nat) (h : gmap positive object) (self : positive)
    (deep : bool) : result (list (string * value)) :=
  match fuel with
  | O => Err RecursionError
  | S fuel' =>
      match h !! self with
      | None => Err (AttributeError "get_params")
      | Some o =>
          match _get_param_names o with
          | Err e => Err e
          | Ok names =>
              get_params_loop (fun l => get_params fuel' h l true)
                h o deep names []
          end
      end
  end.

(** [s[n:]] *)
Fixpoint drop (n : nat) (s : string) : string :=
  match n, s with
  | O, _ => s
  | S n', String _ s' => drop n' s'
  | S _, EmptyString => EmptyString
  end.

(** [s.partition(sep)] for a non-empty separator: split at the first
    occurrence; without one the result is [(s, '', '')]. *)
Fixpoint partition (sep s : string) : string * string * string :=
  match s with
  | EmptyString => (EmptyString, EmptyString, EmptyString)
  | String c s' =>
      if String.prefix sep s
      then (EmptyString, sep, drop (String.length sep) s)
      else
        let '(head, delim, tail) := partition sep s' in
        (String c head, delim, tail)
  end.

(** [setattr(self, key, value)] *)
Definition setattr (h : gmap positive object) (self : positive)
    (key : string) (v : value) : gmap positive object :=
  match h !! self with
  | Some o =>
      <[self := {| class_name := class_name o; init := init o;
                   attrs := <[key := v]> (attrs o) |}]> h
  | None => h
  end.

(** [nested_params[key][sub_key] = value] on a [defaultdict(dict)] *)
Definition nested_set (nested : list (string * list (string * value)))
    (key sub_key : string) (v : value)
  : list (string * list (string * value)) :=
  let inner := match dict_get nested key with
               | Some d => d
               | None => []
               end in
  dict_set nested key (dict_set inner sub_key v).

(** The first loop of [set_params]: plain keys are assigned at once, nested
    ones are grouped by prefix. *)
Fixpoint set_params_loop (self : positive)
    (valid_params params : list (string * value))
    (nested_params : list (string * list (string * value)))
    (h : gmap positive object)
  : result (list (string * list (string * value))) * gmap positive object :=
  match params with
  | [] => (Ok nested_params, h)
  | (key0, v) :: params' =>
      let '(key, delim, sub_key) := partition "__" key0 in
      if negb (dict_mem valid_params key)
      then (Err (InvalidParameter key self), h)
      else if negb (String.eqb delim EmptyString)
      then set_params_loop self valid_params params'
             (nested_set nested_params key sub_key v) h
      else set_params_loop self valid_params params' nested_params
             (setattr h self key v)
  end.

(** The second loop: each group goes to [valid_params[key].set_params]. *)
Fixpoint set_nested
    (set_params : gmap positive object -> positive -> list (string * value)
                  -> result unit * gmap positive object)
    (valid_params : list (string * value))
    (nested_params : list (string * list (string * value)))
    (h : gmap positive object) : result unit * gmap positive object :=
  match nested_params with
  | [] => (Ok tt, h)
  | (key, sub_params) :: rest =>
      match dict_get valid_params key with
      | Some v =>
          match has_get_params h v with
          | Some l =>
              match set_params h l sub_params with
              | (Ok _, h') => set_nested set_params valid_params rest h'
              | (Err e, h') => (Err e, h')
              end
          | None => (Err (AttributeError "set_params"), h)
          end
      | None => (Err (KeyError key), h)
      end
  end.

Fixpoint set_params (fuel : nat) (h : gmap positive object) (self : positive)
    (params : list (string * value)) : result unit * gmap positive object :=
  match fuel with
  | O => (Err RecursionError, h)
  | S fuel' =>
      match params with
      | [] => (Ok tt, h)
      | _ :: _ =>
          match get_params fuel' h self true with
          | Err e => (Err e, h)
          | Ok valid_params =>
              match set_params_loop self valid_params params [] h with
              | (Err e, h') => (Err e, h')
              | (Ok nested_params, h') =>
                  set_nested (set_params fuel') valid_params nested_params h'
              end
          end
      end
  end.

End Params.

(** ** The naming convention of nested parameters *)

Module Convention.
Import Params.

(** A parameter name is clean when, followed by an underscore, it holds no
    double underscore: it neither contains the delimiter nor ends in an
    underscore, so that [partition] splits [name__sub] after [name]. *)
Fixpoint clean (s : string) : bool :=
  match s with
  | EmptyString => true
  | String c s' => negb (String.prefix "__" (s ++ "_")) && clean s'
  end.

(** Every estimator of the store declares distinct, clean parameter
    names. *)
Definition clean_store (h : gmap positive object) : Prop :=
  forall l o names,
    h !! l = Some o -> _get_param_names o = Ok names ->
    NoDup names /\ Forall (fun key => clean key = true) names.

(** The order of [sorted]. *)
Definition below (a b : string) : Prop := String.leb a b = true.

End Convention.

(** ** Auxiliary notions for the parameter methods *)

Module Trace.
Import Params.

(** The assignments that one iteration of the loop of [get_params] makes to
    [out], in order: the flattened parameters of a nested estimator, then
    the parameter itself. *)
Definition entries (get_params : positive -> result (list (string * value)))
    (h : gmap positive object) (o : object) (deep : bool) (key : string)
  : result (list (string * value)) :=
  match (if deep then has_get_params h (getattr o key) else None) with
  | Some l =>
      match get_params l with
      | Ok deep_items =>
          Ok (map (flatten key) deep_items ++ [(key, getattr o key)])
      | Err e => Err e
      end
  | None => Ok [(key, getattr o key)]
  end.

Fixpoint writes (get_params : positive -> result (list (string * value)))
    (h : gmap positive object) (o : object) (deep : bool)
    (names : list string) : result (list (string * value)) :=
  match names with
  | [] => Ok []
  | key :: names' =>
      match entries get_params h o deep key with
      | Ok e =>
          match writes get_params h o deep names' with
          | Ok w => Ok (e ++ w)
          | Err err => Err err
          end
      | Err err => Err err
      end
  end.

(** Two stores that no call of [getattr] with a default can tell apart. *)
Definition object_equiv (o o' : object) : Prop :=
  class_name o = class_name o' /\ init o = init o'
  /\ forall key, getattr o key = getattr o' key.

Definition store_equiv (h h' : gmap positive object) : Prop :=
  forall l,
    match h !! l, h' !! l with
    | Some o, Some o' => object_equiv o o'
    | None, None => True
    | _, _ => False
    end.

(** [nests_within h n self]: following nested estimators from [self] stops
    within [n] levels, and no constructor on the way takes varargs. *)
Inductive nests_within (h : gmap positive object) : nat -> positive -> Prop :=
| nests_step n self o names :
    h !! self = Some o ->
    _get_param_names o = Ok names ->
    (forall key l, In key names ->
                   has_get_params h (getattr o key) = Some l ->
                   nests_within h n l) ->
    nests_within h (S n) self.

(** The top-level name a keyword of [set_params] addresses, and whether the
    keyword is plain (has no delimiter). *)
Definition top (key : string) : string := fst (fst (partition "__" key)).

Definition plain (key : string) : bool :=
  String.eqb (snd (fst (partition "__" key))) EmptyString.

(** The store once the plain keywords of [params] are assigned on [self]. *)
Definition assign_plain (h : gmap positive object) (self : positive)
    (params : list (string * value)) : gmap positive object :=
  fold_left (fun h kv => if plain (fst kv) then setattr h self (fst kv) (snd kv)
                         else h)
            params h.

End Trace.

(** ** Auxiliary notions for the round trip *)

Module RoundTrip.
Import Params Convention Trace.

(** An entry of [nested_params]: none for an estimator without
    parameters. *)
Definition group (key : string) (items : list (string * value))
  : list (string * list (string * value)) :=
  match items with
  | [] => []
  | _ :: _ => [(key, items)]
  end.

(** The value of [nested_params] when [set_params] has read the mapping
    returned by [get_params]. *)
Definition expected_nested (get_params : positive -> result (list (string * value)))
    (h : gmap positive object) (o : object) (names : list string)
  : list (string * list (string * value)) :=
  flat_map (fun key =>
              match has_get_params h (getattr o key) with
              | Some l => match get_params l with
                          | Ok items => group key items
                          | Err _ => []
                          end
              | None => []
              end) names.

(** The store once every declared parameter is assigned its own value. *)
Definition assign_all (h : gmap positive object) (self : positive) (o : object)
    (names : list string) : gmap positive object :=
  fold_left (fun h key => setattr h self key (getattr o key)) names h.

(** [set_params] on the mapping returned by [get_params] succeeds and leaves
    an equivalent store. *)
Definition round_trips (fuel : nat) : Prop :=
  forall h self m,
    clean_store h ->
    get_params fuel h self true = Ok m ->
    exists h', set_params (S fuel) h self m = (Ok tt, h') /\ store_equiv h h'.

End RoundTrip.

(** ** Example instances *)

Module Examples.
Import Num Lib Params.

(** A detector on graphs given as the list of the scores of their nodes. *)
Definition scores_of (d : @Detector.t unit) (G : list Q) : list Q := G.

(** Rational stand-ins for the two transcendental functions, exact at 0. *)
Definition sqrt_floor (x : Q) : Q :=
  inject_Z (Z.sqrt (Qnum x * Zpos (Qden x))) / inject_Z (Zpos (Qden x)).

Definition erf_rational (x : Q) : Q := x / (1 + Qabs x).

(** [BaseDetector(contamination=0.1)] before [fit]. *)
Definition unfitted : @Detector.t unit :=
  Detector.mk (1 # 10) tt None None None None None.

(** The same with training scores 1..5, before the post-processing. *)
Definition scored : @Detector.t unit :=
  Detector.mk (1 # 10) tt (Some [1; 2; 3; 4; 5]) None None None None.

(** A fitted detector with the training scores 1..5 and the threshold 4.6,
    the contamination and the threshold written as decimal fractions. *)
Definition fitted5 : @Detector.t unit :=
  Detector.mk (1 # 10) tt (Some [1; 2; 3; 4; 5]) (Some (23 # 5))
              (Some [0; 0; 0; 0; 1]%Z) (Some 3) (Some (7 # 5)).

(** The scores 1, 2, ..., [n]. *)
Definition one_to (n : nat) : list Q :=
  map (fun i => inject_Z (Z.of_nat i)) (seq 1 n).

(** The scores 1, 2, ..., 100 of the design document. *)
Definition one_to_hundred : list Q := one_to 100.

(** [BaseDetector(contamination=0.1)] with the training scores 1..5, and
    [BaseDetector(contamination=0.34)] with the training scores 1..51,
    before the post-processing; the contamination is the double that the
    literal denotes. *)
Definition scored5 : @Detector.t unit :=
  Detector.mk (fl (1 # 10)) tt (Some (one_to 5)) None None None None.


(** [BaseDetector(contamination=0.3)] fitted on the scores 1..10: the
    threshold is the double 7.3. *)
Definition fitted10 : @Detector.t unit :=
  Detector.mk (fl (3 # 10)) tt (Some (one_to 10))
    (Some (8219069319951155 # 1125899906842624))
    (Some [0; 0; 0; 0; 0; 0; 0; 1; 1; 1]%Z) (Some (11 # 2)) (Some (11 # 4)).

Local Open Scope string_scope.

Definition keyword (n : string) : parameter :=
  {| name := n; pkind := POSITIONAL_OR_KEYWORD |}.

(** A [BaseDetector(contamination=0.1)] at address 1. *)
Definition base_detector : object :=
  {| class_name := "BaseDetector";
     init := Some [keyword "contamination"];
     attrs := {[ "contamination" := VFloat (1 # 10) ]} |}.

Definition h_base : gmap positive object := {[ 1%positive := base_detector ]}.

(** A composite estimator [T(A0=a, a=a, a_=b)] at address 1, whose
    parameters [A0] and [a] hold the same estimator [a = A(_b=1)]
    (address 2) and whose parameter [a_] holds [b = B(b=2)] (address 3). *)
Definition est_A : object :=
  {| class_name := "A"; init := Some [keyword "_b"];
     attrs := {[ "_b" := VInt 1 ]} |}.

Definition est_B : object :=
  {| class_name := "B"; init := Some [keyword "b"];
     attrs := {[ "b" := VInt 2 ]} |}.

Definition est_T : object :=
  {| class_name := "T";
     init := Some [keyword "A0"; keyword "a"; keyword "a_"];
     attrs := {[ "A0" := VObj 2; "a" := VObj 2; "a_" := VObj 3 ]} |}.

Definition h_alias : gmap positive object :=
  {[ 1%positive := est_T; 2%positive := est_A; 3%positive := est_B ]}.

(** A pipeline-like estimator [P(scale=0.5, inner=BaseDetector(0.1))] at
    address 2, with the base detector above at address 1. *)
Definition est_P : object :=
  {| class_name := "P";
     init := Some [keyword "scale"; keyword "inner"];
     attrs := {[ "scale" := VFloat (1 # 2); "inner" := VObj 1 ]} |}.

Definition h_nested : gmap positive object :=
  {[ 1%positive := base_detector; 2%positive := est_P ]}.

End Examples.

(** ** Further notions for the detector *)

Module DetectorNotions.
Import Num Lib.



End DetectorNotions.

(** ** Further notions for the parameter methods *)

Module ParamsNotions.
Import Params.

(** The constructor parameters that [_get_param_names] keeps. *)
Definition declared (p : parameter) : bool :=
  negb (String.eqb (name p) "self") && negb (kind_eqb (pkind p) VAR_KEYWORD).

(** Two stores with the same estimators, of the same classes and with the
    same constructor signatures; attribute values may differ. *)
Definition same_shape (h h' : gmap positive object) : Prop :=
  forall l,
    match h !! l, h' !! l with
    | Some o, Some o' => class_name o = class_name o' /\ init o = init o'
    | None, None => True
    | _, _ => False
    end.

(** The value a parameter has once [params] are assigned in order: the last
    one given for it, else the value it had. *)
Definition assigned (params : list (string * value)) (old : string -> value)
    (key : string) : value :=
  match dict_get (rev params) key with
  | Some v => v
  | None => old key
  end.

End ParamsNotions.

(** ** Rendering: [_pprint] and [__repr__]

    Strings are sequences of characters with [len] their number.  The two
    conversions that depend on the values, [str] on a float and the
    [printer] (by default [repr]), are parameters. *)

Module Repr.
Import Params.

Definition newline : ascii := "010"%char.
Definition space : ascii := " "%char.

(** [s[:n]] *)
Fixpoint take (n : nat) (s : string) : string :=
  match n, s with
  | O, _ => EmptyString
  | S n', String c s' => String c (take n' s')
  | S _, EmptyString => EmptyString
  end.

(** [s[-n:]] for a positive [n] *)
Definition last_chars (n : nat) (s : string) : string :=
  drop (String.length s - n) s.

(** [n * ' '] *)
Fixpoint spaces (n : nat) : string :=
  match n with
  | O => EmptyString
  | S n' => String space (spaces n')
  end.

(** ['\n' in s] *)
Fixpoint has_newline (s : string) : bool :=
  match s with
  | EmptyString => false
  | String c s' => Ascii.eqb c newline || has_newline s'
  end.

(** [s.rstrip(' ')] *)
Fixpoint rstrip (s : string) : string :=
  match s with
  | EmptyString => EmptyString
  | String c s' =>
      match rstrip s' with
      | EmptyString => if Ascii.eqb c space then EmptyString
                       else String c EmptyString
      | r => String c r
      end
  end.

(** [s.split('\n')] *)
Fixpoint split_lines (s : string) : list string :=
  match s with
  | EmptyString => [EmptyString]
  | String c s' =>
      if Ascii.eqb c newline then EmptyString :: split_lines s'
      else match split_lines s' with
           | l :: ls => String c l :: ls
           | [] => [String c EmptyString]
           end
  end.

(** [''.join(l)] *)
Definition join_all (l : list string) : string :=
  fold_right String.append EmptyString l.

(** [sorted] on the items of a dictionary: by key, the keys being
    distinct. *)
Fixpoint insert_item (x : string * value) (l : list (string * value))
  : list (string * value) :=
  match l with
  | [] => [x]
  | y :: l' =>
      if String.leb (fst x) (fst y) then x :: l else y :: insert_item x l'
  end.

Definition sorted_items (l : list (string * value)) : list (string * value) :=
  fold_right insert_item [] l.

Section Pprint.

Variable str_float : Q -> string.
Variable printer : value -> string.

(** The text of one parameter, shortened when it exceeds 500 characters. *)
Definition render (kv : string * value) : string :=
  let this_repr :=
    match snd kv with
    | VFloat q => (fst kv ++ "=" ++ str_float q)%string
    | v => (fst kv ++ "=" ++ printer v)%string
    end in
  if (500 <? String.length this_repr)%nat
  then (take 300 this_repr ++ "..." ++ last_chars 100 this_repr)%string
  else this_repr.

(** The loop of [_pprint]: [first] tells the first iteration, and the list
    returned is what [params_list] receives. *)
Fixpoint pprint_loop (line_sep : string) (first : bool)
    (items : list (string * value)) (this_line_length : nat) : list string :=
  match items with
  | [] => []
  | kv :: items' =>
      let this_repr := render kv in
      if first then
        this_repr
          :: pprint_loop line_sep false items'
               (this_line_length + String.length this_repr)
      else if (75 <=? this_line_length + String.length this_repr)%nat
              || has_newline this_repr
      then
        line_sep :: this_repr
          :: pprint_loop line_sep false items'
               (String.length line_sep + String.length this_repr)
      else
        ", "%string :: this_repr
          :: pprint_loop line_sep false items'
               (this_line_length + 2 + String.length this_repr)
  end.

Definition _pprint (params : list (string * value)) (offset : nat) : string :=
  let line_sep :=
    (String "," (String newline EmptyString) ++ spaces (1 + offset / 2))%string in
  let params_list :=
    pprint_loop line_sep true (sorted_items params) offset in
  let lines := join_all params_list in
  String.concat (String newline EmptyString)
                (map rstrip (split_lines lines)).

(** ['%s(%s)' % (class_name, _pprint(self.get_params(deep=False), ...))] *)
Definition __repr__ (fuel : nat) (h : gmap positive object) (self : positive)
  : result string :=
  match h !! self with
  | None => Err (AttributeError "__repr__")
  | Some o =>
      match get_params fuel h self false with
      | Ok params =>
          Ok (class_name o ++ "("
              ++ _pprint params (String.length (class_name o)) ++ ")")%string
      | Err e => Err e
      end
  end.

(** The line has no space at its end. *)
Definition no_trailing_space (s : string) : Prop := rstrip s = s.

End Pprint.

End Repr.

(** ** Further example instances *)

Module MoreExamples.
Import Num Lib Params Examples.

Local Open Scope string_scope.

(** A detector fitted on the constant scores 1, 1: the standard deviation
    is zero. *)
Definition fitted_constant : @Detector.t unit :=
  Detector.mk (1 # 10) tt (Some [1; 1]) (Some 1) (Some [0; 0]%Z) (Some 1)
              (Some 0).

(** An estimator whose constructor is [__init__(self, k, *args)]. *)
Definition est_varargs : object :=
  {| class_name := "V";
     init := Some [keyword "k";
                   {| name := "args"; pkind := VAR_POSITIONAL |}];
     attrs := {[ "k" := VInt 3 ]} |}.

Definition h_varargs : gmap positive object := {[ 1%positive := est_varargs ]}.

(** An estimator whose class defines no constructor. *)
Definition est_bare : object :=
  {| class_name := "Bare"; init := None; attrs := empty |}.

Definition h_bare : gmap positive object := {[ 1%positive := est_bare ]}.

(** An estimator [W(inner=v)] at address 2 holding the one above. *)
Definition est_W : object :=
  {| class_name := "W"; init := Some [keyword "inner"];
     attrs := {[ "inner" := VObj 1 ]} |}.

Definition h_wraps_varargs : gmap positive object :=
  {[ 1%positive := est_varargs; 2%positive := est_W ]}.

(** The store [h_nested] with a second base detector at address 3. *)
Definition h_spare : gmap positive object :=
  <[ 3%positive := base_detector ]> h_nested.

(** Stand-ins for [str] on floats and for [repr]. *)
Definition show_float (q : Q) : string := "0.1".

Definition show (v : value) : string :=
  match v with
  | VNone => "None"
  | VBool true => "True"
  | VBool false => "False"
  | VStr s => s
  | _ => "<object>"
  end.

End MoreExamples.


(** * Properties *)

(** ** Numbers and library calls *)

Module NumFacts.
Import Num Lib.

(** *** Powers of two and exponents *)

Lemma two_neq_0 : ~ 2 == 0.
Proof. discriminate. Qed.

Lemma pow2_pos (k : Z) : 0 < 2 ^ k.
Proof. apply Qpower_0_lt; reflexivity. Qed.

Lemma pow2_S (k : Z) : 2 ^ (k + 1) == 2 * 2 ^ k.
Proof. rewrite Qpower_plus by apply two_neq_0; change (2 ^ 1) with 2; ring. Qed.

Lemma pow2_Z (k : Z) : (0 <= k)%Z -> 2 ^ k == inject_Z (2 ^ k).
Proof. intros H; rewrite Zpower_Qpower by exact H; reflexivity. Qed.

Lemma ilog2_spec (q : Q) : 0 < q -> 2 ^ ilog2 q <= q /\ q < 2 ^ (ilog2 q + 1).
Proof.
  intros Hq; unfold ilog2.
  destruct q as [n d]; simpl Qnum; simpl Qden.
  assert (Hn : (0 < n)%Z) by (unfold Qlt in Hq; simpl in Hq; lia).
  set (a := Z.log2 n); set (b := Z.log2 (Z.pos d)).
  assert (Ha : (2 ^ a <= n < 2 ^ (a + 1))%Z).
  { unfold a; pose proof (Z.log2_spec n Hn); replace (a + 1)%Z with (Z.succ (Z.log2 n)) by (unfold a; lia); lia. }
  assert (Hb : (2 ^ b <= Z.pos d < 2 ^ (b + 1))%Z).
  { unfold b; pose proof (Z.log2_spec (Z.pos d) ltac:(lia)); replace (Z.log2 (Z.pos d) + 1)%Z with (Z.succ (Z.log2 (Z.pos d))) by lia; lia. }
  assert (Ha0 : (0 <= a)%Z) by apply Z.log2_nonneg.
  assert (Hb0 : (0 <= b)%Z) by apply Z.log2_nonneg.
  assert (Hnd : n # d == inject_Z n / inject_Z (Z.pos d)) by apply Qmake_Qdiv.
  assert (Hdpos : 0 < inject_Z (Z.pos d)) by (change 0 with (inject_Z 0); rewrite <- Zlt_Qlt; lia).
  assert (HaQ : 2 ^ a <= inject_Z n /\ inject_Z n < 2 ^ (a + 1)).
  { rewrite !pow2_Z by lia; rewrite <- Zle_Qle, <- Zlt_Qlt; lia. }
  assert (HbQ : 2 ^ b <= inject_Z (Z.pos d) /\ inject_Z (Z.pos d) < 2 ^ (b + 1)).
  { rewrite !pow2_Z by lia; rewrite <- Zle_Qle, <- Zlt_Qlt; lia. }
  pose proof (pow2_pos a); pose proof (pow2_pos b).
  destruct (Qle_bool (2 ^ (a - b)) (n # d)) eqn:E.
  - apply Qle_bool_iff in E; split; [exact E | ].
    rewrite Hnd; apply Qlt_shift_div_r; [exact Hdpos | ].
    replace (a - b + 1)%Z with ((a + 1) - b)%Z by lia.
    rewrite Qpower_minus by apply two_neq_0.
    assert (2 ^ (a + 1) / 2 ^ b * 2 ^ b == 2 ^ (a + 1)) as Hx by (field; lra).
    assert (0 < 2 ^ (a + 1) / 2 ^ b).
    { apply Qlt_shift_div_l; [lra | ]. pose proof (pow2_pos (a + 1)); lra. }
    assert (2 ^ (a + 1) / 2 ^ b * 2 ^ b <= 2 ^ (a + 1) / 2 ^ b * inject_Z (Z.pos d)).
    { rewrite !(Qmult_comm (2 ^ (a + 1) / 2 ^ b)). apply Qmult_le_compat_r; lra. }
    lra.
  - assert (Hlt : n # d < 2 ^ (a - b)).
    { apply Qnot_le_lt; intros H1; apply Qle_bool_iff in H1; congruence. }
    split.
    + rewrite Hnd; apply Qle_shift_div_l; [exact Hdpos | ].
      replace (a - b - 1)%Z with (a - (b + 1))%Z by lia.
      rewrite Qpower_minus by apply two_neq_0.
      pose proof (pow2_pos (b + 1)).
      assert (2 ^ a / 2 ^ (b + 1) * 2 ^ (b + 1) == 2 ^ a) as Hx by (field; lra).
      assert (0 < 2 ^ a / 2 ^ (b + 1)) by (apply Qlt_shift_div_l; lra).
      assert (2 ^ a / 2 ^ (b + 1) * inject_Z (Z.pos d) <= 2 ^ a / 2 ^ (b + 1) * 2 ^ (b + 1)).
      { rewrite !(Qmult_comm (2 ^ a / 2 ^ (b + 1))). apply Qmult_le_compat_r; lra. }
      lra.
    + replace (a - b - 1 + 1)%Z with (a - b)%Z by lia; exact Hlt.
Qed.

Lemma ilog2_unique (q : Q) (e : Z) :
  2 ^ e <= q -> q < 2 ^ (e + 1) -> ilog2 q = e.
Proof.
  intros H1 H2.
  assert (Hq : 0 < q) by (pose proof (pow2_pos e); lra).
  destruct (ilog2_spec q Hq) as [H3 H4].
  assert (2 ^ e < 2 ^ (ilog2 q + 1)) as Ha by lra.
  assert (2 ^ ilog2 q < 2 ^ (e + 1)) as Hb by lra.
  apply Qpower_lt_compat_l_inv in Ha; [ | reflexivity].
  apply Qpower_lt_compat_l_inv in Hb; [ | reflexivity].
  lia.
Qed.

Lemma ilog2_comp (x y : Q) : 0 < x -> x == y -> ilog2 x = ilog2 y.
Proof.
  intros Hx Hxy; apply ilog2_unique; rewrite Hxy;
    apply ilog2_spec; rewrite <- Hxy; exact Hx.
Qed.

Lemma ilog2_mono (x y : Q) : 0 < x -> x <= y -> (ilog2 x <= ilog2 y)%Z.
Proof.
  intros Hx Hxy.
  destruct (ilog2_spec x Hx) as [H1 _].
  destruct (ilog2_spec y ltac:(lra)) as [_ H2].
  assert (2 ^ ilog2 x < 2 ^ (ilog2 y + 1)) as Ha by lra.
  apply Qpower_lt_compat_l_inv in Ha; [lia | reflexivity].
Qed.

(** *** The nearest integer *)
Lemma rne_cases (q : Q) :
  let f := Qfloor q in
  (q - inject_Z f < 1 # 2 /\ rne q = f)
  \/ (1 # 2 < q - inject_Z f /\ rne q = (f + 1)%Z)
  \/ (q - inject_Z f == 1 # 2 /\ Z.even f = true /\ rne q = f)
  \/ (q - inject_Z f == 1 # 2 /\ Z.even f = false /\ rne q = (f + 1)%Z).
Proof.
  intros f; unfold rne; fold f.
  destruct (Qcompare (q - inject_Z f) (1 # 2)) eqn:E.
  - apply Qeq_alt in E.
    destruct (Z.even f) eqn:Ev; [right; right; left | right; right; right]; auto.
  - apply Qlt_alt in E; left; auto.
  - apply Qgt_alt in E; right; left; auto.
Qed.

Lemma floor_bounds (q : Q) : inject_Z (Qfloor q) <= q /\ q < inject_Z (Qfloor q) + 1.
Proof.
  pose proof (Qfloor_le q); pose proof (Qlt_floor q) as H2.
  rewrite inject_Z_plus in H2; change (inject_Z 1) with 1 in H2; lra.
Qed.

Lemma rne_error (q : Q) : Qabs (inject_Z (rne q) - q) <= 1 # 2.
Proof.
  pose proof (floor_bounds q) as Hf.
  apply Qabs_Qle_condition.
  destruct (rne_cases q) as [[H ->] | [[H ->] | [(H & _ & ->) | (H & _ & ->)]]];
    rewrite ?inject_Z_plus; change (inject_Z 1) with 1; lra.
Qed.

Lemma Z_of_Q_lt (a b : Z) : inject_Z a < inject_Z b + 1 -> (a <= b)%Z.
Proof.
  intros H.
  assert (inject_Z a < inject_Z (b + 1)) as H1
    by (rewrite inject_Z_plus; exact H).
  rewrite <- Zlt_Qlt in H1; lia.
Qed.

(** [rne q] is the integer nearest to [q], the even one at a tie. *)
Lemma rne_unique (q : Q) (r : Z) :
  Qabs (inject_Z r - q) < 1 # 2
  \/ (Qabs (inject_Z r - q) == 1 # 2 /\ Z.even r = true) ->
  rne q = r.
Proof.
  pose proof (floor_bounds q) as Hf.
  pose proof (rne_cases q) as Hc; cbv zeta in Hc.
  remember (Qfloor q) as f eqn:Ef; clear Ef.
  intros H.
  assert (Hab : Qabs (inject_Z r - q) <= 1 # 2)
    by (destruct H as [H | [H _]]; lra).
  assert (Hab' := Hab); apply Qabs_Qle_condition in Hab'.
  assert (H1 : (f <= r)%Z) by (apply Z_of_Q_lt; lra).
  assert (H2 : (r <= f + 1)%Z).
  { apply Z_of_Q_lt; rewrite inject_Z_plus; change (inject_Z 1) with 1; lra. }
  destruct (Z.eq_dec r f) as [-> | Hne].
  - destruct Hc as [[Hq ->] | [[Hq E] | [(Hq & _ & ->) | (Hq & Hev & E)]]];
      auto.
    + exfalso; lra.
    + exfalso; destruct H as [H | [H Hev']]; [ | congruence].
      apply Qabs_Qlt_condition in H; lra.
  - assert (r = (f + 1)%Z) as -> by lia.
    rewrite inject_Z_plus in *; change (inject_Z 1) with 1 in *.
    destruct Hc as [[Hq E] | [[Hq ->] | [(Hq & Hev & E) | (Hq & Hev & ->)]]];
      auto.
    + exfalso; lra.
    + exfalso; destruct H as [H | [H Hev']].
      * apply Qabs_Qlt_condition in H; lra.
      * rewrite Z.even_add in Hev'; rewrite Hev in Hev'; discriminate.
Qed.

Lemma rne_spec (q : Q) :
  Qabs (inject_Z (rne q) - q) < 1 # 2
  \/ (Qabs (inject_Z (rne q) - q) == 1 # 2 /\ Z.even (rne q) = true).
Proof.
  pose proof (floor_bounds q) as Hf.
  destruct (rne_cases q) as [[H ->] | [[H ->] | [(H & Hev & ->) | (H & Hev & ->)]]];
    rewrite ?inject_Z_plus; change (inject_Z 1) with 1.
  - left; apply Qabs_Qlt_condition; lra.
  - left; apply Qabs_Qlt_condition; lra.
  - right; split; [ | exact Hev].
    rewrite Qabs_neg by lra. lra.
  - right; split; [ | rewrite Z.even_add, Hev; reflexivity].
    rewrite Qabs_pos by lra. lra.
Qed.

Lemma rne_comp (x y : Q) : x == y -> rne x = rne y.
Proof.
  intros H; apply rne_unique.
  destruct (rne_spec y) as [H1 | [H1 H2]]; [left | right; split; auto];
    rewrite H; exact H1.
Qed.

Lemma rne_Z (z : Z) : rne (inject_Z z) = z.
Proof.
  apply rne_unique; left.
  assert (inject_Z z - inject_Z z == 0) as -> by ring.
  reflexivity.
Qed.

Lemma rne_opp (q : Q) : rne (- q) = (- rne q)%Z.
Proof.
  apply rne_unique.
  assert (E : inject_Z (- rne q) - - q == - (inject_Z (rne q) - q))
    by (rewrite inject_Z_opp; ring).
  destruct (rne_spec q) as [H1 | [H1 H2]]; [left | right; split].
  - rewrite E, Qabs_opp; exact H1.
  - rewrite E, Qabs_opp; exact H1.
  - rewrite Z.even_opp; exact H2.
Qed.

Lemma rne_mono (x y : Q) : x <= y -> (rne x <= rne y)%Z.
Proof.
  intros Hxy.
  pose proof (floor_bounds x) as Hx; pose proof (floor_bounds y) as Hy.
  assert (Hf : (Qfloor x <= Qfloor y)%Z) by (apply Qfloor_resp_le, Hxy).
  destruct (Z.eq_dec (Qfloor x) (Qfloor y)) as [E | E].
  - destruct (rne_cases x) as [[H1 ->] | [[H1 ->] | [(H1 & Hev & ->) | (H1 & Hev & ->)]]];
      destruct (rne_cases y) as [[H2 ->] | [[H2 ->] | [(H2 & Hev' & ->) | (H2 & Hev' & ->)]]];
      rewrite <- ?E in *; try lia; try lra; congruence.
  - assert ((Qfloor x + 1 <= Qfloor y)%Z) by lia.
    destruct (rne_cases x) as [[H1 ->] | [[H1 ->] | [(H1 & Hev & ->) | (H1 & Hev & ->)]]];
      destruct (rne_cases y) as [[H2 ->] | [[H2 ->] | [(H2 & Hev' & ->) | (H2 & Hev' & ->)]]];
      lia.
Qed.

(** *** Rounding to a double *)
Lemma fl_zero (x : Q) : x == 0 -> fl x = 0.
Proof.
  intros H; unfold fl.
  apply Qeq_bool_iff in H; rewrite H; reflexivity.
Qed.

Lemma fl_nonzero (x : Q) :
  ~ x == 0 ->
  fl x == inject_Z (rne (x * 2 ^ (52 - ilog2 (Qabs x))))
          * 2 ^ (ilog2 (Qabs x) - 52).
Proof.
  intros H; unfold fl.
  destruct (Qeq_bool x 0) eqn:E; [apply Qeq_bool_iff in E; contradiction | ].
  apply Qred_correct.
Qed.

Lemma Qabs_pos_lt (x : Q) : ~ x == 0 -> 0 < Qabs x.
Proof.
  intros H; apply Qabs_case; intros; [ | lra].
  destruct (Qlt_le_dec 0 x); [auto | exfalso; apply H; lra].
Qed.

Lemma fl_comp (x y : Q) : x == y -> fl x == fl y.
Proof.
  intros H.
  destruct (Qeq_dec x 0) as [E | E].
  - rewrite (fl_zero x E), (fl_zero y); [reflexivity | rewrite <- H; exact E].
  - assert (E' : ~ y == 0) by (rewrite <- H; exact E).
    rewrite (fl_nonzero x E), (fl_nonzero y E').
    assert (He : ilog2 (Qabs x) = ilog2 (Qabs y)).
    { apply ilog2_comp; [apply Qabs_pos_lt, E | rewrite H; reflexivity]. }
    rewrite He.
    rewrite (rne_comp (x * 2 ^ (52 - ilog2 (Qabs y)))
                      (y * 2 ^ (52 - ilog2 (Qabs y))))
      by (rewrite H; reflexivity).
    reflexivity.
Qed.

#[export] Instance fl_proper : Proper (Qeq ==> Qeq) fl.
Proof. intros x y; apply fl_comp. Qed.

Lemma fl_opp (x : Q) : fl (- x) == - fl x.
Proof.
  destruct (Qeq_dec x 0) as [E | E].
  - rewrite (fl_zero x E), (fl_zero (- x)); [reflexivity | lra].
  - assert (E' : ~ - x == 0) by lra.
    rewrite (fl_nonzero x E), (fl_nonzero (- x) E').
    assert (He : ilog2 (Qabs (- x)) = ilog2 (Qabs x)).
    { apply ilog2_comp; [apply Qabs_pos_lt, E' | apply Qabs_opp]. }
    rewrite He.
    rewrite (rne_comp (- x * 2 ^ (52 - ilog2 (Qabs x)))
                      (- (x * 2 ^ (52 - ilog2 (Qabs x))))) by ring.
    rewrite rne_opp, inject_Z_opp; ring.
Qed.

Lemma fl_pos_eq (x : Q) :
  0 < x ->
  fl x == inject_Z (rne (x * 2 ^ (52 - ilog2 x))) * 2 ^ (ilog2 x - 52).
Proof.
  intros H.
  rewrite (fl_nonzero x) by lra.
  assert (He : ilog2 (Qabs x) = ilog2 x).
  { apply ilog2_comp; [rewrite Qabs_pos; lra | apply Qabs_pos; lra]. }
  rewrite He; reflexivity.
Qed.

Lemma pow2_split (a b : Z) : 2 ^ (a + b) == 2 ^ a * 2 ^ b.
Proof. apply Qpower_plus, two_neq_0. Qed.

Lemma scaled_range (x : Q) :
  0 < x ->
  2 ^ 52 <= x * 2 ^ (52 - ilog2 x) /\ x * 2 ^ (52 - ilog2 x) < 2 ^ 53.
Proof.
  intros Hx; destruct (ilog2_spec x Hx) as [H1 H2].
  set (e := ilog2 x) in *.
  pose proof (pow2_pos (52 - e)) as Hp.
  assert (E1 : 2 ^ 52 == 2 ^ e * 2 ^ (52 - e)).
  { rewrite <- pow2_split; replace (e + (52 - e))%Z with 52%Z by lia; reflexivity. }
  assert (E2 : 2 ^ 53 == 2 ^ (e + 1) * 2 ^ (52 - e)).
  { rewrite <- pow2_split; replace (e + 1 + (52 - e))%Z with 53%Z by lia; reflexivity. }
  split.
  - rewrite E1; apply Qmult_le_compat_r; lra.
  - rewrite E2; apply Qmult_lt_compat_r; lra.
Qed.

Lemma rne_scaled_range (x : Q) :
  0 < x ->
  (2 ^ 52 <= rne (x * 2 ^ (52 - ilog2 x)) <= 2 ^ 53)%Z.
Proof.
  intros Hx; destruct (scaled_range x Hx) as [H1 H2].
  split.
  - rewrite <- (rne_Z (2 ^ 52)); apply rne_mono.
    rewrite <- pow2_Z by lia; exact H1.
  - rewrite <- (rne_Z (2 ^ 53)); apply rne_mono.
    rewrite <- pow2_Z by lia; lra.
Qed.

Lemma fl_pos_bounds (x : Q) :
  0 < x -> 2 ^ ilog2 x <= fl x /\ fl x <= 2 ^ (ilog2 x + 1).
Proof.
  intros Hx; rewrite (fl_pos_eq x Hx).
  destruct (rne_scaled_range x Hx) as [H1 H2].
  set (e := ilog2 x) in *; set (r := rne _) in *.
  pose proof (pow2_pos (e - 52)) as Hp.
  assert (E1 : 2 ^ e == inject_Z (2 ^ 52) * 2 ^ (e - 52)).
  { rewrite <- pow2_Z by lia; rewrite <- pow2_split.
    replace (52 + (e - 52))%Z with e by lia; reflexivity. }
  assert (E2 : 2 ^ (e + 1) == inject_Z (2 ^ 53) * 2 ^ (e - 52)).
  { rewrite <- pow2_Z by lia; rewrite <- pow2_split.
    replace (53 + (e - 52))%Z with (e + 1)%Z by lia; reflexivity. }
  rewrite E1, E2; split; apply Qmult_le_compat_r; try lra;
    rewrite <- Zle_Qle; lia.
Qed.

Lemma fl_pos (x : Q) : 0 < x -> 0 < fl x.
Proof.
  intros Hx; destruct (fl_pos_bounds x Hx) as [H _].
  pose proof (pow2_pos (ilog2 x)); lra.
Qed.

Lemma fl_mono_pos (x y : Q) : 0 < x -> x <= y -> fl x <= fl y.
Proof.
  intros Hx Hxy.
  assert (Hy : 0 < y) by lra.
  pose proof (ilog2_mono x y Hx Hxy) as He.
  destruct (Z.eq_dec (ilog2 x) (ilog2 y)) as [E | E].
  - rewrite (fl_pos_eq x Hx), (fl_pos_eq y Hy), E.
    pose proof (pow2_pos (ilog2 y - 52)).
    pose proof (pow2_pos (52 - ilog2 y)).
    apply Qmult_le_compat_r; [ | lra].
    rewrite <- Zle_Qle; apply rne_mono.
    apply Qmult_le_compat_r; lra.
  - destruct (fl_pos_bounds x Hx) as [_ H1].
    destruct (fl_pos_bounds y Hy) as [H2 _].
    assert (2 ^ (ilog2 x + 1) <= 2 ^ ilog2 y)
      by (apply Qpower_le_compat_l; [lia | lra]).
    lra.
Qed.

Lemma fl_mono (x y : Q) : x <= y -> fl x <= fl y.
Proof.
  intros Hxy.
  destruct (Qlt_le_dec 0 x) as [Hx | Hx].
  - apply fl_mono_pos; assumption.
  - destruct (Qlt_le_dec 0 y) as [Hy | Hy].
    + pose proof (fl_pos y Hy).
      destruct (Qeq_dec x 0) as [E | E]; [rewrite (fl_zero x E); lra | ].
      assert (0 < fl (- x)) by (apply fl_pos; lra).
      rewrite fl_opp in *; lra.
    + destruct (Qeq_dec y 0) as [E | E].
      * rewrite (fl_zero y E).
        destruct (Qeq_dec x 0) as [E' | E']; [rewrite (fl_zero x E'); lra | ].
        assert (0 < fl (- x)) by (apply fl_pos; lra).
        rewrite fl_opp in *; lra.
      * assert (fl (- y) <= fl (- x)) by (apply fl_mono_pos; lra).
        rewrite !fl_opp in *; lra.
Qed.

Lemma fl_error (x : Q) : Qabs (fl x - x) <= 2 ^ (-53) * Qabs x.
Proof.
  assert (Hpos : forall x, 0 < x -> Qabs (fl x - x) <= 2 ^ (-53) * x).
  { clear x; intros x Hx.
    rewrite (fl_pos_eq x Hx).
    destruct (ilog2_spec x Hx) as [H1 _].
    set (e := ilog2 x) in *.
    pose proof (rne_error (x * 2 ^ (52 - e))) as Hr.
    set (r := rne _) in *.
    pose proof (pow2_pos (e - 52)) as Hp.
    assert (E : inject_Z r * 2 ^ (e - 52) - x
                == (inject_Z r - x * 2 ^ (52 - e)) * 2 ^ (e - 52)).
    { assert (2 ^ (52 - e) * 2 ^ (e - 52) == 1) as H.
      { rewrite <- pow2_split; replace (52 - e + (e - 52))%Z with 0%Z by lia.
        reflexivity. }
      transitivity (inject_Z r * 2 ^ (e - 52) - x * (2 ^ (52 - e) * 2 ^ (e - 52)));
        [rewrite H; ring | ring]. }
    rewrite E, Qabs_Qmult, (Qabs_pos (2 ^ (e - 52))) by lra.
    assert (E2 : 2 ^ (-53) * 2 ^ e == (1 # 2) * 2 ^ (e - 52)).
    { rewrite <- pow2_split.
      replace (-53 + e)%Z with ((e - 52) + -1)%Z by lia.
      rewrite pow2_split; change (2 ^ (-1)) with (1 # 2); ring. }
    assert (Qabs (inject_Z r - x * 2 ^ (52 - e)) * 2 ^ (e - 52)
            <= (1 # 2) * 2 ^ (e - 52))
      by (apply Qmult_le_compat_r; lra).
    assert (2 ^ (-53) * 2 ^ e <= 2 ^ (-53) * x).
    { rewrite !(Qmult_comm (2 ^ (-53))); apply Qmult_le_compat_r; [lra | ].
      pose proof (pow2_pos (-53)); lra. }
    lra. }
  destruct (Qlt_le_dec 0 x) as [Hx | Hx].
  - rewrite (Qabs_pos x) by lra; apply Hpos, Hx.
  - destruct (Qeq_dec x 0) as [E | E].
    + rewrite (fl_zero x E), E; vm_compute; discriminate.
    + specialize (Hpos (- x) ltac:(lra)).
      rewrite fl_opp in Hpos.
      assert (- fl x - - x == - (fl x - x)) as E1 by ring.
      rewrite E1, Qabs_opp in Hpos.
      rewrite (Qabs_neg x) by lra; exact Hpos.
Qed.

Lemma fl_exact_lt (m k : Z) :
  (Z.abs m < 2 ^ 53)%Z -> fl (inject_Z m * 2 ^ k) == inject_Z m * 2 ^ k.
Proof.
  assert (Hpos : forall m, (0 < m < 2 ^ 53)%Z ->
                           fl (inject_Z m * 2 ^ k) == inject_Z m * 2 ^ k).
  { clear m; intros m Hm.
    pose proof (pow2_pos k) as Hk.
    assert (Hm0 : 0 < inject_Z m)
      by (change 0 with (inject_Z 0); rewrite <- Zlt_Qlt; lia).
    assert (Hx : 0 < inject_Z m * 2 ^ k) by (apply Qmult_lt_0_compat; lra).
    rewrite (fl_pos_eq _ Hx).
    destruct (ilog2_spec _ Hx) as [H1 _].
    set (e := ilog2 _) in *.
    assert (He : (e - k < 53)%Z).
    { assert (inject_Z m * 2 ^ k < 2 ^ 53 * 2 ^ k).
      { apply Qmult_lt_compat_r; [lra | ].
        rewrite pow2_Z by lia; rewrite <- Zlt_Qlt; lia. }
      assert (2 ^ e < 2 ^ (53 + k)) as Ha by (rewrite pow2_split; lra).
      apply Qpower_lt_compat_l_inv in Ha; [lia | reflexivity]. }
    assert (Hs : inject_Z m * 2 ^ k * 2 ^ (52 - e)
                 == inject_Z (m * 2 ^ (k + 52 - e))).
    { rewrite inject_Z_mult, <- pow2_Z by lia.
      replace (k + 52 - e)%Z with (k + (52 - e))%Z by lia.
      rewrite pow2_split; ring. }
    rewrite (rne_comp _ _ Hs), rne_Z, inject_Z_mult, <- pow2_Z by lia.
    rewrite <- Qmult_assoc, <- pow2_split.
    replace (k + 52 - e + (e - 52))%Z with k by lia; reflexivity. }
  intros Hm.
  destruct (Z.lt_trichotomy m 0) as [Hlt | [-> | Hgt]].
  - specialize (Hpos (- m)%Z ltac:(lia)).
    rewrite inject_Z_opp in Hpos.
    assert (E : - inject_Z m * 2 ^ k == - (inject_Z m * 2 ^ k)) by ring.
    rewrite E, fl_opp in Hpos; lra.
  - rewrite fl_zero by ring; ring.
  - apply Hpos; lia.
Qed.

Lemma fl_exact (m k : Z) :
  (Z.abs m <= 2 ^ 53)%Z -> fl (inject_Z m * 2 ^ k) == inject_Z m * 2 ^ k.
Proof.
  intros Hm.
  destruct (Z.eq_dec (Z.abs m) (2 ^ 53)) as [E | E].
  - assert (Hx : inject_Z m * 2 ^ k == inject_Z (m / 2) * 2 ^ (k + 1)).
    { rewrite pow2_S.
      assert (m = (2 * (m / 2))%Z) as Hm2.
      { assert (m = 2 ^ 53 \/ m = - 2 ^ 53)%Z as [-> | ->] by lia; reflexivity. }
      rewrite Hm2 at 1; rewrite inject_Z_mult; change (inject_Z 2) with 2; ring. }
    rewrite Hx; apply fl_exact_lt.
    assert (m = 2 ^ 53 \/ m = - 2 ^ 53)%Z as [-> | ->] by lia; reflexivity.
  - apply fl_exact_lt; lia.
Qed.


Lemma fl_idem (x : Q) : fl (fl x) == fl x.
Proof.
  destruct (Qeq_dec x 0) as [E | E].
  - rewrite (fl_zero x E), fl_zero; reflexivity.
  - assert (Hpos : forall x, 0 < x -> fl (fl x) == fl x).
    { clear x E; intros x Hx.
      rewrite (fl_pos_eq x Hx) at 2.
      rewrite (fl_comp _ _ (fl_pos_eq x Hx)).
      apply fl_exact.
      destruct (rne_scaled_range x Hx); lia. }
    destruct (Qlt_le_dec 0 x) as [Hx | Hx]; [apply Hpos, Hx | ].
    specialize (Hpos (- x) ltac:(lra)).
    rewrite (fl_comp _ _ (fl_opp x)), fl_opp in Hpos.
    rewrite fl_opp in Hpos; lra.
Qed.

(** The unit roundoff, [2 ^ (-53)]. *)
Abbreviation u53 := (1 # 9007199254740992).

Lemma fl_error_u (x : Q) : Qabs (fl x - x) <= u53 * Qabs x.
Proof. exact (fl_error x). Qed.

Lemma fl_error_nonneg (x : Q) :
  0 <= x -> 0 <= fl x /\ x - u53 * x <= fl x /\ fl x <= x + u53 * x.
Proof.
  intros Hx.
  pose proof (fl_error_u x) as H; rewrite (Qabs_pos x) in H by exact Hx.
  apply Qabs_Qle_condition in H.
  pose proof (fl_mono 0 x Hx) as H0; rewrite (fl_zero 0) in H0 by reflexivity.
  lra.
Qed.

Lemma fl_half : fl (1 # 2) == 1 # 2.
Proof. vm_compute; reflexivity. Qed.

Lemma fl_one : fl 1 == 1.
Proof. vm_compute; reflexivity. Qed.

Lemma fl_le (x y : Q) : representable y -> x <= y -> fl x <= y.
Proof.
  unfold representable; intros Hy Hxy.
  apply Qle_trans with (fl y); [apply fl_mono, Hxy | ].
  rewrite Hy; apply Qle_refl.
Qed.

Lemma fl_ge (x y : Q) : representable x -> x <= y -> x <= fl y.
Proof.
  unfold representable; intros Hx Hxy.
  apply Qle_trans with (fl x); [ | apply fl_mono, Hxy].
  rewrite Hx; apply Qle_refl.
Qed.

Lemma mul_bounds (x t c : Q) :
  0 <= x -> 0 <= t <= c -> 0 <= x * t /\ x * t <= x * c.
Proof.
  intros Hx [H0 Hc]; split.
  - apply Qmult_le_0_compat; assumption.
  - rewrite !(Qmult_comm x); apply Qmult_le_compat_r; assumption.
Qed.




(** *** Comparisons *)

Lemma Qgtb_true (x y : Q) : Qgtb x y = true <-> y < x.
Proof.
  unfold Qgtb; rewrite negb_true_iff.
  destruct (Qle_bool x y) eqn:E.
  - apply Qle_bool_iff in E; split; [discriminate | lra].
  - split; [intros _ | reflexivity].
    apply Qnot_le_lt; intros H; apply Qle_bool_iff in H; congruence.
Qed.

Lemma Qgtb_false (x y : Q) : Qgtb x y = false <-> x <= y.
Proof.
  unfold Qgtb; rewrite negb_false_iff; apply Qle_bool_iff.
Qed.

Lemma Qltb_true (x y : Q) : Qltb x y = true <-> x < y.
Proof. apply (Qgtb_true y x). Qed.

Lemma Qltb_false (x y : Q) : Qltb x y = false <-> y <= x.
Proof. apply (Qgtb_false y x). Qed.

Lemma clip_bounds (lo hi x : Q) : lo <= hi -> lo <= clip lo hi x <= hi.
Proof.
  intros H; unfold clip.
  destruct (Qltb x lo) eqn:E1; [lra | ].
  apply Qltb_false in E1.
  destruct (Qltb hi x) eqn:E2; [lra | ].
  apply Qltb_false in E2; lra.
Qed.

Lemma fclip_in_unit (x : fnum) : x <> NaN -> in_unit (fclip 0 1 x).
Proof.
  destruct x; simpl; try lra; [ | congruence ].
  intros _; apply clip_bounds; lra.
Qed.

Lemma fcompl_in_unit (x : fnum) : in_unit x -> in_unit (fcompl x).
Proof. destruct x; simpl; lra. Qed.

Lemma fadd_fcompl (x : fnum) : in_unit x -> feq (fadd (fcompl x) x) (Fin 1).
Proof. destruct x; simpl; try tauto; intros _; ring. Qed.

(** *** Sums *)

Lemma sumQ_cons (x : Q) (l : list Q) : sumQ (x :: l) = x + sumQ l.
Proof. reflexivity. Qed.

Lemma sumQ_app (l1 l2 : list Q) : sumQ (l1 ++ l2) == sumQ l1 + sumQ l2.
Proof.
  induction l1 as [ | x l1 IH]; simpl; [ring | ].
  rewrite IH; ring.
Qed.

Lemma sumQ_map_ext {A : Type} (f g : A -> Q) (l : list A) :
  (forall x, In x l -> f x == g x) -> sumQ (map f l) == sumQ (map g l).
Proof.
  induction l as [ | x l IH]; simpl; intros H; [reflexivity | ].
  rewrite (H x (or_introl eq_refl)), IH; [reflexivity | ].
  intros y Hy; apply H; right; exact Hy.
Qed.

Lemma sumQ_map_plus {A : Type} (f g : A -> Q) (l : list A) :
  sumQ (map (fun x => f x + g x) l) == sumQ (map f l) + sumQ (map g l).
Proof.
  induction l as [ | x l IH]; simpl; [ring | rewrite IH; ring].
Qed.

Lemma sumQ_map_scal {A : Type} (c : Q) (f : A -> Q) (l : list A) :
  sumQ (map (fun x => c * f x) l) == c * sumQ (map f l).
Proof.
  induction l as [ | x l IH]; simpl; [ring | rewrite IH; ring].
Qed.

Lemma sumQ_nonneg (l : list Q) : Forall (fun x => 0 <= x) l -> 0 <= sumQ l.
Proof.
  induction 1 as [ | x l Hx _ IH]; simpl; lra.
Qed.

(** *** The binomial distribution *)

Lemma choose_0 (n : nat) : choose n 0 = 1%nat.
Proof. destruct n; reflexivity. Qed.

Lemma choose_above (n k : nat) : (n < k)%nat -> choose n k = 0%nat.
Proof.
  revert k; induction n as [ | n IH]; intros [ | k] H; simpl; try lia.
  rewrite !IH by lia; reflexivity.
Qed.

Lemma Qpow_nonneg (x : Q) (n : nat) : 0 <= x -> 0 <= Qpow x n.
Proof.
  intros H; induction n as [ | n IH]; simpl; [lra | ].
  apply Qmult_le_0_compat; assumption.
Qed.

Lemma inject_nat_nonneg (n : nat) : 0 <= inject_Z (Z.of_nat n).
Proof.
  change 0 with (inject_Z 0); rewrite <- Zle_Qle; lia.
Qed.

Lemma binom_pmf_nonneg (n : nat) (p : Q) (i : nat) :
  0 <= p <= 1 -> 0 <= binom_pmf n p i.
Proof.
  intros H; unfold binom_pmf.
  repeat apply Qmult_le_0_compat.
  - apply inject_nat_nonneg.
  - apply Qpow_nonneg; lra.
  - apply Qpow_nonneg; lra.
Qed.

Lemma term_last (a b : Q) (n : nat) : term a b n (S n) == 0.
Proof.
  unfold term; rewrite choose_above by lia; simpl; ring.
Qed.

Lemma term_pascal (a b : Q) (n i : nat) :
  term a b (S n) (S i) == a * term a b n i + term a b n (S i) * Qpow b (n - i - (n - S i)).
Proof.
  unfold term; simpl choose.
  rewrite Nat2Z.inj_add, inject_Z_plus; simpl Qpow; simpl Nat.sub.
  destruct (Nat.le_gt_cases n i) as [Hle | Hlt].
  - rewrite (choose_above n (S i)) by lia; simpl; ring.
  - replace (n - i)%nat with (S (n - S i)) by lia.
    replace (S (n - S i) - (n - S i))%nat with 1%nat by lia.
    simpl; ring.
Qed.

Lemma binomial_theorem (a b : Q) (n : nat) :
  sumQ (map (term a b n) (seq 0 (S n))) == Qpow (a + b) n.
Proof.
  induction n as [ | n IH].
  - simpl; unfold term; simpl; ring.
  - change (seq 0 (S (S n))) with (0%nat :: seq 1 (S n)).
    rewrite <- seq_shift, map_cons, map_map, sumQ_cons.
    rewrite (sumQ_map_ext _ (fun i => a * term a b n i
                 + term a b n (S i) * Qpow b (n - i - (n - S i)))).
    2: { intros i _; apply term_pascal. }
    rewrite sumQ_map_plus, sumQ_map_scal, IH.
    assert (Hb : term a b (S n) 0
                 + sumQ (map (fun i => term a b n (S i)
                                       * Qpow b (n - i - (n - S i)))
                             (seq 0 (S n)))
                 == b * sumQ (map (term a b n) (seq 0 (S n)))).
    { rewrite <- sumQ_map_scal.
      transitivity (sumQ (map (fun i => b * term a b n i) (seq 0 (S (S n))))).
      - change (seq 0 (S (S n))) with (0%nat :: seq 1 (S n)).
        rewrite <- seq_shift, map_cons, map_map, sumQ_cons.
        apply Qplus_comp.
        + unfold term; rewrite !choose_0, !Nat.sub_0_r; simpl; ring.
        + apply sumQ_map_ext; intros i Hi; apply in_seq in Hi.
          destruct (Nat.eq_dec i n) as [-> | Hne].
          * rewrite term_last; ring.
          * replace (n - i - (n - S i))%nat with 1%nat by lia.
            simpl; ring.
      - rewrite (seq_S (S n)), map_app, sumQ_app; simpl.
        rewrite term_last; ring. }
    rewrite IH in Hb; simpl Qpow.
    match goal with
    | |- ?t0 + (?x + ?u) == _ => transitivity (x + (t0 + u)); [ring | ]
    end.
    rewrite Hb; ring.
Qed.

Lemma binom_pmf_total (n : nat) (p : Q) :
  sumQ (map (binom_pmf n p) (seq 0 (S n))) == 1.
Proof.
  change (binom_pmf n p) with (term p (1 - p) n).
  rewrite binomial_theorem.
  assert (H : forall x, x == 1 -> Qpow x n == 1).
  { intros x Hx; induction n as [ | m IH]; simpl; [reflexivity | ].
    rewrite IH, Hx; ring. }
  apply H; ring.
Qed.

Lemma binom_cdf_bounds (k : Z) (n : nat) (p : Q) :
  0 <= p <= 1 -> 0 <= binom_cdf k n p <= 1.
Proof.
  intros Hp; unfold binom_cdf.
  destruct (k <? 0)%Z; [lra | ].
  set (m := Nat.min (Z.to_nat k) n).
  assert (Hm : (m <= n)%nat) by (unfold m; lia).
  pose proof (binom_pmf_total n p) as Htot.
  replace (S n) with (S m + (n - m))%nat in Htot by lia.
  rewrite seq_app, map_app, sumQ_app in Htot.
  assert (Hnn : forall l, 0 <= sumQ (map (binom_pmf n p) l)).
  { intros l; apply sumQ_nonneg, Forall_forall; intros x Hx.
    apply in_map_iff in Hx as (i & <- & _); apply binom_pmf_nonneg, Hp. }
  pose proof (Hnn (seq 0 (S m))); pose proof (Hnn (seq (0 + S m) (n - m))).
  lra.
Qed.

End NumFacts.

Module LibFacts.
Import Num Lib NumFacts.

Lemma int_of_float_floor (x : Q) : 0 <= x -> int_of_float x = Qfloor x.
Proof.
  destruct x as [a b]; unfold Qle, int_of_float, Qfloor; simpl.
  intros H; apply Z.quot_div_nonneg; lia.
Qed.

Lemma count_nonzero_map {A : Type} (f : A -> bool) (l : list A) :
  count_nonzero (map f l) = Z.of_nat (List.length (filter f l)).
Proof.
  unfold count_nonzero; f_equal.
  induction l as [ | x l IH]; simpl; [reflexivity | ].
  destruct (f x); simpl; congruence.
Qed.

Lemma count_le_length {A : Type} (f : A -> bool) (l : list A) :
  (List.length (filter f l) <= List.length l)%nat.
Proof.
  induction l as [ | x l IH]; simpl; [lia | destruct (f x); simpl; lia].
Qed.

(** [np.place] with the values taken from the masked positions themselves
    acts position by position. *)
Lemma place_from_compress {A : Type} (f : A -> A) (arr : list A) :
  forall (mask : list bool) (vals : list A),
    List.length mask = List.length arr ->
    place_from arr mask (map f (compress mask arr)) vals
    = map (fun xm : A * bool => if snd xm then f (fst xm) else fst xm) (combine arr mask).
Proof.
  induction arr as [ | x arr IH]; intros [ | m mask] vals Hlen;
    simpl in *; try discriminate; [reflexivity | ].
  destruct m; simpl; rewrite IH by lia; reflexivity.
Qed.

Lemma compress_nil {A : Type} (arr : list A) :
  forall mask : list bool,
    List.length mask = List.length arr ->
    compress mask arr = [] ->
    existsb (fun b => b) mask = false
    /\ map (fun xm : A * bool => fst xm) (combine arr mask) = arr.
Proof.
  induction arr as [ | x arr IH]; intros [ | m mask] Hlen Hc;
    simpl in *; try discriminate; [split; reflexivity | ].
  destruct m; [discriminate | ].
  destruct (IH mask ltac:(lia) Hc) as [-> ->]; split; reflexivity.
Qed.

Lemma place_compress {A : Type} (f : A -> A) (arr : list A) (mask : list bool) :
  List.length mask = List.length arr ->
  place arr mask (map f (compress mask arr))
  = Ok (map (fun xm : A * bool => if snd xm then f (fst xm) else fst xm)
            (combine arr mask)).
Proof.
  intros Hlen; unfold place.
  destruct (map f (compress mask arr)) as [ | v vals] eqn:E.
  - apply map_eq_nil in E.
    destruct (compress_nil arr mask Hlen E) as [Hex Hid].
    rewrite Hex; f_equal.
    rewrite <- Hid at 1; apply map_ext_in.
    intros [x m] Hin; simpl.
    destruct m; [ | reflexivity].
    exfalso; apply in_combine_r in Hin.
    assert (existsb (fun b => b) mask = true)
      by (apply existsb_exists; exists true; auto).
    congruence.
  - rewrite <- E, place_from_compress by assumption; reflexivity.
Qed.

Lemma vectorize_cons {A B : Type} (f : A -> B) (xs : list A) :
  xs <> [] -> vectorize f xs = Ok (map f xs).
Proof. destruct xs; [congruence | reflexivity]. Qed.

(** *** Order statistics *)









(** *** The percentile *)

Lemma percentile_ok (a : list Q) (q : Q) :
  a <> [] -> 0 <= q <= 100 -> exists v, percentile a q = Ok v.
Proof.
  intros Ha [H0 H100]; unfold percentile.
  apply Qltb_false in H0; apply Qltb_false in H100.
  rewrite H0, H100; simpl.
  destruct a; [congruence | eexists; reflexivity].
Qed.





(** *** The argument [100 * (1 - contamination)] *)

Lemma percentile_arg_range (c : Q) :
  0 < c <= 1 # 2 -> 50 <= fl (100 * fl (1 - c)) <= 100.
Proof.
  intros Hc.
  assert (H1 : (1 # 2) <= fl (1 - c) <= 1).
  { split; [apply fl_ge | apply fl_le]; try lra;
      [exact fl_half | exact fl_one]. }
  assert (E50 : fl 50 == 50) by (vm_compute; reflexivity).
  assert (E100 : fl 100 == 100) by (vm_compute; reflexivity).
  split; [apply fl_ge | apply fl_le]; try lra; assumption.
Qed.


(** *** The exact percentile *)



End LibFacts.

(** ** The detector *)

Module DetectorFacts.
Import Num Lib NumFacts LibFacts Detector.

Section Facts.

Context {Graph Model : Type}.
Variable decision_function : @Detector.t Model -> Graph -> list Q.
Variable erf : Q -> Q.
Variable sqrt : Q -> Q.

Abbreviation predict := (Detector.predict decision_function).
Abbreviation predict_confidence := (Detector.predict_confidence decision_function).
Abbreviation predict_proba := (Detector.predict_proba decision_function erf sqrt).
Abbreviation _process_decision_scores := (Detector._process_decision_scores sqrt).
Abbreviation std := (Detector.std sqrt).
Abbreviation ferf := (Detector.ferf erf).
Abbreviation processed := (Detector.processed sqrt).
Abbreviation unify_probability := (Detector.unify_probability erf sqrt).

(** *** Runs of methods *)

Lemma bind_ok {A B : Type} (m : M A) (k : A -> @M Model B) self a self' :
  m self = (Ok a, self') -> bind m k self = k a self'.
Proof. unfold bind; intros ->; reflexivity. Qed.

Lemma bind_err {A B : Type} (m : M A) (k : A -> @M Model B) self e self' :
  m self = (Err e, self') -> bind m k self = (Err e, self').
Proof. unfold bind; intros ->; reflexivity. Qed.

Lemma read_only_bind {A B : Type} (m : M A) (k : A -> @M Model B) :
  read_only m -> (forall a, read_only (k a)) -> read_only (bind m k).
Proof.
  intros Hm Hk self; unfold bind.
  specialize (Hm self); destruct (m self) as [[a | e] self']; simpl in *; subst.
  - apply Hk.
  - reflexivity.
Qed.

Lemma read_only_getattr {A : Type} name (field : @t Model -> option A) :
  read_only (getattr name field).
Proof. intros self; unfold getattr; destruct (field self); reflexivity. Qed.

Lemma read_only_check_is_fitted : read_only (@check_is_fitted Model).
Proof.
  intros self; unfold check_is_fitted.
  destruct (_ && _); reflexivity.
Qed.

Lemma read_only_read {A : Type} (f : @t Model -> A) :
  read_only (fun self => (Ok (f self), self)).
Proof. intros self; reflexivity. Qed.

Ltac read_only_tac :=
  repeat first
    [ apply read_only_bind; [ | intros ? ]
    | apply read_only_check_is_fitted
    | apply read_only_getattr
    | apply read_only_read
    | (intros ?; reflexivity)
    | match goal with |- read_only (if ?b then _ else _) => destruct b end ].

Lemma predict_confidence_read_only G : read_only (predict_confidence G).
Proof. unfold Detector.predict_confidence; read_only_tac. Qed.



Lemma check_is_fitted_ok (d : @t Model) :
  fitted d -> check_is_fitted d = (Ok tt, d).
Proof.
  intros (H1 & H2 & H3); unfold check_is_fitted.
  destruct (decision_scores_ d), (threshold_ d), (labels_ d);
    try congruence; reflexivity.
Qed.

Lemma check_is_fitted_err (d : @t Model) :
  decision_scores_ d = None \/ threshold_ d = None \/ labels_ d = None ->
  check_is_fitted d = (Err NotFittedError, d).
Proof.
  unfold check_is_fitted; intros [-> | [-> | ->]]; simpl;
    rewrite ?andb_false_r; reflexivity.
Qed.

(** A constructed detector has its contamination in (0, 0.5]. *)
Lemma init_contamination (c : Q) (model : Model) (d : @t Model) :
  __init__ c model = Ok d -> 0 < contamination d <= 1 # 2.
Proof.
  unfold __init__.
  destruct (Qltb 0 c && Qle_bool c (1 # 2)) eqn:E; simpl; [ | discriminate].
  intros [= <-]; simpl.
  apply andb_true_iff in E as [E1 E2].
  apply Qltb_true in E1; apply Qle_bool_iff in E2; split; assumption.
Qed.

(** *** Labels *)

Lemma above_length thr scores : List.length (above thr scores) = List.length scores.
Proof. apply length_map. Qed.

Lemma above_nth thr scores i s :
  nth_error scores i = Some s ->
  exists l, nth_error (above thr scores) i = Some l
            /\ (thr < s -> l = 1%Z) /\ (s <= thr -> l = 0%Z).
Proof.
  intros H; unfold above; rewrite nth_error_map, H; simpl.
  eexists; split; [reflexivity | ].
  destruct (Qgtb s thr) eqn:E.
  - apply Qgtb_true in E; split; [reflexivity | lra].
  - apply Qgtb_false in E; split; [lra | reflexivity].
Qed.

(** *** Confidence *)

Lemma posterior_in_unit (train : list Q) (x : Q) :
  0 <= ConfidenceSpec.p train x <= 1.
Proof.
  unfold ConfidenceSpec.p, ConfidenceSpec.k.
  pose proof (count_le_length (fun s => Qle_bool s x) train) as Hle.
  set (kk := List.length (filter _ train)) in *.
  set (n := List.length train) in *.
  assert (Hk : 0 <= inject_Z (Z.of_nat kk)) by apply inject_nat_nonneg.
  assert (Hkn : inject_Z (Z.of_nat kk) <= inject_Z (Z.of_nat n))
    by (rewrite <- Zle_Qle; lia).
  assert (Hpos : 0 < 2 + inject_Z (Z.of_nat n)) by lra.
  split.
  - apply Qle_shift_div_l; [exact Hpos | lra].
  - apply Qle_shift_div_r; [exact Hpos | lra].
Qed.

(** The product [n * contamination], rounded, stays within [0, n]. *)
Lemma rounded_product_range (n : nat) (c : Q) :
  0 < c <= 1 # 2 ->
  0 <= fl (inject_Z (Z.of_nat n) * c)
  /\ (0 <= Qfloor (fl (inject_Z (Z.of_nat n) * c)) <= Z.of_nat n)%Z.
Proof.
  intros Hc.
  pose proof (inject_nat_nonneg n) as HN.
  destruct (mul_bounds (inject_Z (Z.of_nat n)) c (1 # 2) HN ltac:(lra))
    as [H0 H1].
  destruct (fl_error_nonneg _ H0) as (Hf0 & _ & Hf1).
  split_and!; [exact Hf0 | | ].
  - change 0%Z with (Qfloor 0); apply Qfloor_resp_le, Hf0.
  - assert (Hle : fl (inject_Z (Z.of_nat n) * c) <= inject_Z (Z.of_nat n))
      by lra.
    apply Qfloor_resp_le in Hle; rewrite Qfloor_Z in Hle; exact Hle.
Qed.

Lemma binom_cdf_BinomCDF (m : Z) (n : nat) (p : Q) :
  (0 <= m <= Z.of_nat n)%Z -> binom_cdf m n p = ConfidenceSpec.BinomCDF m n p.
Proof.
  intros Hm; unfold binom_cdf, ConfidenceSpec.BinomCDF.
  assert (E : (m <? 0)%Z = false) by (apply Z.ltb_ge; lia).
  rewrite E, Nat.min_l by lia; reflexivity.
Qed.

Lemma predict_confidence_run (d : @t Model) G train thr :
  decision_scores_ d = Some train ->
  threshold_ d = Some thr ->
  labels_ d <> None ->
  decision_function d G <> [] ->
  predict_confidence G d
  = (Ok (map (confidence_of train (contamination d) thr)
             (decision_function d G)), d).
Proof.
  intros Hs Ht Hl Hne.
  unfold Detector.predict_confidence.
  rewrite (bind_ok _ _ d tt d)
    by (apply check_is_fitted_ok; repeat split; congruence).
  unfold bind, getattr, lift; rewrite Hs, Ht.
  rewrite !vectorize_cons; try (intros E; repeat apply map_eq_nil in E; auto).
  rewrite place_compress by (unfold above; rewrite !length_map; reflexivity).
  f_equal; f_equal.
  rewrite !map_map.
  set (scores := decision_function d G).
  clearbody scores; clear Hne.
  induction scores as [ | x scores IH]; simpl; [reflexivity | ].
  rewrite IH; f_equal.
  unfold confidence_of, ConfidenceSpec.p, ConfidenceSpec.k.
  rewrite count_nonzero_map.
  destruct (Qgtb x thr); reflexivity.
Qed.

(** The code's value is the one of the design document once the product
    [n * contamination] is read as the rounded product. *)
Lemma confidence_of_reported train c thr x :
  0 < c <= 1 # 2 ->
  confidence_of train c thr x
  = ConfidenceSpec.reported (ConfidenceSpec.m_double (List.length train) c)
      train thr x.
Proof.
  intros Hc.
  destruct (rounded_product_range (List.length train) c Hc) as (H0 & Hf).
  unfold confidence_of, ConfidenceSpec.reported, ConfidenceSpec.c,
    ConfidenceSpec.m_double.
  rewrite int_of_float_floor by exact H0.
  rewrite binom_cdf_BinomCDF by lia; reflexivity.
Qed.

Lemma reported_in_unit train c thr x :
  0 < c <= 1 # 2 ->
  0 <= ConfidenceSpec.reported (ConfidenceSpec.m_double (List.length train) c)
         train thr x <= 1.
Proof.
  intros Hc.
  destruct (rounded_product_range (List.length train) c Hc) as (H0 & Hf).
  unfold ConfidenceSpec.reported, ConfidenceSpec.c, ConfidenceSpec.m_double.
  rewrite <- binom_cdf_BinomCDF by lia.
  pose proof (binom_cdf_bounds
                (Z.of_nat (List.length train)
                 - Qfloor (fl (inject_Z (Z.of_nat (List.length train)) * c)))
                (List.length train) _ (posterior_in_unit train x)).
  destruct (Qgtb x thr); lra.
Qed.

(** C3: on a fitted detector, [predict_confidence] maps every test score [x]
    of the graph, in node order, to the confidence built from
    [k x] (training scores at most [x]), [p x = (1 + k x) / (2 + n)],
    [m = n - floor (n * contamination)], the product being the double the
    machine computes, and [c x = 1 - BinomCDF (m; n, p x)]: [c x] when
    [x > threshold_] and [1 - c x] otherwise; every value lies in
    [0, 1]. *)
Theorem predict_confidence_spec (d : @t Model) G train thr :
  decision_scores_ d = Some train ->
  threshold_ d = Some thr ->
  labels_ d <> None ->
  0 < contamination d <= 1 # 2 ->
  decision_function d G <> [] ->
  let scores := decision_function d G in
  let m := ConfidenceSpec.m_double (List.length train) (contamination d) in
  let out := map (ConfidenceSpec.reported m train thr) scores in
  predict_confidence G d = (Ok out, d)
  /\ Forall (fun v => 0 <= v <= 1) out
  /\ List.length out = List.length scores
  /\ (forall i x, nth_error scores i = Some x ->
        nth_error out i = Some (ConfidenceSpec.reported m train thr x)).
Proof.
  intros Hs Ht Hl Hc Hne scores m out; split_and!.
  - rewrite (predict_confidence_run d G train thr) by assumption.
    f_equal; f_equal; apply map_ext; intros x.
    apply confidence_of_reported, Hc.
  - apply Forall_forall; intros v Hv.
    apply in_map_iff in Hv as (x & <- & _); apply reported_in_unit, Hc.
  - apply length_map.
  - intros i x Hx; unfold out; rewrite nth_error_map, Hx; reflexivity.
Qed.

(** C2: on a fitted detector, [predict] labels node [i] with 1 exactly when
    its score strictly exceeds [threshold_] (a score equal to the threshold
    gets 0), one label per node; without [return_confidence] the labels are
    returned alone, with it they are paired with the result of
    [predict_confidence], whose failure is passed on: the pair is returned
    on every graph with at least one node, and on a graph without nodes the
    call raises the [ValueError] of [np.vectorize]. *)
Theorem predict_spec (d : @t Model) G thr :
  fitted d ->
  threshold_ d = Some thr ->
  let scores := decision_function d G in
  let labels := above thr scores in
  predict G false d = (Ok (Alone labels), d)
  /\ predict G true d
     = (match fst (predict_confidence G d) with
        | Ok confidence => Ok (WithConfidence labels confidence)
        | Err e => Err e
        end, d)
  /\ (scores <> [] ->
      exists confidence,
        predict_confidence G d = (Ok confidence, d)
        /\ predict G true d = (Ok (WithConfidence labels confidence), d))
  /\ (scores = [] ->
      predict G true d
      = (Err (ValueError
                ["cannot call `vectorize` on size 0 inputs unless `otypes` is set"%string]),
         d))
  /\ List.length labels = List.length scores
  /\ (forall i s, nth_error scores i = Some s ->
        exists l, nth_error labels i = Some l
                  /\ (thr < s -> l = 1%Z) /\ (s <= thr -> l = 0%Z)).
Proof.
  intros Hf Ht scores labels.
  assert (Hrun : forall rc, predict G rc d
            = (if rc then
                 bind (predict_confidence G)
                      (fun c => ret (WithConfidence labels c))
               else ret (Alone labels)) d).
  { intros rc; unfold Detector.predict.
    rewrite (bind_ok _ _ d tt d) by (apply check_is_fitted_ok, Hf).
    unfold bind at 1 2, getattr; rewrite Ht; reflexivity. }
  assert (Htrue : predict G true d
     = (match fst (predict_confidence G d) with
        | Ok confidence => Ok (WithConfidence labels confidence)
        | Err e => Err e
        end, d)).
  { rewrite Hrun; unfold bind, ret.
    pose proof (predict_confidence_read_only G d) as Hro.
    destruct (predict_confidence G d) as [[c | e] d']; simpl in *; subst;
      reflexivity. }
  split_and!.
  - rewrite Hrun; reflexivity.
  - exact Htrue.
  - intros Hne.
    destruct Hf as (Hs & _ & Hl).
    destruct (decision_scores_ d) as [train | ] eqn:Es; [ | congruence].
    eexists; split.
    + apply (predict_confidence_run d G train thr); auto.
    + rewrite Htrue, (predict_confidence_run d G train thr) by auto.
      reflexivity.
  - intros Hnil; rewrite Htrue.
    unfold Detector.predict_confidence.
    rewrite (bind_ok _ _ d tt d) by (apply check_is_fitted_ok, Hf).
    destruct Hf as (Hs & _).
    destruct (decision_scores_ d) as [train | ] eqn:Es; [ | congruence].
    unfold bind, getattr, lift; rewrite Es.
    fold scores; rewrite Hnil; reflexivity.
  - apply above_length.
  - intros i s; apply above_nth.
Qed.

(** C6: on a detector lacking one of [decision_scores_], [threshold_],
    [labels_], each of [predict], [predict_proba] and [predict_confidence]
    raises the not-fitted error and leaves the detector as it was. *)
Theorem unfitted_calls_fail (d : @t Model) G :
  decision_scores_ d = None \/ threshold_ d = None \/ labels_ d = None ->
  (forall rc, predict G rc d = (Err NotFittedError, d))
  /\ (forall method rc, predict_proba G method rc d = (Err NotFittedError, d))
  /\ predict_confidence G d = (Err NotFittedError, d).
Proof.
  intros H; apply check_is_fitted_err in H.
  split_and!; intros;
    unfold Detector.predict, Detector.predict_proba,
      Detector.predict_confidence;
    apply bind_err, H.
Qed.

(** C7: on a fitted detector, [predict_proba] with a method other than
    "linear" and "unify" raises a [ValueError] whose first argument is the
    offending method; no matrix is returned. *)
Theorem predict_proba_invalid_method (d : @t Model) G method rc :
  fitted d ->
  method <> "linear"%string ->
  method <> "unify"%string ->
  predict_proba G method rc d
  = (Err (ValueError
            [method; "is not a valid probability conversion method"%string]),
     d).
Proof.
  intros Hf Hl Hu; unfold Detector.predict_proba.
  rewrite (bind_ok _ _ d tt d) by (apply check_is_fitted_ok, Hf).
  destruct Hf as (Hs & _).
  destruct (decision_scores_ d) as [train | ] eqn:Es; [ | congruence].
  unfold bind at 1 2, getattr; rewrite Es.
  apply String.eqb_neq in Hl, Hu; rewrite Hl, Hu; reflexivity.
Qed.

(** *** The scoring post-processor *)

Lemma process_run (d : @t Model) scores thr :
  decision_scores_ d = Some scores ->
  percentile scores (fl (100 * fl (1 - contamination d))) = Ok thr ->
  _process_decision_scores d = (Ok tt, processed d scores thr).
Proof.
  intros Hs Hp; unfold Detector._process_decision_scores.
  unfold bind, getattr, lift, setattr; rewrite Hs, Hp; reflexivity.
Qed.

Lemma process_all_or_nothing (d : @t Model) :
  (exists e, _process_decision_scores d = (Err e, d))
  \/ (exists scores thr,
        decision_scores_ d = Some scores
        /\ percentile scores (fl (100 * fl (1 - contamination d))) = Ok thr
        /\ _process_decision_scores d = (Ok tt, processed d scores thr)).
Proof.
  destruct (decision_scores_ d) as [scores | ] eqn:Hs.
  - destruct (percentile scores (fl (100 * fl (1 - contamination d))))
      as [thr | e] eqn:Hp.
    + right; exists scores, thr; repeat split; auto using process_run.
    + left; exists e; unfold Detector._process_decision_scores.
      unfold bind, getattr, lift; rewrite Hs, Hp; reflexivity.
  - left; eexists; unfold Detector._process_decision_scores.
    unfold bind, getattr; rewrite Hs; reflexivity.
Qed.

Lemma process_ok (d : @t Model) scores :
  decision_scores_ d = Some scores ->
  scores <> [] ->
  0 < contamination d <= 1 # 2 ->
  exists thr,
    percentile scores (fl (100 * fl (1 - contamination d))) = Ok thr
    /\ _process_decision_scores d = (Ok tt, processed d scores thr).
Proof.
  intros Hs Hne Hc.
  destruct (percentile_arg_range (contamination d) Hc) as [H50 H100].
  destruct (percentile_ok scores (fl (100 * fl (1 - contamination d))) Hne)
    as [thr Hp]; [lra | ].
  exists thr; split; [exact Hp | apply process_run; assumption].
Qed.


Lemma mean_total (a : list Q) : a <> [] -> mean a * Qlen a == sumQ a.
Proof.
  intros Ha; unfold mean.
  assert (H : 0 < Qlen a).
  { unfold Qlen; change 0 with (inject_Z 0); rewrite <- Zlt_Qlt.
    destruct a; [congruence | simpl; lia]. }
  field; lra.
Qed.

Lemma std_variance (a : list Q) :
  exists v, std a = sqrt v /\ v == UnifySpec.variance a (mean a).
Proof.
  eexists; split; [reflexivity | ].
  unfold UnifySpec.variance.
  set (mu := mean a).
  unfold mean, Qlen; rewrite length_map.
  apply Qdiv_comp; [ | reflexivity].
  apply sumQ_map_ext; intros x _.
  rewrite <- Qabs_Qmult.
  apply Qabs_pos.
  assert (E : (x - mu) * (x - mu) == (x - mu) ^ 2) by (simpl; ring).
  rewrite E; apply Qsqr_nonneg.
Qed.


(** *** Probability calibration *)

Lemma predict_proba_unify_run (d : @t Model) G mu sigma :
  fitted d ->
  _mu d = Some mu ->
  _sigma d = Some sigma ->
  predict_proba G "unify" false d
  = (Ok (Alone (map (fun x => (fcompl (unify_probability mu sigma x),
                               unify_probability mu sigma x))
                    (decision_function d G))), d).
Proof.
  intros Hf Hmu Hsigma; unfold Detector.predict_proba.
  rewrite (bind_ok _ _ d tt d) by (apply check_is_fitted_ok, Hf).
  destruct Hf as (Hs & _).
  destruct (decision_scores_ d) as [train | ] eqn:Es; [ | congruence].
  unfold bind, getattr; rewrite Es; simpl.
  rewrite Hmu, Hsigma; unfold ret, rows.
  rewrite !map_map; reflexivity.
Qed.

Lemma clip_clip01 (v : Q) : clip 0 1 v == UnifySpec.clip01 v.
Proof.
  unfold clip, UnifySpec.clip01.
  destruct (Qltb v 0) eqn:E0.
  - apply Qltb_true in E0.
    rewrite Q.min_r by lra; rewrite Q.max_l by lra; reflexivity.
  - apply Qltb_false in E0.
    destruct (Qltb 1 v) eqn:E1.
    + apply Qltb_true in E1.
      rewrite Q.min_l by lra; rewrite Q.max_r by lra; reflexivity.
    + apply Qltb_false in E1.
      rewrite Q.min_r by lra; rewrite Q.max_r by lra; reflexivity.
Qed.

(** C5: after [_process_decision_scores] has run on the training scores, the
    "unify" method gives each test score [x] the outlier probability
    [clip (erf ((x - mean) / (std * sqrt 2)), 0, 1)] and the inlier
    probability 1 minus it, where [mean] and [std] are the values that run
    stored: the mean of the training scores and the square root of their
    mean squared deviation from it, whatever the graph scored afterwards.
    (A zero divisor is the subject of the theorems on C4.) *)
Theorem predict_proba_unify_spec (d0 : @t Model) train :
  decision_scores_ d0 = Some train ->
  train <> [] ->
  0 < contamination d0 <= 1 # 2 ->
  exists d mu sigma,
    _process_decision_scores d0 = (Ok tt, d)
    /\ _mu d = Some mu
    /\ _sigma d = Some sigma
    /\ mu * Qlen train == sumQ train
    /\ (exists v, sigma = sqrt v /\ v == UnifySpec.variance train mu)
    /\ forall G,
        exists probs,
          predict_proba G "unify" false d = (Ok (Alone probs), d)
          /\ List.length probs = List.length (decision_function d G)
          /\ forall i x,
              nth_error (decision_function d G) i = Some x ->
              ~ sigma * sqrt 2 == 0 ->
              exists v,
                nth_error probs i = Some (Fin (1 - v), Fin v)
                /\ v == UnifySpec.clip01
                          (erf ((x - mu) / (sigma * sqrt 2))).
Proof.
  intros Hs Hne Hc.
  destruct (process_ok d0 train Hs Hne Hc) as (thr & _ & Hrun).
  exists (processed d0 train thr), (mean train), (std train); split_and!.
  - exact Hrun.
  - reflexivity.
  - reflexivity.
  - apply mean_total, Hne.
  - apply std_variance.
  - intros G.
    rewrite (predict_proba_unify_run (processed d0 train thr) G
               (mean train) (std train));
      [ | unfold fitted, processed; simpl; rewrite Hs; split_and!; discriminate
        | reflexivity | reflexivity ].
    eexists; split_and!; [reflexivity | apply length_map | ].
    intros i x Hi Hnz; rewrite nth_error_map, Hi; cbn [option_map].
    unfold unify_probability, Detector.unify_probability, fdiv.
    destruct (Qeq_bool (std train * sqrt 2) 0) eqn:E;
      [apply Qeq_bool_iff in E; contradiction | ].
    cbn [Detector.ferf fclip fcompl].
    eexists; split; [reflexivity | apply clip_clip01].
Qed.

Lemma rows_ok (outlier : list fnum) :
  Forall in_unit outlier -> Forall row_ok (rows outlier).
Proof.
  intros H; unfold rows; apply Forall_map.
  eapply Forall_impl; [ | exact H].
  intros p Hp; unfold row_ok; simpl; split_and!; auto using fadd_fcompl.
Qed.

(** The "linear" method yields well-formed rows, one per node. *)
Lemma predict_proba_linear_rows (d : @t Model) G train :
  fitted d ->
  decision_scores_ d = Some train ->
  train <> [] ->
  decision_function d G <> [] ->
  exists probs,
    predict_proba G "linear" false d = (Ok (Alone probs), d)
    /\ List.length probs = List.length (decision_function d G)
    /\ Forall row_ok probs.
Proof.
  intros Hf Hs Hne Hg; unfold Detector.predict_proba.
  rewrite (bind_ok _ _ d tt d) by (apply check_is_fitted_ok, Hf).
  unfold bind, getattr, lift; rewrite Hs; simpl.
  destruct train as [ | x0 train]; [congruence | ]; simpl.
  destruct (decision_function d G) as [ | s scores] eqn:Eg; [congruence | ].
  cbn [MinMaxScaler_transform].
  eexists; split_and!; [reflexivity | | ].
  - unfold rows; rewrite !length_map; reflexivity.
  - apply rows_ok, Forall_map, Forall_map, Forall_forall; intros y _.
    simpl; apply clip_bounds; lra.
Qed.

(** So does the "unify" method when the training scores have a non-zero
    standard deviation. *)
Lemma predict_proba_unify_rows (d : @t Model) G mu sigma :
  fitted d ->
  _mu d = Some mu ->
  _sigma d = Some sigma ->
  ~ sigma * sqrt 2 == 0 ->
  exists probs,
    predict_proba G "unify" false d = (Ok (Alone probs), d)
    /\ List.length probs = List.length (decision_function d G)
    /\ Forall row_ok probs.
Proof.
  intros Hf Hmu Hsigma Hnz.
  rewrite (predict_proba_unify_run d G mu sigma) by assumption.
  eexists; split_and!; [reflexivity | apply length_map | ].
  replace (map _ (decision_function d G))
    with (rows (map (unify_probability mu sigma) (decision_function d G)))
    by (unfold rows; rewrite map_map; reflexivity).
  apply rows_ok, Forall_map, Forall_forall; intros x _.
  unfold unify_probability, fdiv.
  destruct (Qeq_bool (sigma * sqrt 2) 0) eqn:E.
  - apply Qeq_bool_iff in E; contradiction.
  - simpl; apply clip_bounds; lra.
Qed.

(** C4, at a detector trained on constant scores: the standard deviation is
    zero, so "unify" divides 0 by 0 at a test score equal to the mean and
    the row holds nan in both columns, neither in [0, 1] nor summing to 1. *)
Theorem predict_proba_unify_nan (model : Model) G :
  (forall x, x == 0 -> sqrt x == 0) ->
  (forall d, decision_function d G = [1]) ->
  exists d,
    _process_decision_scores (mk (1 # 10) model (Some [1; 1]) None None None None)
    = (Ok tt, d)
    /\ fitted d
    /\ predict_proba G "unify" false d = (Ok (Alone [(NaN, NaN)]), d)
    /\ ~ row_ok (NaN, NaN).
Proof.
  intros Hsqrt HG.
  set (d0 := mk (1 # 10) model (Some [1; 1]) None None None None).
  destruct (process_ok d0 [1; 1] eq_refl)
    as (thr & Hp & Hrun);
    [discriminate | split; [reflexivity | discriminate] | ].
  exists (processed d0 [1; 1] thr); split_and!.
  - exact Hrun.
  - unfold fitted; simpl; split_and!; discriminate.
  - rewrite (predict_proba_unify_run _ G (mean [1; 1]) (std [1; 1]));
      [ | unfold fitted; simpl; split_and!; discriminate
        | reflexivity | reflexivity ].
    rewrite HG; simpl map.
    assert (E : unify_probability (mean [1; 1]) (std [1; 1]) 1 = NaN).
    { unfold unify_probability, fdiv.
      assert (Hz : Qeq_bool (std [1; 1] * sqrt 2) 0 = true).
      { apply Qeq_bool_iff.
        assert (Hs : std [1; 1] == 0) by (apply Hsqrt; reflexivity).
        rewrite Hs; ring. }
      rewrite Hz; reflexivity. }
    rewrite E; reflexivity.
  - unfold row_ok; simpl; tauto.
Qed.

End Facts.
End DetectorFacts.

(** ** Parameter introspection *)

Module ParamsFacts.
Import Params Convention.

Local Open Scope string_scope.

(** *** Strings *)

Lemma prefix_nil (s : string) : String.prefix EmptyString s = true.
Proof. destruct s; reflexivity. Qed.

Lemma prefix_dunder (c : ascii) (s : string) :
  String.prefix "__" (String c s)
  = if ascii_dec "_" c then
      match s with
      | String c2 _ => if ascii_dec "_" c2 then true else false
      | EmptyString => false
      end
    else false.
Proof.
  cbn [String.prefix]; destruct (ascii_dec "_" c); [ | reflexivity].
  destruct s as [ | c2 s]; cbn [String.prefix]; [reflexivity | ].
  destruct (ascii_dec "_" c2); [apply prefix_nil | reflexivity].
Qed.

Lemma prefix_dunder_cons (c : ascii) (s t u : string) :
  String.prefix "__" (String c (s ++ "_" ++ t))
  = String.prefix "__" (String c (s ++ "_" ++ u)).
Proof.
  rewrite !prefix_dunder; destruct (ascii_dec "_" c); [ | reflexivity].
  destruct s as [ | c2 s]; reflexivity.
Qed.

Lemma partition_cons (c : ascii) (s : string) :
  String.prefix "__" (String c s) = false ->
  partition "__" (String c s)
  = (String c (fst (fst (partition "__" s))),
     snd (fst (partition "__" s)), snd (partition "__" s)).
Proof.
  intros H; cbn [partition]; rewrite H.
  destruct (partition "__" s) as [[hd dl] tl]; reflexivity.
Qed.

Lemma partition_flat (key k : string) :
  clean key = true ->
  partition "__" (key ++ "__" ++ k) = (key, "__", k).
Proof.
  induction key as [ | c key IH]; intros Hc.
  - change (EmptyString ++ "__" ++ k) with (String "_" (String "_" k)).
    cbn [partition]; rewrite prefix_dunder.
    destruct (ascii_dec "_" "_"); [reflexivity | congruence].
  - cbn [clean] in Hc; apply andb_true_iff in Hc as [Hp Hc].
    apply negb_true_iff in Hp.
    change (String c key ++ "__" ++ k)
      with (String c (key ++ "_" ++ ("_" ++ k))).
    rewrite partition_cons.
    + change (key ++ "_" ++ "_" ++ k) with (key ++ "__" ++ k).
      rewrite (IH Hc); reflexivity.
    + rewrite (prefix_dunder_cons c key ("_" ++ k) EmptyString); exact Hp.
Qed.

Lemma prefix_dunder_snoc (c : ascii) (s : string) :
  String.prefix "__" (String c (s ++ "_")) = false ->
  String.prefix "__" (String c s) = false.
Proof.
  rewrite !prefix_dunder; destruct (ascii_dec "_" c); [ | reflexivity].
  destruct s as [ | c2 s]; [reflexivity | exact (fun H => H)].
Qed.

Lemma partition_plain (key : string) :
  clean key = true -> partition "__" key = (key, EmptyString, EmptyString).
Proof.
  induction key as [ | c key IH]; intros Hc.
  - reflexivity.
  - cbn [clean] in Hc; apply andb_true_iff in Hc as [Hp Hc].
    apply negb_true_iff in Hp.
    rewrite partition_cons by (apply prefix_dunder_snoc, Hp).
    rewrite (IH Hc); reflexivity.
Qed.

(** Flattened names of parameters with clean names are told apart by
    [partition]. *)
Lemma flat_inj (key key' k k' : string) :
  clean key = true -> clean key' = true ->
  key ++ "__" ++ k = key' ++ "__" ++ k' -> key = key' /\ k = k'.
Proof.
  intros Hc Hc' E.
  pose proof (partition_flat key k Hc) as P.
  rewrite E, (partition_flat key' k' Hc') in P.
  injection P; auto.
Qed.

Lemma flat_not_plain (key key' k : string) :
  clean key = true -> key <> key' ++ "__" ++ k.
Proof.
  intros Hc E.
  pose proof (partition_plain key Hc) as P.
  rewrite E in P.
  assert (H : snd (fst (partition "__" (key' ++ "__" ++ k))) <> EmptyString).
  { clear; induction key' as [ | c key' IH].
    { rewrite (partition_flat EmptyString k eq_refl); simpl; discriminate. }
    change (String c key' ++ "__" ++ k) with (String c (key' ++ "__" ++ k)).
    cbn [partition].
    destruct (String.prefix "__" (String c (key' ++ "__" ++ k)));
      [simpl; discriminate | ].
    destruct (partition "__" (key' ++ "__" ++ k)) as [[hd dl] tl]; exact IH. }
  rewrite P in H; simpl in H; congruence.
Qed.

(** *** The order of strings *)

Lemma ascii_compare_refl (c : ascii) : Ascii.compare c c = Eq.
Proof. unfold Ascii.compare; apply N.compare_refl. Qed.

Lemma ascii_compare_trans (a b c : ascii) :
  Ascii.compare a b = Lt -> Ascii.compare b c = Lt -> Ascii.compare a c = Lt.
Proof.
  unfold Ascii.compare; rewrite !N.compare_lt_iff; lia.
Qed.

Lemma compare_lt_trans (s1 : string) :
  forall s2 s3,
    String.compare s1 s2 = Lt -> String.compare s2 s3 = Lt ->
    String.compare s1 s3 = Lt.
Proof.
  induction s1 as [ | a s1 IH]; intros [ | b s2] [ | c s3]; simpl;
    try congruence.
  destruct (Ascii.compare a b) eqn:Eab; try discriminate;
    destruct (Ascii.compare b c) eqn:Ebc; try discriminate; intros H1 H2.
  - apply Ascii.compare_eq_iff in Eab, Ebc; subst.
    rewrite ascii_compare_refl; eauto.
  - apply Ascii.compare_eq_iff in Eab; subst; rewrite Ebc; reflexivity.
  - apply Ascii.compare_eq_iff in Ebc; subst; rewrite Eab; reflexivity.
  - rewrite (ascii_compare_trans a b c Eab Ebc); reflexivity.
Qed.

Lemma leb_trans (s1 s2 s3 : string) :
  String.leb s1 s2 = true -> String.leb s2 s3 = true ->
  String.leb s1 s3 = true.
Proof.
  unfold String.leb.
  destruct (String.compare s1 s2) eqn:E12; try discriminate;
    destruct (String.compare s2 s3) eqn:E23; try discriminate; intros _ _.
  - pose proof (String.compare_eq_iff _ _ E12) as ->.
    rewrite E23; reflexivity.
  - pose proof (String.compare_eq_iff _ _ E12) as ->.
    rewrite E23; reflexivity.
  - pose proof (String.compare_eq_iff _ _ E23) as <-.
    rewrite E12; reflexivity.
  - rewrite (compare_lt_trans s1 s2 s3 E12 E23); reflexivity.
Qed.

(** A string is below each of its proper extensions. *)
Lemma leb_extension (p s : string) : String.leb (p ++ s) p = true -> s = EmptyString.
Proof.
  induction p as [ | c p IH]; unfold String.leb; simpl.
  - destruct s; [reflexivity | discriminate].
  - rewrite ascii_compare_refl; exact IH.
Qed.

Lemma insert_name_in (x y : string) (l : list string) :
  In y (insert_name x l) <-> y = x \/ In y l.
Proof.
  induction l as [ | z l IH]; simpl; [intuition | ].
  destruct (String.leb x z); simpl; rewrite ?IH; intuition.
Qed.

Lemma sorted_in (l : list string) (x : string) : In x (sorted l) <-> In x l.
Proof.
  induction l as [ | y l IH]; simpl; [tauto | ].
  rewrite insert_name_in, IH; intuition.
Qed.

Lemma insert_name_sorted (x : string) (l : list string) :
  StronglySorted below l -> StronglySorted below (insert_name x l).
Proof.
  induction 1 as [ | y l Hs IH Hall]; simpl; [repeat constructor | ].
  destruct (String.leb x y) eqn:E.
  - constructor; [constructor; assumption | ].
    constructor; [exact E | ].
    eapply Forall_impl; [ | exact Hall].
    intros z Hz; exact (leb_trans x y z E Hz).
  - assert (Hyx : below y x).
    { destruct (String.leb_total x y) as [H | H]; [congruence | exact H]. }
    constructor; [exact IH | ].
    apply Forall_forall; intros z Hz.
    apply insert_name_in in Hz as [-> | Hz]; [exact Hyx | ].
    rewrite Forall_forall in Hall; auto.
Qed.

Lemma sorted_sorted (l : list string) : StronglySorted below (sorted l).
Proof.
  induction l as [ | x l IH]; simpl; [constructor | ].
  apply insert_name_sorted, IH.
Qed.

Lemma insert_name_nodup (x : string) (l : list string) :
  ~ In x l -> NoDup l -> NoDup (insert_name x l).
Proof.
  induction l as [ | y l IH]; simpl; intros Hx Hl.
  - repeat constructor; auto.
  - destruct (String.leb x y).
    + constructor; [simpl; tauto | exact Hl].
    + inversion_clear Hl as [ | ? ? Hy Hl'].
      constructor; [rewrite insert_name_in; intuition congruence | ].
      apply IH; tauto.
Qed.

Lemma sorted_nodup (l : list string) : NoDup l -> NoDup (sorted l).
Proof.
  induction 1 as [ | x l Hx Hl IH]; simpl; [constructor | ].
  apply insert_name_nodup; [rewrite sorted_in; exact Hx | exact IH].
Qed.

(** With a [*args] parameter the descent never ends: whatever the limit,
    the outcome is the interpreter's [RecursionError]. *)
Lemma param_names_within_varargs (limit : nat) (o : object) :
  existsb (fun p => kind_eqb (pkind p) VAR_POSITIONAL) (parameters o) = true ->
  param_names_within limit o = Err RecursionError.
Proof.
  intros H; induction limit as [ | limit IH]; simpl; [reflexivity | ].
  rewrite H, IH; reflexivity.
Qed.

Lemma get_param_names_eq (o : object) :
  _get_param_names o
  = if existsb (fun p => kind_eqb (pkind p) VAR_POSITIONAL) (parameters o)
    then Err RecursionError
    else Ok (sorted (map name (parameters o))).
Proof.
  unfold _get_param_names.
  destruct (existsb _ (parameters o)) eqn:E.
  - apply param_names_within_varargs, E.
  - unfold recursion_limit; cbn [param_names_within]; rewrite E; reflexivity.
Qed.

Lemma param_names_sorted (o : object) (names : list string) :
  _get_param_names o = Ok names -> StronglySorted below names.
Proof.
  rewrite get_param_names_eq.
  destruct (existsb _ _); [discriminate | ].
  intros [= <-]; apply sorted_sorted.
Qed.

(** *** Dictionaries *)

Section Dict.
Context {V : Type}.
Implicit Types (d items : list (string * V)) (k : string) (v : V).

Lemma dict_get_set d k v k' :
  dict_get (dict_set d k v) k'
  = if String.eqb k k' then Some v else dict_get d k'.
Proof.
  induction d as [ | [k0 v0] d IH]; simpl.
  - reflexivity.
  - destruct (String.eqb k0 k) eqn:E0; simpl.
    + apply String.eqb_eq in E0; subst k0.
      destruct (String.eqb k k'); reflexivity.
    + destruct (String.eqb k0 k') eqn:E1; [ | exact IH].
      apply String.eqb_eq in E1; subst k0.
      rewrite String.eqb_sym, E0; reflexivity.
Qed.

Lemma dict_get_none d k : dict_get d k = None <-> ~ In k (map fst d).
Proof.
  induction d as [ | [k0 v0] d IH]; simpl; [tauto | ].
  destruct (String.eqb k0 k) eqn:E.
  - apply String.eqb_eq in E; split; [discriminate | tauto].
  - apply String.eqb_neq in E; rewrite IH; tauto.
Qed.

Lemma dict_mem_in d k : dict_mem d k = true <-> In k (map fst d).
Proof.
  unfold dict_mem; destruct (dict_get d k) eqn:E.
  - split; [intros _ | reflexivity].
    destruct (in_dec string_dec k (map fst d)) as [H | H]; [exact H | ].
    apply dict_get_none in H; congruence.
  - apply dict_get_none in E; split; [discriminate | contradiction].
Qed.

Lemma dict_get_in d k v :
  NoDup (map fst d) -> In (k, v) d -> dict_get d k = Some v.
Proof.
  induction d as [ | [k0 v0] d IH]; simpl; [tauto | ].
  intros Hnd [[= -> ->] | Hin].
  - rewrite String.eqb_refl; reflexivity.
  - inversion_clear Hnd as [ | ? ? Hk0 Hnd'].
    destruct (String.eqb k0 k) eqn:E; [ | auto].
    apply String.eqb_eq in E; subst k0.
    exfalso; apply Hk0, in_map_iff; exists (k, v); auto.
Qed.

Lemma dict_get_some_in d k v : dict_get d k = Some v -> In (k, v) d.
Proof.
  induction d as [ | [k0 v0] d IH]; simpl; [discriminate | ].
  destruct (String.eqb k0 k) eqn:E; [ | auto].
  apply String.eqb_eq in E; subst k0; intros [= ->]; auto.
Qed.

Lemma dict_set_fresh d k v : ~ In k (map fst d) -> dict_set d k v = (d ++ [(k, v)])%list.
Proof.
  induction d as [ | [k0 v0] d IH]; simpl; intros H; [reflexivity | ].
  destruct (String.eqb k0 k) eqn:E.
  - apply String.eqb_eq in E; tauto.
  - rewrite IH by tauto; reflexivity.
Qed.

Lemma dict_set_keys d k v :
  forall x, In x (map fst (dict_set d k v)) <-> x = k \/ In x (map fst d).
Proof.
  intros x; rewrite <- !dict_mem_in; unfold dict_mem.
  rewrite dict_get_set.
  destruct (String.eqb k x) eqn:E.
  - apply String.eqb_eq in E; subst; tauto.
  - apply String.eqb_neq in E.
    destruct (dict_get d x); intuition congruence.
Qed.

Lemma dict_set_nodup d k v : NoDup (map fst d) -> NoDup (map fst (dict_set d k v)).
Proof.
  induction d as [ | [k0 v0] d IH]; simpl; intros H.
  - repeat constructor; auto.
  - inversion_clear H as [ | ? ? Hk0 Hd].
    destruct (String.eqb k0 k) eqn:E; simpl.
    + apply String.eqb_eq in E; subst; constructor; assumption.
    + constructor; [ | auto].
      rewrite dict_set_keys; apply String.eqb_neq in E; intuition.
Qed.

Lemma dict_update_app d items1 items2 :
  dict_update d (items1 ++ items2)%list
  = dict_update (dict_update d items1) items2.
Proof. apply fold_left_app. Qed.

Lemma dict_update_nodup items :
  forall d, NoDup (map fst d) -> NoDup (map fst (dict_update d items)).
Proof.
  induction items as [ | [k v] items IH]; intros d H; simpl; [exact H | ].
  apply IH, dict_set_nodup, H.
Qed.

Lemma dict_update_fresh items :
  forall d, NoDup (map fst (d ++ items)%list) ->
            dict_update d items = (d ++ items)%list.
Proof.
  induction items as [ | [k v] items IH]; intros d H; simpl.
  - rewrite app_nil_r; reflexivity.
  - rewrite map_app in H; simpl in H.
    pose proof (NoDup_remove_2 _ _ _ H) as Hk.
    rewrite dict_set_fresh by (intros Hin; apply Hk, in_or_app; auto).
    rewrite IH; rewrite <- app_assoc; [reflexivity | ].
    simpl; rewrite map_app; exact H.
Qed.

Lemma dict_get_update_other items k :
  forall d, ~ In k (map fst items) ->
            dict_get (dict_update d items) k = dict_get d k.
Proof.
  induction items as [ | [k0 v0] items IH]; intros d H; simpl in *;
    [reflexivity | ].
  rewrite IH by tauto.
  rewrite dict_get_set.
  destruct (String.eqb k0 k) eqn:E; [ | reflexivity].
  apply String.eqb_eq in E; tauto.
Qed.

Lemma dict_update_keys items :
  forall d x, In x (map fst (dict_update d items))
              <-> In x (map fst d) \/ In x (map fst items).
Proof.
  induction items as [ | [k v] items IH]; intros d x; simpl; [tauto | ].
  rewrite IH, dict_set_keys; intuition.
Qed.

(** The last assignment to a key decides its value. *)
Lemma dict_get_update_last items k v :
  forall d, ~ In k (map fst items) ->
            dict_get (dict_update d ((k, v) :: items)) k = Some v.
Proof.
  intros d H; simpl.
  rewrite dict_get_update_other by exact H.
  rewrite dict_get_set, String.eqb_refl; reflexivity.
Qed.

End Dict.

End ParamsFacts.

Module GetParamsFacts.
Import Params Convention Trace ParamsFacts.

Local Open Scope string_scope.

(** *** The loop of [get_params] as a sequence of assignments *)

Lemma get_params_loop_writes rec h o deep names :
  forall out,
    get_params_loop rec h o deep names out
    = match writes rec h o deep names with
      | Ok w => Ok (dict_update out w)
      | Err e => Err e
      end.
Proof.
  induction names as [ | key names IH]; intros out; simpl; [reflexivity | ].
  unfold entries.
  destruct (if deep then has_get_params h (getattr o key) else None) as [l | ].
  - destruct (rec l) as [items | e]; [ | reflexivity].
    rewrite IH.
    destruct (writes rec h o deep names) as [w | e]; [ | reflexivity].
    rewrite <- app_assoc, dict_update_app, dict_update_app; reflexivity.
  - rewrite IH.
    destruct (writes rec h o deep names) as [w | e]; reflexivity.
Qed.

Lemma get_params_unfold fuel h self deep o names :
  h !! self = Some o ->
  _get_param_names o = Ok names ->
  get_params (S fuel) h self deep
  = match writes (fun l => get_params fuel h l true) h o deep names with
    | Ok w => Ok (dict_update [] w)
    | Err e => Err e
    end.
Proof.
  intros Ho Hn; cbn [get_params]; rewrite Ho, Hn.
  apply get_params_loop_writes.
Qed.

Lemma get_params_nodup fuel h self deep out :
  get_params fuel h self deep = Ok out -> NoDup (map fst out).
Proof.
  destruct fuel as [ | fuel]; [discriminate | ]; cbn [get_params].
  destruct (h !! self) as [o | ]; [ | discriminate].
  destruct (_get_param_names o) as [names | ]; [ | discriminate].
  rewrite get_params_loop_writes.
  destruct (writes _ h o deep names) as [w | ]; [ | discriminate].
  intros [= <-]; apply dict_update_nodup; constructor.
Qed.

(** Keys written for a parameter: its own name and flattened names that
    extend it. *)
Lemma entries_keys rec h o deep key e x :
  entries rec h o deep key = Ok e ->
  In x (map fst e) -> x = key \/ exists k, x = key ++ "__" ++ k.
Proof.
  unfold entries.
  destruct (if deep then has_get_params h (getattr o key) else None) as [l | ].
  - destruct (rec l) as [items | ]; [ | discriminate].
    intros [= <-]; rewrite map_app, in_app_iff, map_map; simpl.
    intros [Hin | [<- | []]]; [right | left; reflexivity].
    apply in_map_iff in Hin as ([k v] & <- & _); exists k; reflexivity.
  - intros [= <-]; simpl; intros [<- | []]; left; reflexivity.
Qed.

Lemma writes_keys rec h o deep names :
  forall w x,
    writes rec h o deep names = Ok w ->
    In x (map fst w) ->
    exists key, In key names
                /\ (x = key \/ exists k, x = key ++ "__" ++ k).
Proof.
  induction names as [ | key names IH]; simpl; intros w x.
  - intros [= <-] [].
  - destruct (entries rec h o deep key) as [e | ] eqn:Ee; [ | discriminate].
    destruct (writes rec h o deep names) as [w' | ]; [ | discriminate].
    intros [= <-]; rewrite map_app, in_app_iff; intros [Hin | Hin].
    + exists key; split; [auto | eapply entries_keys; eauto].
    + destruct (IH w' x eq_refl Hin) as (key' & Hk & Hx); eauto.
Qed.

Lemma entries_last rec h o deep key e :
  entries rec h o deep key = Ok e ->
  exists e', e = (e' ++ [(key, getattr o key)])%list.
Proof.
  unfold entries.
  destruct (if deep then has_get_params h (getattr o key) else None) as [l | ].
  - destruct (rec l) as [items | ]; [ | discriminate].
    intros [= <-]; eexists; reflexivity.
  - intros [= <-]; exists []; reflexivity.
Qed.

(** Every declared parameter ends up under its own name: a later parameter
    writes its own name and extensions of it, and sorting puts no extension
    of a name before the name. *)
Lemma writes_top_level rec h o deep names :
  StronglySorted below names ->
  forall w d key,
    writes rec h o deep names = Ok w ->
    In key names ->
    dict_get (dict_update d w) key = Some (getattr o key).
Proof.
  induction 1 as [ | key0 names Hs IH Hall]; intros w d key; simpl.
  - intros _ [].
  - destruct (entries rec h o deep key0) as [e | ] eqn:Ee; [ | discriminate].
    destruct (writes rec h o deep names) as [w' | ] eqn:Ew; [ | discriminate].
    intros [= <-] Hin; rewrite dict_update_app.
    destruct (in_dec string_dec key names) as [Hk | Hk].
    + apply IH; auto.
    + destruct Hin as [<- | Hin]; [ | contradiction].
      rewrite dict_get_update_other.
      * destruct (entries_last _ _ _ _ _ _ Ee) as (e' & ->).
        rewrite dict_update_app; simpl.
        rewrite dict_get_set, String.eqb_refl; reflexivity.
      * intros Hx.
        destruct (writes_keys _ _ _ _ _ _ _ Ew Hx)
          as (key' & Hk' & [-> | (k & ->)]); [contradiction | ].
        rewrite Forall_forall in Hall; specialize (Hall key' Hk').
        apply leb_extension in Hall; discriminate.
Qed.

Lemma append_inj_l (key k k' : string) : key ++ k = key ++ k' -> k = k'.
Proof.
  induction key as [ | c key IH]; simpl; [auto | ].
  intros [= H]; auto.
Qed.

Lemma flatten_keys_notin key k (items : list (string * value)) :
  ~ In k (map fst items) ->
  ~ In (key ++ "__" ++ k) (map fst (map (flatten key) items)).
Proof.
  intros H Hin; apply H.
  rewrite map_map in Hin; apply in_map_iff in Hin as ([k' v'] & E & Hin).
  cbn [flatten fst snd] in E.
  apply append_inj_l, (append_inj_l "__") in E; subst k'.
  apply in_map_iff; exists (k, v'); auto.
Qed.

Lemma dict_update_flatten key (items : list (string * value)) d k v :
  NoDup (map fst items) ->
  dict_get items k = Some v ->
  dict_get (dict_update d (map (flatten key) items)) (key ++ "__" ++ k)
  = Some v.
Proof.
  intros Hnd Hget.
  apply dict_get_some_in, in_split in Hget as (i1 & i2 & ->).
  rewrite map_app, dict_update_app; cbn [map].
  change (flatten key (k, v)) with (key ++ "__" ++ k, v).
  apply dict_get_update_last, flatten_keys_notin.
  rewrite map_app in Hnd; apply NoDup_remove_2 in Hnd.
  intros Hin; apply Hnd, in_or_app; auto.
Qed.

(** With distinct clean names, each flattened name is written by one
    parameter only and keeps the value of the nested parameter. *)
Lemma writes_flat rec h o names :
  NoDup names ->
  Forall (fun key => clean key = true) names ->
  forall w d key l items k v,
    writes rec h o true names = Ok w ->
    In key names ->
    has_get_params h (getattr o key) = Some l ->
    rec l = Ok items ->
    NoDup (map fst items) ->
    dict_get items k = Some v ->
    dict_get (dict_update d w) (key ++ "__" ++ k) = Some v.
Proof.
  induction 1 as [ | key0 names Hk0 Hnd IH]; intros Hclean w d key l items k v;
    simpl; [intros _ [] | ].
  inversion_clear Hclean as [ | ? ? Hc0 Hcl].
  destruct (entries rec h o true key0) as [e | ] eqn:Ee; [ | discriminate].
  destruct (writes rec h o true names) as [w' | ] eqn:Ew; [ | discriminate].
  intros [= <-] Hin Hl Hrec Hitems Hget; rewrite dict_update_app.
  destruct Hin as [-> | Hin]; [ | eapply IH; eauto].
  rewrite dict_get_update_other.
  - unfold entries in Ee; rewrite Hl, Hrec in Ee; injection Ee as <-.
    rewrite dict_update_app; simpl.
    rewrite dict_get_set.
    destruct (String.eqb key (key ++ "__" ++ k)) eqn:E.
    + apply String.eqb_eq in E.
      exfalso; exact (flat_not_plain key key k Hc0 E).
    + apply dict_update_flatten; assumption.
  - intros Hx.
    destruct (writes_keys _ _ _ _ _ _ _ Ew Hx) as (key' & Hk' & [E | (k' & E)]).
    + rewrite Forall_forall in Hcl.
      exact (flat_not_plain key' key k (Hcl key' Hk') (eq_sym E)).
    + rewrite Forall_forall in Hcl.
      destruct (flat_inj key key' k k' Hc0 (Hcl key' Hk') E) as [-> _].
      contradiction.
Qed.

Lemma writes_flat_keys rec h o names :
  forall w d key l items k,
    writes rec h o true names = Ok w ->
    In key names ->
    has_get_params h (getattr o key) = Some l ->
    rec l = Ok items ->
    In k (map fst items) ->
    In (key ++ "__" ++ k) (map fst (dict_update d w)).
Proof.
  induction names as [ | key0 names IH]; intros w d key l items k; simpl;
    [intros _ [] | ].
  destruct (entries rec h o true key0) as [e | ] eqn:Ee; [ | discriminate].
  destruct (writes rec h o true names) as [w' | ] eqn:Ew; [ | discriminate].
  intros [= <-] Hin Hl Hrec Hk; rewrite dict_update_app.
  destruct Hin as [-> | Hin]; [ | eapply IH; eauto].
  rewrite dict_update_keys; left.
  unfold entries in Ee; rewrite Hl, Hrec in Ee; injection Ee as <-.
  rewrite dict_update_keys; right.
  rewrite map_app, in_app_iff, map_map; left.
  apply in_map_iff in Hk as ([k0 v0] & <- & Hk).
  apply in_map_iff; exists (k0, v0); auto.
Qed.

(** Without [deep], only the declared names are written. *)
Lemma writes_shallow rec h o names :
  writes rec h o false names = Ok (map (fun key => (key, getattr o key)) names).
Proof.
  induction names as [ | key names IH]; simpl; [reflexivity | ].
  rewrite IH; reflexivity.
Qed.

Lemma dict_update_shallow (o : object) names :
  forall d key,
    dict_get (dict_update d (map (fun key => (key, getattr o key)) names)) key
    = if in_dec string_dec key names then Some (getattr o key)
      else dict_get d key.
Proof.
  induction names as [ | key0 names IH]; intros d key; simpl; [reflexivity | ].
  rewrite IH.
  destruct (in_dec string_dec key names) as [Hin | Hin];
    destruct (string_dec key0 key) as [-> | Hne]; try reflexivity.
  - rewrite dict_get_set, String.eqb_refl; reflexivity.
  - rewrite dict_get_set.
    apply String.eqb_neq in Hne; rewrite Hne; reflexivity.
Qed.

(** *** Enough fuel *)

Lemma writes_total rec h o deep names :
  (forall key l, In key names ->
                 has_get_params h (getattr o key) = Some l ->
                 exists items, rec l = Ok items) ->
  exists w, writes rec h o deep names = Ok w.
Proof.
  induction names as [ | key names IH]; intros Hrec; simpl; [eauto | ].
  destruct IH as [w ->]; [intros; eapply Hrec; simpl; eauto | ].
  unfold entries.
  destruct (if deep then has_get_params h (getattr o key) else None)
    as [l | ] eqn:El; [ | eauto].
  destruct deep; [ | discriminate].
  destruct (Hrec key l (or_introl eq_refl) El) as [items ->]; eauto.
Qed.

Lemma get_params_total h n self :
  nests_within h n self ->
  forall deep, exists out, get_params n h self deep = Ok out.
Proof.
  induction 1 as [n self o names Ho Hn _ IH]; intros deep.
  rewrite (get_params_unfold n h self deep o names Ho Hn).
  destruct (writes_total (fun l => get_params n h l true) h o deep names)
    as [w ->]; eauto.
Qed.

(** C10: for a detector one of whose declared parameters holds a nested
    estimator, [get_params(deep=True)] returns a mapping that has, for each
    parameter [k] of the nested estimator, the flattened entry [key__k]
    (holding the nested value when the declared names are distinct and
    clean) and, under [key] itself, the nested estimator; with [deep=False]
    the mapping has the declared names with their values and nothing else. *)
Theorem get_params_deep_and_shallow h fuel self o names :
  h !! self = Some o ->
  _get_param_names o = Ok names ->
  nests_within h (S fuel) self ->
  (exists shallow,
     get_params (S fuel) h self false = Ok shallow
     /\ forall key,
         dict_get shallow key
         = if in_dec string_dec key names then Some (getattr o key) else None)
  /\ (exists out,
       get_params (S fuel) h self true = Ok out
       /\ (forall key, In key names ->
                       dict_get out key = Some (getattr o key))
       /\ (forall key l,
             In key names ->
             has_get_params h (getattr o key) = Some l ->
             exists items,
               get_params fuel h l true = Ok items
               /\ (forall k, In k (map fst items) ->
                             In (key ++ "__" ++ k) (map fst out))
               /\ (NoDup names ->
                   Forall (fun key => clean key = true) names ->
                   forall k v, dict_get items k = Some v ->
                               dict_get out (key ++ "__" ++ k) = Some v))).
Proof.
  intros Ho Hn Hnest; split.
  - rewrite (get_params_unfold fuel h self false o names Ho Hn).
    rewrite writes_shallow; eexists; split; [reflexivity | ].
    intros key; apply dict_update_shallow.
  - inversion Hnest as [n self' o' names' Ho' Hn' Hsub]; subst.
    rewrite Ho in Ho'; injection Ho' as <-.
    rewrite Hn in Hn'; injection Hn' as <-.
    rewrite (get_params_unfold fuel h self true o names Ho Hn).
    destruct (writes_total (fun l => get_params fuel h l true) h o true names)
      as [w Hw].
    { intros key l Hin Hl.
      apply (get_params_total h fuel l (Hsub key l Hin Hl) true). }
    rewrite Hw; eexists; split_and!; [reflexivity | | ].
    + intros key Hin.
      eapply writes_top_level; eauto using param_names_sorted.
    + intros key l Hin Hl.
      destruct (get_params_total h fuel l (Hsub key l Hin Hl) true)
        as [items Hitems].
      exists items; split_and!; [exact Hitems | | ].
      * intros k Hk.
        eapply (writes_flat_keys (fun l => get_params fuel h l true)); eauto.
      * intros Hnd Hcl k v Hget.
        eapply (writes_flat (fun l => get_params fuel h l true)); eauto.
        eapply get_params_nodup; eauto.
Qed.

End GetParamsFacts.

Module SetParamsFacts.
Import Params Convention Trace ParamsFacts GetParamsFacts.

Local Open Scope string_scope.

(** *** An invalid keyword *)

Lemma partition_not_found (s : string) :
  snd (fst (partition "__" s)) = EmptyString -> fst (fst (partition "__" s)) = s.
Proof.
  induction s as [ | c s IH]; [reflexivity | ].
  cbn [partition].
  destruct (String.prefix "__" (String c s)); [simpl; discriminate | ].
  destruct (partition "__" s) as [[hd dl] tl]; simpl in *.
  intros H; rewrite (IH H); reflexivity.
Qed.

Lemma plain_top (key : string) : plain key = true -> top key = key.
Proof.
  unfold plain, top; intros H; apply String.eqb_eq in H.
  apply partition_not_found, H.
Qed.

Lemma set_params_loop_step self valid key0 v params nested h :
  dict_mem valid (top key0) = true ->
  set_params_loop self valid ((key0, v) :: params) nested h
  = if plain key0
    then set_params_loop self valid params nested (setattr h self key0 v)
    else set_params_loop self valid params
           (nested_set nested (top key0) (snd (partition "__" key0)) v) h.
Proof.
  intros Hv; cbn [set_params_loop].
  pose proof (plain_top key0) as Hp; unfold plain, top in *.
  destruct (partition "__" key0) as [[key delim] sub_key]; simpl in *.
  rewrite Hv; simpl.
  destruct (String.eqb delim EmptyString) eqn:E; simpl; [ | reflexivity].
  rewrite Hp by reflexivity; reflexivity.
Qed.

Lemma set_params_loop_invalid self valid key0 v params nested h :
  dict_mem valid (top key0) = false ->
  set_params_loop self valid ((key0, v) :: params) nested h
  = (Err (InvalidParameter (top key0) self), h).
Proof.
  intros Hv; cbn [set_params_loop]; unfold top in *.
  destruct (partition "__" key0) as [[key delim] sub_key]; simpl in *.
  rewrite Hv; reflexivity.
Qed.

Lemma set_params_loop_prefix self valid pre rest :
  (forall kv, In kv pre -> dict_mem valid (top (fst kv)) = true) ->
  forall nested h,
  exists nested',
    set_params_loop self valid (pre ++ rest) nested h
    = set_params_loop self valid rest nested' (assign_plain h self pre).
Proof.
  induction pre as [ | [key0 v] pre IH]; intros Hv nested h.
  - exists nested; reflexivity.
  - cbn [app]; rewrite set_params_loop_step by (apply (Hv (key0, v)); left; auto).
    unfold assign_plain; cbn [fold_left fst snd].
    destruct (plain key0); apply IH; intros kv Hkv; apply Hv; right; exact Hkv.
Qed.

Lemma assign_plain_nested h self pre :
  (forall kv, In kv pre -> plain (fst kv) = false) -> assign_plain h self pre = h.
Proof.
  revert h; induction pre as [ | [key0 v] pre IH]; intros h Hp; [reflexivity | ].
  unfold assign_plain; cbn [fold_left fst snd].
  pose proof (Hp (key0, v) (or_introl eq_refl)) as H0; simpl in H0.
  rewrite H0.
  apply IH; intros kv Hkv; apply Hp; right; exact Hkv.
Qed.

(** C8, as the code has it: when the keywords hold one whose top-level name
    is not a declared parameter, [set_params] raises the invalid-parameter
    error for the first such keyword, naming that top-level name and the
    estimator.  Nested assignments are never applied, but the plain keywords
    before the offending one have been assigned already; if none precedes
    it the store is unchanged. *)
Theorem set_params_invalid_key fuel h self valid pre key0 v post :
  get_params fuel h self true = Ok valid ->
  (forall kv, In kv pre -> dict_mem valid (top (fst kv)) = true) ->
  dict_mem valid (top key0) = false ->
  set_params (S fuel) h self (pre ++ (key0, v) :: post)
  = (Err (InvalidParameter (top key0) self), assign_plain h self pre)
  /\ ((forall kv, In kv pre -> plain (fst kv) = false) ->
      set_params (S fuel) h self (pre ++ (key0, v) :: post)
      = (Err (InvalidParameter (top key0) self), h)).
Proof.
  intros Hg Hpre Hbad.
  assert (Hrun : set_params (S fuel) h self (pre ++ (key0, v) :: post)
                 = (Err (InvalidParameter (top key0) self),
                    assign_plain h self pre)).
  { cbn [set_params].
    destruct (pre ++ (key0, v) :: post)%list as [ | kv params] eqn:E.
    { destruct pre; discriminate. }
    rewrite Hg, <- E.
    destruct (set_params_loop_prefix self valid pre ((key0, v) :: post) Hpre [] h)
      as [nested' ->].
    rewrite set_params_loop_invalid by exact Hbad; reflexivity. }
  split; [exact Hrun | ].
  intros Hnested; rewrite Hrun, assign_plain_nested by exact Hnested.
  reflexivity.
Qed.

(** C8 fails as stated: [set_params(contamination=0.3, bogus=1)] on a
    [BaseDetector(contamination=0.1)] raises, yet [contamination] is 0.3
    afterwards. *)
Lemma set_params_partial_mutation :
  let params := [("contamination", VFloat (3 # 10)); ("bogus", VInt 1)] in
  let run := set_params 2 Examples.h_base 1 params in
  get_params 1 Examples.h_base 1 true = Ok [("contamination", VFloat (1 # 10))]
  /\ fst run = Err (InvalidParameter "bogus" 1)
  /\ get_params 1 (snd run) 1 true = Ok [("contamination", VFloat (3 # 10))]
  /\ snd run <> Examples.h_base.
Proof.
  split_and!; try (vm_compute; reflexivity).
  intros E.
  assert (H : get_params 1 (snd (set_params 2 Examples.h_base 1
                [("contamination", VFloat (3 # 10)); ("bogus", VInt 1)])) 1 true
              = get_params 1 Examples.h_base 1 true) by (rewrite E; reflexivity).
  vm_compute in H; discriminate.
Qed.

End SetParamsFacts.

Module RoundTripFacts.
Import Params Convention Trace RoundTrip ParamsFacts GetParamsFacts SetParamsFacts.

Local Open Scope string_scope.

(** *** Stores that [get_params] cannot tell apart *)

Lemma object_equiv_refl o : object_equiv o o.
Proof. repeat split. Qed.

Lemma store_equiv_refl h : store_equiv h h.
Proof. intros l; destruct (h !! l); [apply object_equiv_refl | exact I]. Qed.

Lemma store_equiv_trans h1 h2 h3 :
  store_equiv h1 h2 -> store_equiv h2 h3 -> store_equiv h1 h3.
Proof.
  intros H12 H23 l; specialize (H12 l); specialize (H23 l).
  destruct (h1 !! l), (h2 !! l), (h3 !! l); try tauto.
  all: destruct H12 as (Hc & Hi & Hg), H23 as (Hc' & Hi' & Hg').
  all: repeat split; try congruence.
  all: intros key; rewrite Hg; apply Hg'.
Qed.

Lemma store_equiv_lookup h h' l o :
  store_equiv h h' -> h !! l = Some o ->
  exists o', h' !! l = Some o' /\ object_equiv o o'.
Proof.
  intros H Ho; specialize (H l); rewrite Ho in H.
  destruct (h' !! l) as [o' | ]; [eauto | contradiction].
Qed.

Lemma has_get_params_equiv h h' v :
  store_equiv h h' -> has_get_params h v = has_get_params h' v.
Proof.
  intros H; destruct v; simpl; try reflexivity.
  specialize (H l); destruct (h !! l), (h' !! l); tauto.
Qed.

Lemma param_names_equiv o o' :
  object_equiv o o' -> _get_param_names o = _get_param_names o'.
Proof.
  intros (_ & Hi & _); rewrite !get_param_names_eq.
  unfold parameters, init_signature; rewrite Hi; reflexivity.
Qed.

Lemma get_params_loop_equiv rec rec' h h' o o' deep names :
  store_equiv h h' -> object_equiv o o' -> (forall l, rec l = rec' l) ->
  forall out,
    get_params_loop rec h o deep names out
    = get_params_loop rec' h' o' deep names out.
Proof.
  intros Hh (Hc & Hi & Hg) Hrec.
  induction names as [ | key names IH]; intros out; simpl; [reflexivity | ].
  rewrite <- Hg, <- (has_get_params_equiv h h' _ Hh).
  destruct (if deep then has_get_params h (getattr o key) else None) as [l | ].
  - rewrite <- Hrec; destruct (rec l); [apply IH | reflexivity].
  - apply IH.
Qed.

Lemma get_params_equiv fuel :
  forall h h' self deep,
    store_equiv h h' ->
    get_params fuel h self deep = get_params fuel h' self deep.
Proof.
  induction fuel as [ | fuel IH]; intros h h' self deep Hh; [reflexivity | ].
  cbn [get_params].
  pose proof (Hh self) as Hs.
  destruct (h !! self) as [o | ], (h' !! self) as [o' | ]; try tauto.
  rewrite <- (param_names_equiv o o' Hs).
  destruct (_get_param_names o) as [names | ]; [ | reflexivity].
  apply get_params_loop_equiv; auto.
Qed.

Lemma setattr_equiv h self o key :
  h !! self = Some o ->
  store_equiv h (setattr h self key (getattr o key)).
Proof.
  intros Ho l; unfold setattr; rewrite Ho.
  destruct (decide (l = self)) as [-> | Hne].
  - rewrite lookup_insert_eq, Ho; repeat split; simpl.
    intros k; unfold getattr at 2; simpl.
    destruct (decide (k = key)) as [-> | Hk].
    + rewrite lookup_insert_eq; reflexivity.
    + rewrite lookup_insert_ne by congruence; reflexivity.
  - rewrite lookup_insert_ne by congruence.
    destruct (h !! l); [apply object_equiv_refl | exact I].
Qed.

Lemma assign_all_equiv h self o names :
  h !! self = Some o ->
  forall h1, store_equiv h h1 -> store_equiv h (assign_all h1 self o names).
Proof.
  intros Ho; induction names as [ | key names IH]; intros h1 H1; [exact H1 | ].
  unfold assign_all; cbn [fold_left]; apply IH.
  destruct (store_equiv_lookup h h1 self o H1 Ho) as (o1 & Ho1 & He).
  eapply store_equiv_trans; [exact H1 | ].
  destruct He as (_ & _ & Hg); rewrite Hg.
  apply setattr_equiv, Ho1.
Qed.

Lemma clean_store_equiv h h' :
  store_equiv h h' -> clean_store h -> clean_store h'.
Proof.
  intros Hh Hc l o' names Ho' Hn.
  specialize (Hh l); rewrite Ho' in Hh.
  destruct (h !! l) as [o | ] eqn:Ho; [ | contradiction].
  apply (Hc l o names Ho).
  rewrite (param_names_equiv o o' Hh); exact Hn.
Qed.

(** *** The first loop of [set_params] on the output of [get_params] *)

Section Nested.
Context {V : Type}.
Implicit Types (d : list (string * V)) (k : string) (v : V).

Lemma dict_get_snoc d k v :
  ~ In k (map fst d) -> dict_get (d ++ [(k, v)]) k = Some v.
Proof.
  induction d as [ | [k0 v0] d IH]; simpl; intros H.
  - rewrite String.eqb_refl; reflexivity.
  - destruct (String.eqb k0 k) eqn:E; [ | apply IH; tauto].
    apply String.eqb_eq in E; tauto.
Qed.

Lemma dict_set_snoc d k v v' :
  ~ In k (map fst d) ->
  dict_set (d ++ [(k, v)]) k v' = (d ++ [(k, v')])%list.
Proof.
  induction d as [ | [k0 v0] d IH]; simpl; intros H.
  - rewrite String.eqb_refl; reflexivity.
  - destruct (String.eqb k0 k) eqn:E.
    + apply String.eqb_eq in E; tauto.
    + rewrite IH by tauto; reflexivity.
Qed.

End Nested.

Lemma nested_set_group nested key items k v :
  ~ In key (map fst nested) ->
  ~ In k (map fst items) ->
  nested_set (nested ++ group key items) key k v
  = (nested ++ group key (items ++ [(k, v)]))%list.
Proof.
  intros Hkey Hk; unfold nested_set.
  destruct items as [ | kv items]; cbn [group app].
  - rewrite app_nil_r.
    assert (dict_get nested key = None) as -> by (apply dict_get_none, Hkey).
    cbn [dict_set]; apply dict_set_fresh, Hkey.
  - rewrite dict_get_snoc by exact Hkey.
    rewrite dict_set_snoc by exact Hkey.
    rewrite (dict_set_fresh (kv :: items) k v Hk); reflexivity.
Qed.

Lemma group_keys key items x :
  In x (map fst (group key items)) -> x = key.
Proof. destruct items; simpl; [tauto | intros [<- | []]; reflexivity]. Qed.

Lemma loop_flattened self valid key rest h :
  clean key = true ->
  dict_mem valid key = true ->
  forall items2 items1 nested,
    ~ In key (map fst nested) ->
    NoDup (map fst (items1 ++ items2)) ->
    set_params_loop self valid (map (flatten key) items2 ++ rest)
                    (nested ++ group key items1) h
    = set_params_loop self valid rest
                      (nested ++ group key (items1 ++ items2)) h.
Proof.
  intros Hc Hv; induction items2 as [ | [k v] items2 IH];
    intros items1 nested Hkey Hnd.
  - rewrite app_nil_r; reflexivity.
  - cbn [map app]; change (flatten key (k, v)) with (key ++ "__" ++ k, v).
    assert (Htop : top (key ++ "__" ++ k) = key)
      by (unfold top; rewrite partition_flat by exact Hc; reflexivity).
    assert (Hplain : plain (key ++ "__" ++ k) = false)
      by (unfold plain; rewrite partition_flat by exact Hc; reflexivity).
    rewrite set_params_loop_step by (rewrite Htop; exact Hv).
    rewrite Hplain, Htop, partition_flat by exact Hc; cbn [snd].
    rewrite nested_set_group.
    + rewrite IH; [ | exact Hkey | rewrite <- app_assoc; exact Hnd].
      rewrite <- app_assoc; reflexivity.
    + exact Hkey.
    + rewrite map_app in Hnd; apply NoDup_remove_2 in Hnd.
      intros Hin; apply Hnd, in_or_app; left; exact Hin.
Qed.

Lemma loop_entries rec self valid h o key e rest nested hc :
  clean key = true ->
  dict_mem valid key = true ->
  (forall l items, rec l = Ok items -> NoDup (map fst items)) ->
  entries rec h o true key = Ok e ->
  ~ In key (map fst nested) ->
  set_params_loop self valid (e ++ rest) nested hc
  = set_params_loop self valid rest
      (nested ++ expected_nested rec h o [key])
      (setattr hc self key (getattr o key)).
Proof.
  intros Hc Hv Hnd He Hkey.
  assert (Hlast : forall nested',
            set_params_loop self valid ((key, getattr o key) :: rest) nested' hc
            = set_params_loop self valid rest nested'
                (setattr hc self key (getattr o key))).
  { intros nested'.
    assert (Hplain : plain key = true)
      by (unfold plain; rewrite partition_plain by exact Hc; reflexivity).
    rewrite set_params_loop_step, Hplain; [reflexivity | ].
    rewrite plain_top by exact Hplain; exact Hv. }
  unfold entries in He; unfold expected_nested; cbn [flat_map].
  rewrite app_nil_r.
  destruct (has_get_params h (getattr o key)) as [l | ].
  - destruct (rec l) as [items | ] eqn:Hrec; [ | discriminate].
    injection He as <-.
    rewrite <- app_assoc.
    rewrite <- (app_nil_r nested) at 1.
    rewrite (loop_flattened self valid key _ hc Hc Hv items [] nested Hkey)
      by (exact (Hnd l items Hrec)).
    apply Hlast.
  - injection He as <-; rewrite app_nil_r; apply Hlast.
Qed.

Lemma expected_nested_keys rec h o names x :
  In x (map fst (expected_nested rec h o names)) -> In x names.
Proof.
  induction names as [ | key names IH]; simpl; [tauto | ].
  rewrite map_app, in_app_iff; intros [H | H]; [left | right; auto].
  destruct (has_get_params h (getattr o key)) as [l | ]; [ | destruct H].
  destruct (rec l); [ | destruct H].
  symmetry; eapply group_keys; eauto.
Qed.

Lemma loop_writes rec self valid h o names :
  NoDup names ->
  Forall (fun key => clean key = true) names ->
  (forall key, In key names -> dict_mem valid key = true) ->
  (forall l items, rec l = Ok items -> NoDup (map fst items)) ->
  forall w nested hc,
    writes rec h o true names = Ok w ->
    (forall key, In key names -> ~ In key (map fst nested)) ->
    set_params_loop self valid w nested hc
    = (Ok (nested ++ expected_nested rec h o names)%list,
       assign_all hc self o names).
Proof.
  induction 1 as [ | key names Hk Hnd IH]; intros Hcl Hv Hrec w nested hc;
    simpl.
  - intros [= <-] _; rewrite app_nil_r; reflexivity.
  - inversion_clear Hcl as [ | ? ? Hc Hcl'].
    destruct (entries rec h o true key) as [e | ] eqn:Ee; [ | discriminate].
    destruct (writes rec h o true names) as [w' | ] eqn:Ew; [ | discriminate].
    intros [= <-] Hfresh.
    rewrite (loop_entries rec self valid h o key e w' nested hc Hc
               (Hv key (or_introl eq_refl)) Hrec Ee
               (Hfresh key (or_introl eq_refl))).
    assert (Hfresh' : forall key', In key' names ->
              ~ In key' (map fst (nested ++ expected_nested rec h o [key]))).
    { intros key' Hin Hx.
      rewrite map_app, in_app_iff in Hx; destruct Hx as [Hx | Hx].
      - apply (Hfresh key'); auto.
      - apply expected_nested_keys in Hx as [<- | []]; contradiction. }
    rewrite (IH Hcl' (fun key' Hin => Hv key' (or_intror Hin)) Hrec w' _ _
               eq_refl Hfresh').
    unfold expected_nested at 1; cbn [flat_map].
    rewrite app_nil_r, <- app_assoc; reflexivity.
Qed.

(** The keys written by [get_params] are distinct when the names are
    distinct and clean. *)
Lemma entries_nodup rec h o key e :
  clean key = true ->
  (forall l items, rec l = Ok items -> NoDup (map fst items)) ->
  entries rec h o true key = Ok e ->
  NoDup (map fst e).
Proof.
  intros Hc Hrec; unfold entries.
  destruct (has_get_params h (getattr o key)) as [l | ].
  - destruct (rec l) as [items | ] eqn:El; [ | discriminate].
    intros [= <-]; rewrite map_app; simpl.
    apply NoDup_app.
    + specialize (Hrec l items El).
      rewrite map_map; simpl.
      clear El; induction items as [ | [k v] items IH]; simpl;
        [constructor | ].
      inversion_clear Hrec as [ | ? ? Hk Hnd]; constructor; auto.
      intros Hin; apply in_map_iff in Hin as ([k' v'] & E & Hin).
      simpl in E; apply append_inj_l, (append_inj_l "__") in E; subst k'.
      apply Hk, in_map_iff; exists (k, v'); auto.
    + repeat constructor; auto.
    + intros x Hx [<- | []].
      rewrite map_map in Hx; apply in_map_iff in Hx as ([k v] & E & _).
      simpl in E; exact (flat_not_plain _ _ _ Hc (eq_sym E)).
  - intros [= <-]; repeat constructor; auto.
Qed.

Lemma writes_nodup rec h o names :
  NoDup names ->
  Forall (fun key => clean key = true) names ->
  (forall l items, rec l = Ok items -> NoDup (map fst items)) ->
  forall w, writes rec h o true names = Ok w -> NoDup (map fst w).
Proof.
  induction 1 as [ | key names Hk Hnd IH]; intros Hcl Hrec w; simpl.
  - intros [= <-]; constructor.
  - inversion_clear Hcl as [ | ? ? Hc Hcl'].
    destruct (entries rec h o true key) as [e | ] eqn:Ee; [ | discriminate].
    destruct (writes rec h o true names) as [w' | ] eqn:Ew; [ | discriminate].
    intros [= <-]; rewrite map_app; apply NoDup_app.
    + eapply entries_nodup; eauto.
    + apply IH; auto.
    + intros x Hx Hx'.
      destruct (writes_keys _ _ _ _ _ _ _ Ew Hx') as (key' & Hk' & Hform).
      rewrite Forall_forall in Hcl'; specialize (Hcl' key' Hk').
      destruct (entries_keys _ _ _ _ _ _ _ Ee Hx) as [-> | (k & ->)];
        destruct Hform as [E | (k' & E)].
      * subst; contradiction.
      * exact (flat_not_plain _ _ _ Hc E).
      * exact (flat_not_plain _ _ _ Hcl' (eq_sym E)).
      * destruct (flat_inj _ _ _ _ Hc Hcl' E) as [-> _]; contradiction.
Qed.

(** *** The round trip *)

Lemma set_params_unfold fuel h self kv params :
  set_params (S fuel) h self (kv :: params)
  = match get_params fuel h self true with
    | Err e => (Err e, h)
    | Ok valid_params =>
        match set_params_loop self valid_params (kv :: params) [] h with
        | (Err e, h') => (Err e, h')
        | (Ok nested_params, h') =>
            set_nested (set_params fuel) valid_params nested_params h'
        end
    end.
Proof. reflexivity. Qed.

Lemma set_nested_round_trip fuel valid h o names :
  round_trips fuel ->
  clean_store h ->
  (forall key, In key names -> dict_get valid key = Some (getattr o key)) ->
  forall h1,
    store_equiv h h1 ->
    exists h2,
      set_nested (set_params (S fuel)) valid
        (expected_nested (fun l => get_params fuel h l true) h o names) h1
      = (Ok tt, h2)
      /\ store_equiv h h2.
Proof.
  intros IHf Hclean; induction names as [ | key names IH]; intros Hv h1 H1.
  - exists h1; split; [reflexivity | exact H1].
  - assert (Hv' : forall key', In key' names ->
                    dict_get valid key' = Some (getattr o key'))
      by (intros; apply Hv; right; assumption).
    unfold expected_nested; cbn [flat_map]; fold (expected_nested
      (fun l => get_params fuel h l true) h o names).
    destruct (has_get_params h (getattr o key)) as [l | ] eqn:El;
      [ | apply IH; assumption].
    destruct (get_params fuel h l true) as [items | ] eqn:Eg;
      [ | apply IH; assumption].
    destruct items as [ | kv items]; [apply IH; assumption | ].
    cbn [group app set_nested].
    rewrite (Hv key (or_introl eq_refl)).
    rewrite <- (has_get_params_equiv h h1 _ H1), El.
    destruct (IHf h1 l (kv :: items)) as (h2 & Hrun & H2).
    + eapply clean_store_equiv; eauto.
    + rewrite <- (get_params_equiv fuel h h1 l true H1); exact Eg.
    + rewrite Hrun; apply IH; [exact Hv' | ].
      eapply store_equiv_trans; eauto.
Qed.

Lemma round_trips_all fuel : round_trips fuel.
Proof.
  induction fuel as [ | fuel IHf]; intros h self m Hclean Hget;
    [discriminate | ].
  pose proof Hget as Hget0.
  cbn [get_params] in Hget.
  destruct (h !! self) as [o | ] eqn:Ho; [ | discriminate].
  destruct (_get_param_names o) as [names | ] eqn:Hn; [ | discriminate].
  destruct (Hclean self o names Ho Hn) as [Hnd Hcl].
  rewrite get_params_loop_writes in Hget.
  destruct (writes (fun l => get_params fuel h l true) h o true names)
    as [w | ] eqn:Hw; [ | discriminate].
  assert (Hrec : forall l items, get_params fuel h l true = Ok items ->
                                 NoDup (map fst items))
    by (intros l items; apply get_params_nodup).
  pose proof (writes_nodup _ h o names Hnd Hcl Hrec w Hw) as Hwnd.
  assert (Hm : m = w).
  { injection Hget as <-; apply (dict_update_fresh w []); exact Hwnd. }
  subst m.
  destruct w as [ | kv w]; [exists h; split; [reflexivity | apply store_equiv_refl] | ].
  rewrite set_params_unfold, Hget0.
  assert (Hv : forall key, In key names ->
                 dict_get (kv :: w) key = Some (getattr o key)).
  { intros key Hin.
    pose proof (writes_top_level _ h o true names (param_names_sorted o names Hn)
                  (kv :: w) [] key Hw Hin) as Htop.
    rewrite (dict_update_fresh (kv :: w) [] Hwnd) in Htop; exact Htop. }
  rewrite (loop_writes (fun l => get_params fuel h l true) self (kv :: w)
             h o names Hnd Hcl) with (nested := []) (hc := h); auto.
  - cbn [app].
    apply (set_nested_round_trip fuel (kv :: w) h o names IHf Hclean Hv).
    apply assign_all_equiv; [exact Ho | apply store_equiv_refl].
  - intros key Hin; unfold dict_mem; rewrite (Hv key Hin); reflexivity.
Qed.

(** C9, as the code has it: when the declared parameter names of every
    estimator in the store are distinct and clean, [set_params] called with
    the mapping that [get_params] returned succeeds, and afterwards
    [get_params] returns the same mapping, on this estimator and on every
    other one. *)
Theorem get_set_params_round_trip fuel h self m :
  clean_store h ->
  get_params fuel h self true = Ok m ->
  exists h',
    set_params (S fuel) h self m = (Ok tt, h')
    /\ get_params fuel h' self true = Ok m
    /\ (forall n l deep, get_params n h' l deep = get_params n h l deep).
Proof.
  intros Hclean Hget.
  destruct (round_trips_all fuel h self m Hclean Hget) as (h' & Hrun & He).
  exists h'; split_and!; [exact Hrun | | ].
  - rewrite <- (get_params_equiv fuel h h' self true He); exact Hget.
  - intros n l deep; symmetry; apply get_params_equiv, He.
Qed.

(** C9 fails as stated: on the composite estimator [T(A0=a, a=a, a_=b)],
    the flattened names of [a]'s parameter [_b] and of [a_]'s parameter [b]
    coincide, the value kept under [a___b] is routed to [a], and the entry
    [A0___b] of the mapping changes from 1 to 2 over the round trip. *)
Lemma round_trip_changes_mapping :
  exists m m' h',
    get_params 2 Examples.h_alias 1 true = Ok m
    /\ set_params 3 Examples.h_alias 1 m = (Ok tt, h')
    /\ get_params 2 h' 1 true = Ok m'
    /\ dict_get m "A0___b" = Some (VInt 1)
    /\ dict_get m' "A0___b" = Some (VInt 2)
    /\ m <> m'.
Proof.
  eexists _, _, _; split_and!; try (vm_compute; reflexivity).
  vm_compute; discriminate.
Qed.

End RoundTripFacts.

(** ** The theorems at concrete instances *)

Module Witnesses.
Import Num Lib Params Convention Trace Examples.

Local Open Scope string_scope.

(** The example of the design document: with contamination 0.1 the scores
    1..100 get ten labels set; the threshold is the double
    90.10000000000001. *)
Example process_one_to_hundred :
  exists thr labels,
    fst (Detector._process_decision_scores sqrt_floor
           (Detector.mk (fl (1 # 10)) tt (Some one_to_hundred) None None None
                        None))
    = Ok tt
    /\ Detector.threshold_
         (snd (Detector._process_decision_scores sqrt_floor
            (Detector.mk (fl (1 # 10)) tt (Some one_to_hundred) None None None
                         None)))
       = Some thr
    /\ thr == 6340223850407527 # 70368744177664
    /\ Detector.labels_
         (snd (Detector._process_decision_scores sqrt_floor
            (Detector.mk (fl (1 # 10)) tt (Some one_to_hundred) None None None
                         None)))
       = Some labels
    /\ count_nonzero (map (fun l => (l =? 1)%Z) labels) = 10%Z.
Proof.
  eexists _, _; split_and!; try (vm_compute; reflexivity).
Qed.



Lemma predict_spec_witness :
  Detector.predict scores_of [2; 6] false fitted5
  = (Ok (Detector.Alone [0; 1]%Z), fitted5).
Proof.
  apply (DetectorFacts.predict_spec scores_of fitted5 [2; 6] (23 # 5)).
  - unfold Detector.fitted; simpl; split_and!; discriminate.
  - reflexivity.
Defined.

(** C2, on a graph without nodes: the labels alone are returned, the empty
    list, but with [return_confidence] the call raises, since
    [np.vectorize] refuses an input of size 0. *)
Theorem predict_empty_graph_raises :
  Detector.predict scores_of [] false fitted5
  = (Ok (Detector.Alone []), fitted5)
  /\ Detector.predict scores_of [] true fitted5
     = (Err (ValueError
               ["cannot call `vectorize` on size 0 inputs unless `otypes` is set"]),
        fitted5).
Proof. split; reflexivity. Qed.

Lemma predict_confidence_spec_witness :
  exists v5 v9,
    Detector.predict_confidence scores_of [5; 9] fitted10
    = (Ok [v5; v9], fitted10)
    /\ ConfidenceSpec.m_double 10 (fl (3 # 10)) = 7%Z
    /\ v5 == 121 # 128
    /\ v9 == 1953125 # 2519424.
Proof.
  destruct (DetectorFacts.predict_confidence_spec scores_of fitted10 [5; 9]
              (one_to 10) (8219069319951155 # 1125899906842624))
    as (Hrun & _).
  - reflexivity.
  - reflexivity.
  - discriminate.
  - split; [vm_compute; reflexivity | vm_compute; discriminate].
  - discriminate.
  - eexists _, _; split_and!; [exact Hrun | | | ]; vm_compute; reflexivity.
Defined.

(** C3, against the exact reading of [n * contamination]: with
    contamination 0.3 and ten training scores the product of the double 0.3
    by 10 is just below 3, so that [n - floor (n * contamination)] is 8,
    while the machine rounds the product to 3.0 and the code uses 7; the
    confidence of the score 5 is [121/128], not [1013/1024]. *)
Theorem predict_confidence_product_is_rounded :
  ConfidenceSpec.m 10 (fl (3 # 10)) = 8%Z
  /\ ConfidenceSpec.m_double 10 (fl (3 # 10)) = 7%Z
  /\ (exists v,
        Detector.predict_confidence scores_of [5] fitted10
        = (Ok [v], fitted10)
        /\ v == 121 # 128)
  /\ ConfidenceSpec.reported (ConfidenceSpec.m 10 (fl (3 # 10))) (one_to 10)
       (8219069319951155 # 1125899906842624) 5
     == 1013 # 1024.
Proof.
  split_and!; try (vm_compute; reflexivity).
  let r := eval vm_compute in
             (Detector.predict_confidence scores_of [5] fitted10) in
  match r with (Ok [?v], _) => exists v end.
  split; vm_compute; reflexivity.
Qed.

(** Trained on the scores 1..5 (mean 3, mean squared deviation 2), with the
    rational stand-ins for [sqrt] and [erf]: the score 1, below the mean,
    gets the outlier probability 0, clipped from a negative value, and the
    score 5 gets [x / (1 + x)] for [x = 2 / 1.41421356]. *)
Lemma predict_proba_unify_spec_witness :
  exists d probs,
    Detector._process_decision_scores sqrt_floor scored5 = (Ok tt, d)
    /\ Detector.predict_proba scores_of erf_rational sqrt_floor [1; 3; 5]
         "unify" false d
       = (Ok (Detector.Alone probs), d)
    /\ (exists v, nth_error probs 0 = Some (Fin (1 - v), Fin v) /\ v == 0)
    /\ (exists v, nth_error probs 2 = Some (Fin (1 - v), Fin v)
                  /\ v == 48828125 # 83354823).
Proof.
  destruct (DetectorFacts.predict_proba_unify_spec
              scores_of erf_rational sqrt_floor scored5 (one_to 5))
    as (d & mu & sigma & Hrun & Hmu & Hsigma & _ & _ & Hproba).
  - reflexivity.
  - discriminate.
  - split; [vm_compute; reflexivity | vm_compute; discriminate].
  - assert (Ed : d = snd (Detector._process_decision_scores sqrt_floor scored5))
      by (rewrite Hrun; reflexivity).
    rewrite Ed in Hmu, Hsigma.
    vm_compute in Hmu; injection Hmu as <-.
    vm_compute in Hsigma; injection Hsigma as <-.
    destruct (Hproba [1; 3; 5]) as (probs & Hp & _ & Hrows).
    exists d, probs; split_and!; [exact Hrun | exact Hp | | ].
    + destruct (Hrows 0%nat 1 eq_refl) as (v & Hv & Ev);
        [vm_compute; discriminate | ].
      exists v; split; [exact Hv | ].
      rewrite Ev; vm_compute; reflexivity.
    + destruct (Hrows 2%nat 5 eq_refl) as (v & Hv & Ev);
        [vm_compute; discriminate | ].
      exists v; split; [exact Hv | ].
      rewrite Ev; vm_compute; reflexivity.
Defined.

Lemma unfitted_calls_fail_witness :
  Detector.predict_confidence scores_of [2; 6] unfitted
  = (Err NotFittedError, unfitted).
Proof.
  apply (DetectorFacts.unfitted_calls_fail scores_of erf_rational sqrt_floor
           unfitted [2; 6]).
  left; reflexivity.
Defined.

Lemma predict_proba_invalid_method_witness :
  Detector.predict_proba scores_of erf_rational sqrt_floor [2; 6] "cubic"
    false fitted5
  = (Err (ValueError
            ["cubic"; "is not a valid probability conversion method"]),
     fitted5).
Proof.
  apply (DetectorFacts.predict_proba_invalid_method scores_of erf_rational
           sqrt_floor fitted5 [2; 6] "cubic" false).
  - unfold Detector.fitted; simpl; split_and!; discriminate.
  - discriminate.
  - discriminate.
Defined.

Lemma sqrt_floor_zero (x : Q) : x == 0 -> sqrt_floor x == 0.
Proof.
  unfold Qeq, sqrt_floor; simpl; intros H.
  assert (Qnum x = 0)%Z as -> by lia.
  reflexivity.
Qed.

Lemma predict_proba_unify_nan_witness :
  exists d,
    Detector._process_decision_scores sqrt_floor
      (Detector.mk (1 # 10) tt (Some [1; 1]) None None None None)
    = (Ok tt, d)
    /\ Detector.predict_proba scores_of erf_rational sqrt_floor [1] "unify"
         false d
       = (Ok (Detector.Alone [(NaN, NaN)]), d).
Proof.
  destruct (DetectorFacts.predict_proba_unify_nan scores_of erf_rational
              sqrt_floor tt [1])
    as (d & Hrun & _ & Hproba & _).
  - exact sqrt_floor_zero.
  - reflexivity.
  - exists d; split; [exact Hrun | exact Hproba].
Defined.

Lemma set_params_invalid_key_witness :
  set_params 2 h_base 1
    [("contamination", VFloat (3 # 10)); ("bogus", VInt 1)]
  = (Err (InvalidParameter "bogus" 1),
     assign_plain h_base 1 [("contamination", VFloat (3 # 10))]).
Proof.
  apply (SetParamsFacts.set_params_invalid_key 1 h_base 1
           [("contamination", VFloat (1 # 10))]
           [("contamination", VFloat (3 # 10))] "bogus" (VInt 1) []).
  - reflexivity.
  - intros kv [<- | []]; reflexivity.
  - reflexivity.
Defined.

Lemma clean_store_nested : clean_store h_nested.
Proof.
  intros l o names Ho Hn; unfold h_nested in Ho.
  destruct (decide (l = 1%positive)) as [-> | H1].
  - rewrite lookup_insert_eq in Ho; injection Ho as <-.
    injection Hn as <-; split; repeat constructor; simpl; intuition discriminate.
  - rewrite lookup_insert_ne in Ho by congruence.
    destruct (decide (l = 2%positive)) as [-> | H2].
    + rewrite lookup_singleton_eq in Ho; injection Ho as <-.
      injection Hn as <-; split; repeat constructor; simpl;
        intuition discriminate.
    + rewrite lookup_singleton_ne in Ho by congruence; discriminate.
Qed.

Lemma get_set_params_round_trip_witness :
  exists h',
    set_params 3 h_nested 2
      [("inner__contamination", VFloat (1 # 10)); ("inner", VObj 1);
       ("scale", VFloat (1 # 2))]
    = (Ok tt, h')
    /\ get_params 2 h' 2 true
       = Ok [("inner__contamination", VFloat (1 # 10)); ("inner", VObj 1);
             ("scale", VFloat (1 # 2))].
Proof.
  destruct (RoundTripFacts.get_set_params_round_trip 2 h_nested 2
              [("inner__contamination", VFloat (1 # 10)); ("inner", VObj 1);
               ("scale", VFloat (1 # 2))])
    as (h' & Hrun & Hget & _).
  - exact clean_store_nested.
  - reflexivity.
  - exists h'; split; [exact Hrun | exact Hget].
Defined.

Lemma nests_within_nested : nests_within h_nested 2 2.
Proof.
  apply (nests_step h_nested 1 2 est_P ["inner"; "scale"]);
    [reflexivity | reflexivity | ].
  intros key l [<- | [<- | []]]; [ | discriminate].
  intros [= <-].
  apply (nests_step h_nested 0 1 base_detector ["contamination"]);
    [reflexivity | reflexivity | ].
  intros key l [<- | []]; discriminate.
Qed.

Lemma get_params_deep_and_shallow_witness :
  exists out,
    get_params 2 h_nested 2 true = Ok out
    /\ dict_get out "inner" = Some (VObj 1)
    /\ dict_get out "inner__contamination" = Some (VFloat (1 # 10)).
Proof.
  destruct (GetParamsFacts.get_params_deep_and_shallow h_nested 1 2 est_P
              ["inner"; "scale"])
    as (_ & out & Hget & Htop & Hflat).
  - reflexivity.
  - reflexivity.
  - exact nests_within_nested.
  - exists out; split_and!; [exact Hget | | ].
    + apply (Htop "inner"); left; reflexivity.
    + destruct (Hflat "inner" 1%positive) as (items & Hitems & _ & Hval).
      * left; reflexivity.
      * reflexivity.
      * injection Hitems as <-.
        apply (Hval ltac:(repeat constructor; simpl; intuition discriminate)
                    ltac:(repeat constructor) "contamination").
        reflexivity.
Defined.

End Witnesses.

(** * Further properties *)

(** ** Order statistics and the threshold *)

Module ThresholdFacts.
Import Num Lib NumFacts LibFacts DetectorNotions.









End ThresholdFacts.

(** ** The detector: construction, fitting and calibration *)

Module DetectorExtras.
Import Num Lib NumFacts LibFacts Detector DetectorNotions ThresholdFacts.

Section Extras.

Context {Graph Model : Type}.
Variable decision_function : @Detector.t Model -> Graph -> list Q.
Variable erf : Q -> Q.
Variable sqrt : Q -> Q.

Abbreviation predict := (Detector.predict decision_function).
Abbreviation predict_confidence := (Detector.predict_confidence decision_function).
Abbreviation predict_proba := (Detector.predict_proba decision_function erf sqrt).
Abbreviation _process_decision_scores := (Detector._process_decision_scores sqrt).
Abbreviation std := (Detector.std sqrt).
Abbreviation processed := (Detector.processed sqrt).

Lemma predict_run (d : @t Model) G thr :
  fitted d ->
  threshold_ d = Some thr ->
  predict G false d = (Ok (Alone (above thr (decision_function d G))), d).
Proof.
  intros Hf Ht; unfold Detector.predict.
  rewrite (DetectorFacts.bind_ok _ _ d tt d)
    by (apply DetectorFacts.check_is_fitted_ok, Hf).
  unfold bind, getattr; rewrite Ht; reflexivity.
Qed.

Lemma processed_fitted (d : @t Model) scores thr :
  decision_scores_ d = Some scores -> fitted (processed d scores thr).
Proof.
  intros Hs; unfold fitted, Detector.processed; simpl; rewrite Hs.
  split_and!; discriminate.
Qed.

(** The constructor accepts exactly the contaminations in (0, 0.5]; the
    detector it returns has no fitted attribute, so every prediction method
    raises the not-fitted error on it and the post-processor fails on the
    missing scores. *)
Theorem init_spec (c : Q) (model : Model) :
  (0 < c <= 1 # 2 ->
   __init__ c model = Ok (mk c model None None None None None))
  /\ (~ 0 < c <= 1 # 2 ->
      exists msg, __init__ c model = Err (ValueError msg))
  /\ (forall d, __init__ c model = Ok d ->
        forall G,
          (forall rc, predict G rc d = (Err NotFittedError, d))
          /\ (forall method rc,
                predict_proba G method rc d = (Err NotFittedError, d))
          /\ predict_confidence G d = (Err NotFittedError, d)
          /\ _process_decision_scores d
             = (Err (AttributeError "decision_scores_"), d)).
Proof.
  unfold __init__.
  destruct (Qltb 0 c && Qle_bool c (1 # 2)) eqn:E; simpl.
  - apply andb_true_iff in E as [E1 E2].
    apply Qltb_true in E1; apply Qle_bool_iff in E2.
    split_and!; [reflexivity | tauto | ].
    intros d [= <-] G.
    assert (Hc : check_is_fitted (mk c model None None None None None)
                 = (Err NotFittedError, mk c model None None None None None))
      by reflexivity.
    split_and!; intros;
      unfold Detector.predict, Detector.predict_proba,
        Detector.predict_confidence;
      try (apply DetectorFacts.bind_err, Hc).
    reflexivity.
  - split_and!; [ | eauto | discriminate].
    intros [H1 H2]; apply Qltb_true in H1; apply Qle_bool_iff in H2.
    rewrite H1, H2 in E; discriminate.
Qed.


(** Scoring the training graph again reproduces [labels_]. *)
Theorem predict_training_graph (d : @t Model) scores G :
  decision_scores_ d = Some scores ->
  scores <> [] ->
  0 < contamination d <= 1 # 2 ->
  exists d' labels,
    _process_decision_scores d = (Ok tt, d')
    /\ labels_ d' = Some labels
    /\ (decision_function d' G = scores ->
        predict G false d' = (Ok (Alone labels), d')).
Proof.
  intros Hs Hne Hc.
  destruct (DetectorFacts.process_ok sqrt d scores Hs Hne Hc)
    as (thr & Hp & Hrun).
  exists (processed d scores thr), (above thr scores); split_and!.
  - exact Hrun.
  - reflexivity.
  - intros HG.
    rewrite (predict_run _ G thr (processed_fitted d scores thr Hs) eq_refl).
    rewrite HG; reflexivity.
Qed.

(** Running the post-processor again changes nothing. *)
Theorem process_idempotent (d d' : @t Model) :
  _process_decision_scores d = (Ok tt, d') ->
  _process_decision_scores d' = (Ok tt, d').
Proof.
  intros Hrun.
  destruct (DetectorFacts.process_all_or_nothing sqrt d)
    as [(e & He) | (scores & thr & Hs & Hp & Hr)]; [congruence | ].
  rewrite Hr in Hrun; injection Hrun as <-.
  rewrite (DetectorFacts.process_run sqrt (processed d scores thr) scores thr);
    [reflexivity | exact Hs | exact Hp].
Qed.

(** Asking [predict_proba] for the confidence changes neither the
    probabilities nor an error: the probabilities are paired with the result
    of [predict_confidence]. *)
Theorem predict_proba_return_confidence (d : @t Model) G method :
  predict_proba G method true d
  = match predict_proba G method false d with
    | (Ok (Alone probs), _) =>
        (match fst (predict_confidence G d) with
         | Ok confidence => Ok (WithConfidence probs confidence)
         | Err e => Err e
         end, d)
    | (r, _) => (r, d)
    end.
Proof.
  pose proof (DetectorFacts.predict_confidence_read_only decision_function G d)
    as Hro.
  unfold Detector.predict_proba, bind, check_is_fitted, getattr, lift, ret,
    raise.
  cbv beta.
  destruct (isSome (decision_scores_ d) && isSome (threshold_ d)
            && isSome (labels_ d)); [ | reflexivity].
  destruct (decision_scores_ d) as [train | ]; [ | reflexivity].
  destruct (String.eqb method "linear").
  - destruct (MinMaxScaler_fit train) as [scaler | e]; [ | reflexivity].
    destruct (MinMaxScaler_transform scaler (decision_function d G))
      as [scaled | e]; [ | reflexivity].
    destruct (Detector.predict_confidence decision_function G d)
      as [[c | e] d1]; simpl in *; subst; reflexivity.
  - destruct (String.eqb method "unify"); [ | reflexivity].
    destruct (_mu d) as [mu | ]; [ | reflexivity].
    destruct (_sigma d) as [sigma | ]; [ | reflexivity].
    destruct (Detector.predict_confidence decision_function G d)
      as [[c | e] d1]; simpl in *; subst; reflexivity.
Qed.

(** *** The linear calibration *)

Lemma minimum_glb (x : Q) (l : list Q) (z : Q) :
  z <= x -> (forall s, In s l -> z <= s) -> z <= minimum x l.
Proof.
  intros Hx; induction l as [ | a l IH]; simpl; intros H; [exact Hx | ].
  apply Q.min_glb; auto.
Qed.

Lemma clip_mono (lo hi a b : Q) :
  lo <= hi -> a <= b -> clip lo hi a <= clip lo hi b.
Proof.
  intros Hlh Hab; unfold clip.
  destruct (Qltb a lo) eqn:Ea, (Qltb b lo) eqn:Eb,
    (Qltb hi a) eqn:Fa, (Qltb hi b) eqn:Fb;
    rewrite ?Qltb_true, ?Qltb_false in *; lra.
Qed.

Lemma clip_low (v : Q) : v <= 0 -> clip 0 1 v == 0.
Proof.
  intros H; unfold clip.
  destruct (Qltb v 0) eqn:E0; [reflexivity | ].
  apply Qltb_false in E0.
  destruct (Qltb 1 v) eqn:E1; [apply Qltb_true in E1; lra | lra].
Qed.

(** The "linear" method is monotone in the test score, and a score at or
    below every training score gets the outlier probability 0.  (A score at
    or above every training score need not get 1: a training range below
    [10 * eps] is not rescaled.) *)
Theorem linear_probability_monotone (d : @t Model) G train :
  fitted d ->
  decision_scores_ d = Some train ->
  train <> [] ->
  decision_function d G <> [] ->
  exists prob : Q -> Q,
    predict_proba G "linear" false d
    = (Ok (Alone (map (fun x => (Fin (1 - prob x), Fin (prob x)))
                      (decision_function d G))), d)
    /\ (forall x y, x <= y -> prob x <= prob y)
    /\ (forall x, (forall s, In s train -> x <= s) -> prob x == 0).
Proof.
  intros Hf Hs Hne Hg.
  destruct train as [ | x0 X]; [congruence | ].
  set (mn := minimum x0 X); set (mx := maximum x0 X).
  set (scale := (1 - 0) / handle_zeros_in_scale (fl (mx - mn))).
  assert (Hh : 0 < handle_zeros_in_scale (fl (mx - mn))).
  { unfold handle_zeros_in_scale.
    destruct (Qltb (fl (mx - mn)) (10 * eps)) eqn:E; [reflexivity | ].
    apply Qltb_false in E.
    assert (0 < 10 * eps) by reflexivity; lra. }
  assert (Hscale : 0 < scale).
  { unfold scale; apply Qlt_shift_div_l; [exact Hh | lra]. }
  exists (fun x => clip 0 1 (x * scale + (0 - mn * scale))); split_and!.
  - unfold Detector.predict_proba.
    rewrite (DetectorFacts.bind_ok _ _ d tt d)
      by (apply DetectorFacts.check_is_fitted_ok, Hf).
    unfold bind, getattr, lift; rewrite Hs; cbn [MinMaxScaler_fit].
    destruct (decision_function d G) as [ | s scores]; [congruence | ].
    cbn [MinMaxScaler_transform min_ scale_]; unfold ret, rows.
    rewrite !map_map; reflexivity.
  - intros x y Hxy; apply clip_mono; [lra | ].
    assert (x * scale <= y * scale)
      by (apply Qmult_le_compat_r; lra).
    lra.
  - intros x Hx; apply clip_low.
    assert (Hxm : x <= mn).
    { apply minimum_glb; [apply Hx; left; reflexivity | ].
      intros s Hin; apply Hx; right; exact Hin. }
    assert ((x - mn) * scale <= 0 * scale)
      by (apply Qmult_le_compat_r; lra).
    lra.
Qed.

(** *** The unify calibration without deviation *)

(** When the standard deviation of the training scores is zero, "unify"
    gives 1 above the training mean, 0 below it and nan at it. *)
Theorem unify_zero_deviation (d : @t Model) G mu sigma :
  fitted d ->
  _mu d = Some mu ->
  _sigma d = Some sigma ->
  sigma * sqrt 2 == 0 ->
  exists probs,
    predict_proba G "unify" false d = (Ok (Alone probs), d)
    /\ forall i x,
        nth_error (decision_function d G) i = Some x ->
        (mu < x -> nth_error probs i = Some (Fin (1 - 1), Fin 1))
        /\ (x < mu -> nth_error probs i = Some (Fin (1 - 0), Fin 0))
        /\ (x == mu -> nth_error probs i = Some (NaN, NaN)).
Proof.
  intros Hf Hmu Hsigma Hz.
  rewrite (DetectorFacts.predict_proba_unify_run decision_function erf sqrt
             d G mu sigma Hf Hmu Hsigma).
  eexists; split; [reflexivity | ].
  intros i x Hi; rewrite nth_error_map, Hi; simpl.
  unfold Detector.unify_probability, fdiv.
  apply Qeq_bool_iff in Hz; rewrite Hz.
  split_and!; intros Hx.
  - assert (E0 : Qeq_bool (x - mu) 0 = false).
    { destruct (Qeq_bool (x - mu) 0) eqn:E; [ | reflexivity].
      apply Qeq_bool_iff in E; lra. }
    assert (E1 : Qltb 0 (x - mu) = true) by (apply Qltb_true; lra).
    rewrite E0, E1; reflexivity.
  - assert (E0 : Qeq_bool (x - mu) 0 = false).
    { destruct (Qeq_bool (x - mu) 0) eqn:E; [ | reflexivity].
      apply Qeq_bool_iff in E; lra. }
    assert (E1 : Qltb 0 (x - mu) = false) by (apply Qltb_false; lra).
    rewrite E0, E1; reflexivity.
  - assert (E0 : Qeq_bool (x - mu) 0 = true) by (apply Qeq_bool_iff; lra).
    rewrite E0; reflexivity.
Qed.

End Extras.
End DetectorExtras.

(** ** Parameter names and [get_params] *)

Module ParamsExtras.
Import Params Convention Trace ParamsNotions ParamsFacts GetParamsFacts
  SetParamsFacts.

Local Open Scope string_scope.

Lemma insert_name_perm (x : string) (l : list string) :
  Permutation (x :: l) (insert_name x l).
Proof.
  induction l as [ | y l IH]; simpl; [reflexivity | ].
  destruct (String.leb x y); [reflexivity | ].
  rewrite perm_swap; constructor; exact IH.
Qed.

Lemma sorted_perm (l : list string) : Permutation l (sorted l).
Proof.
  induction l as [ | x l IH]; simpl; [constructor | ].
  rewrite <- insert_name_perm; constructor; exact IH.
Qed.

(** [_get_param_names], called on the instance as [get_params] calls it,
    returns only for a class with a constructor of its own, none of whose
    parameters is a [*args] parameter: then it gives, in ascending order,
    the names of the constructor parameters other than [self] and the
    [**kwargs] collector. *)
Theorem get_param_names_spec (o : object) (names : list string) :
  _get_param_names o = Ok names ->
  exists init_signature,
    init o = Some init_signature
    /\ StronglySorted below names
    /\ Permutation names (map name (filter declared init_signature))
    /\ ~ In "self" names
    /\ Forall (fun p => pkind p <> VAR_POSITIONAL)
              (filter declared init_signature).
Proof.
  rewrite get_param_names_eq; unfold parameters, init_signature.
  destruct (init o) as [sig | ]; [ | discriminate].
  change (filter _ sig) with (filter declared sig).
  destruct (existsb _ (filter declared sig)) eqn:E; [discriminate | ].
  intros [= <-]; exists sig; split_and!.
  - reflexivity.
  - apply sorted_sorted.
  - symmetry; apply sorted_perm.
  - rewrite sorted_in, in_map_iff; intros (p & Hn & Hp).
    apply filter_In in Hp as [_ Hd]; unfold declared in Hd.
    rewrite Hn, String.eqb_refl in Hd; discriminate.
  - apply Forall_forall; intros p Hp Hk.
    assert (existsb (fun p => kind_eqb (pkind p) VAR_POSITIONAL)
                    (filter declared sig) = true)
      by (apply existsb_exists; exists p; rewrite Hk; auto).
    congruence.
Qed.

Lemma param_names_varargs (o : object) p :
  In p (init_signature o) -> name p <> "self" ->
  pkind p = VAR_POSITIONAL ->
  _get_param_names o = Err RecursionError.
Proof.
  intros Hp Hn Hk; rewrite get_param_names_eq.
  assert (E : existsb (fun p => kind_eqb (pkind p) VAR_POSITIONAL)
                      (parameters o) = true).
  { apply existsb_exists; exists p; split; [ | rewrite Hk; reflexivity].
    apply filter_In; split; [exact Hp | ].
    rewrite Hk; apply String.eqb_neq in Hn; rewrite Hn.
    reflexivity. }
  rewrite E; reflexivity.
Qed.

(** An estimator whose constructor takes [*args], and likewise one whose
    class has no constructor of its own, cannot be introspected.  The
    message of the convention error is formatted with the instance itself,
    whose [__repr__] asks for the parameters again, so what the caller gets
    is the interpreter's [RecursionError]: from [get_params], from
    [__repr__] and from [set_params] with any keyword, before anything is
    changed.  Only [set_params()] without keywords returns, since it skips
    the introspection. *)
Theorem varargs_rejected h self o p fuel deep kv params :
  h !! self = Some o ->
  In p (init_signature o) -> name p <> "self" -> pkind p = VAR_POSITIONAL ->
  _get_param_names o = Err RecursionError
  /\ get_params (S fuel) h self deep = Err RecursionError
  /\ (forall str_float printer,
        Repr.__repr__ str_float printer (S fuel) h self
        = Err RecursionError)
  /\ set_params (S (S fuel)) h self (kv :: params) = (Err RecursionError, h)
  /\ set_params (S fuel) h self [] = (Ok tt, h).
Proof.
  intros Ho Hp Hn Hk.
  pose proof (param_names_varargs o p Hp Hn Hk) as Hnames.
  assert (Hget : forall deep', get_params (S fuel) h self deep'
                               = Err RecursionError)
    by (intros deep'; cbn [get_params]; rewrite Ho, Hnames; reflexivity).
  split_and!; [exact Hnames | apply Hget | | | reflexivity].
  - intros str_float printer; unfold Repr.__repr__.
    rewrite Ho, Hget; reflexivity.
  - rewrite RoundTripFacts.set_params_unfold, Hget; reflexivity.
Qed.

Lemma shallow_mapping h self o names fuel :
  h !! self = Some o ->
  _get_param_names o = Ok names ->
  NoDup names ->
  get_params (S fuel) h self false
  = Ok (map (fun key => (key, getattr o key)) names).
Proof.
  intros Ho Hn Hnd.
  rewrite (get_params_unfold fuel h self false o names Ho Hn), writes_shallow.
  f_equal; apply (dict_update_fresh _ []); simpl.
  rewrite map_map; simpl; rewrite map_id; exact Hnd.
Qed.

(** [get_params(deep=False)] needs one level only, whatever the nested
    estimators are: it lists the declared names in ascending order, each
    with the value of the attribute of that name, or [None] without one. *)
Theorem get_params_shallow h self o names fuel :
  h !! self = Some o ->
  _get_param_names o = Ok names ->
  NoDup names ->
  get_params (S fuel) h self false
  = Ok (map (fun key => (key, getattr o key)) names)
  /\ StronglySorted below names.
Proof.
  intros Ho Hn Hnd; split.
  - apply (shallow_mapping h self o names fuel Ho Hn Hnd).
  - apply (param_names_sorted o names Hn).
Qed.

Lemma entries_origin rec h o key e x :
  entries rec h o true key = Ok e ->
  In x (map fst e) ->
  x = key
  \/ exists l items k,
       has_get_params h (getattr o key) = Some l
       /\ rec l = Ok items /\ In k (map fst items)
       /\ x = key ++ "__" ++ k.
Proof.
  unfold entries.
  destruct (has_get_params h (getattr o key)) as [l | ].
  - destruct (rec l) as [items | ] eqn:El; [ | discriminate].
    intros [= <-]; rewrite map_app, in_app_iff, map_map; simpl.
    intros [Hin | [<- | []]]; [right | left; reflexivity].
    apply in_map_iff in Hin as ([k v] & <- & Hin).
    exists l, items, k; split_and!; auto.
    apply in_map_iff; exists (k, v); auto.
  - intros [= <-]; simpl; intros [<- | []]; left; reflexivity.
Qed.

Lemma writes_origin rec h o names :
  forall w x,
    writes rec h o true names = Ok w ->
    In x (map fst w) ->
    In x names
    \/ exists key l items k,
         In key names
         /\ has_get_params h (getattr o key) = Some l
         /\ rec l = Ok items /\ In k (map fst items)
         /\ x = key ++ "__" ++ k.
Proof.
  induction names as [ | key names IH]; simpl; intros w x.
  - intros [= <-] [].
  - destruct (entries rec h o true key) as [e | ] eqn:Ee; [ | discriminate].
    destruct (writes rec h o true names) as [w' | ]; [ | discriminate].
    intros [= <-]; rewrite map_app, in_app_iff; intros [Hin | Hin].
    + destruct (entries_origin _ _ _ _ _ _ Ee Hin)
        as [-> | (l & items & k & H1 & H2 & H3 & H4)]; [auto | ].
      right; exists key, l, items, k; auto.
    + destruct (IH w' x eq_refl Hin)
        as [H | (key' & l & items & k & H0 & H1 & H2 & H3 & H4)]; [auto | ].
      right; exists key', l, items, k; auto.
Qed.

Lemma declared_keys_present fuel h self o names out :
  h !! self = Some o ->
  _get_param_names o = Ok names ->
  get_params (S fuel) h self true = Ok out ->
  forall key, In key names -> dict_mem out key = true.
Proof.
  intros Ho Hn Hget key Hin.
  rewrite (get_params_unfold fuel h self true o names Ho Hn) in Hget.
  destruct (writes (fun l => get_params fuel h l true) h o true names)
    as [w | ] eqn:Hw; [ | discriminate].
  injection Hget as <-; unfold dict_mem.
  rewrite (writes_top_level _ h o true names (param_names_sorted o names Hn)
             w [] key Hw Hin); reflexivity.
Qed.

(** The keys of the mapping returned by [get_params(deep=True)] are
    distinct; they are the declared names, all of them, and the flattened
    names [key__k] for the keys [k] of the mapping of a nested estimator
    held by [key], and nothing else. *)
Theorem get_params_keys fuel h self o names out :
  h !! self = Some o ->
  _get_param_names o = Ok names ->
  get_params (S fuel) h self true = Ok out ->
  NoDup (map fst out)
  /\ (forall key, In key names -> In key (map fst out))
  /\ (forall x, In x (map fst out) ->
        In x names
        \/ exists key l items k,
             In key names
             /\ has_get_params h (getattr o key) = Some l
             /\ get_params fuel h l true = Ok items
             /\ In k (map fst items)
             /\ x = key ++ "__" ++ k).
Proof.
  intros Ho Hn Hget.
  pose proof (get_params_nodup _ _ _ _ _ Hget) as Hnd.
  pose proof (declared_keys_present fuel h self o names out Ho Hn Hget) as Hk.
  rewrite (get_params_unfold fuel h self true o names Ho Hn) in Hget.
  destruct (writes (fun l => get_params fuel h l true) h o true names)
    as [w | ] eqn:Hw; [ | discriminate].
  injection Hget as <-; split_and!; [exact Hnd | | ].
  - intros key Hin; apply dict_mem_in, Hk, Hin.
  - intros x Hx; apply dict_update_keys in Hx as [[] | Hx].
    apply (writes_origin _ h o names w x Hw Hx).
Qed.

Lemma writes_failure rec h o names key l e :
  In key names ->
  has_get_params h (getattr o key) = Some l ->
  rec l = Err e ->
  exists e', writes rec h o true names = Err e'.
Proof.
  intros Hin Hl He; induction names as [ | key0 names IH]; [destruct Hin | ].
  simpl.
  destruct (entries rec h o true key0) as [w0 | e0] eqn:E0; [ | eauto].
  destruct Hin as [-> | Hin].
  - unfold entries in E0; rewrite Hl, He in E0; discriminate.
  - destruct (IH Hin) as [e' ->]; eauto.
Qed.

(** When a nested estimator cannot be introspected, [get_params(deep=True)]
    of the estimator that holds it fails too, while [deep=False], which does
    not look into it, still returns. *)
Theorem get_params_nested_failure fuel h self o names key l e :
  h !! self = Some o ->
  _get_param_names o = Ok names ->
  In key names ->
  has_get_params h (getattr o key) = Some l ->
  get_params fuel h l true = Err e ->
  (exists e', get_params (S fuel) h self true = Err e')
  /\ exists out, get_params (S fuel) h self false = Ok out.
Proof.
  intros Ho Hn Hin Hl He; split.
  - rewrite (get_params_unfold fuel h self true o names Ho Hn).
    destruct (writes_failure (fun l => get_params fuel h l true) h o names
                key l e Hin Hl He) as [e' ->]; eauto.
  - rewrite (get_params_unfold fuel h self false o names Ho Hn).
    rewrite writes_shallow; eauto.
Qed.

End ParamsExtras.

(** ** [set_params] *)

Module SetParamsExtras.
Import Params Convention Trace ParamsNotions ParamsFacts GetParamsFacts
  SetParamsFacts ParamsExtras.

Local Open Scope string_scope.

Lemma dict_get_app {V : Type} (a b : list (string * V)) (k : string) :
  dict_get (a ++ b) k
  = match dict_get a k with Some v => Some v | None => dict_get b k end.
Proof.
  induction a as [ | [k0 v0] a IH]; simpl; [reflexivity | ].
  destruct (String.eqb k0 k); [reflexivity | exact IH].
Qed.

(** *** Plain keywords *)

Lemma set_params_loop_plain self valid params :
  (forall kv, In kv params ->
              plain (fst kv) = true /\ dict_mem valid (fst kv) = true) ->
  forall nested h,
    set_params_loop self valid params nested h
    = (Ok nested, assign_plain h self params).
Proof.
  induction params as [ | [key v] params IH]; intros Hp nested h;
    [reflexivity | ].
  destruct (Hp (key, v) (or_introl eq_refl)) as [Hplain Hvalid];
    simpl in Hplain, Hvalid.
  rewrite set_params_loop_step
    by (rewrite plain_top by exact Hplain; exact Hvalid).
  unfold assign_plain; cbn [fold_left fst snd]; rewrite Hplain.
  apply IH; intros kv Hkv; apply Hp; right; exact Hkv.
Qed.

Lemma set_params_plain_run fuel h self valid params :
  get_params fuel h self true = Ok valid ->
  (forall kv, In kv params ->
              plain (fst kv) = true /\ dict_mem valid (fst kv) = true) ->
  set_params (S fuel) h self params = (Ok tt, assign_plain h self params).
Proof.
  intros Hget Hp.
  destruct params as [ | kv params]; [reflexivity | ].
  rewrite RoundTripFacts.set_params_unfold, Hget.
  rewrite (set_params_loop_plain self valid (kv :: params) Hp [] h).
  reflexivity.
Qed.

Lemma setattr_lookup h self o key v :
  h !! self = Some o ->
  setattr h self key v !! self
  = Some {| class_name := class_name o; init := init o;
            attrs := <[key := v]> (attrs o) |}
  /\ forall l, l <> self -> setattr h self key v !! l = h !! l.
Proof.
  intros Ho; unfold setattr; rewrite Ho; split.
  - apply lookup_insert_eq.
  - intros l Hl; apply lookup_insert_ne; congruence.
Qed.

Lemma getattr_insert o key v key' :
  getattr {| class_name := class_name o; init := init o;
             attrs := <[key := v]> (attrs o) |} key'
  = if String.eqb key key' then v else getattr o key'.
Proof.
  unfold getattr; simpl.
  destruct (String.eqb key key') eqn:E.
  - apply String.eqb_eq in E; subst; rewrite lookup_insert_eq; reflexivity.
  - apply String.eqb_neq in E; rewrite lookup_insert_ne by exact E.
    reflexivity.
Qed.

Lemma assign_plain_lookup self params :
  (forall kv, In kv params -> plain (fst kv) = true) ->
  forall h o,
    h !! self = Some o ->
    exists o',
      assign_plain h self params !! self = Some o'
      /\ class_name o' = class_name o /\ init o' = init o
      /\ (forall key, getattr o' key = assigned params (getattr o) key)
      /\ (forall l, l <> self -> assign_plain h self params !! l = h !! l).
Proof.
  induction params as [ | [k v] params IH]; intros Hp h o Ho.
  - exists o; split_and!; auto.
  - pose proof (Hp (k, v) (or_introl eq_refl)) as Hk; simpl in Hk.
    unfold assign_plain; cbn [fold_left fst snd]; rewrite Hk.
    destruct (setattr_lookup h self o k v Ho) as [Hself Hother].
    destruct (IH (fun kv H => Hp kv (or_intror H)) _ _ Hself)
      as (o' & Ho' & Hc & Hi & Hg & Hl).
    exists o'; split_and!; auto.
    + intros key; rewrite Hg; unfold assigned; cbn [rev].
      rewrite dict_get_app, getattr_insert.
      destruct (dict_get (rev params) key); [reflexivity | ].
      simpl; destruct (String.eqb k key); reflexivity.
    + intros l Hne.
      transitivity (setattr h self k v !! l);
        [apply (Hl l Hne) | apply Hother, Hne].
Qed.

(** Assigning plain keywords that name declared parameters succeeds and
    touches this estimator only: afterwards [get_params(deep=False)] shows
    for each parameter the last value given for it, or the value it had. *)
Theorem set_params_plain fuel h self o names valid params :
  h !! self = Some o ->
  _get_param_names o = Ok names ->
  NoDup names ->
  get_params fuel h self true = Ok valid ->
  (forall kv, In kv params -> plain (fst kv) = true /\ In (fst kv) names) ->
  exists h',
    set_params (S fuel) h self params = (Ok tt, h')
    /\ (forall l, l <> self -> h' !! l = h !! l)
    /\ (forall n,
          get_params (S n) h' self false
          = Ok (map (fun key => (key, assigned params (getattr o) key))
                    names)).
Proof.
  intros Ho Hn Hnd Hget Hp.
  assert (Hvalid : forall key, In key names -> dict_mem valid key = true).
  { destruct fuel as [ | fuel]; [discriminate | ].
    intros key Hin.
    apply (declared_keys_present fuel h self o names valid Ho Hn Hget key Hin). }
  exists (assign_plain h self params).
  destruct (assign_plain_lookup self params (fun kv H => proj1 (Hp kv H)) h o Ho)
    as (o' & Ho' & Hc & Hi & Hg & Hl).
  split_and!.
  - apply (set_params_plain_run fuel h self valid); [exact Hget | ].
    intros kv Hkv; destruct (Hp kv Hkv); auto.
  - exact Hl.
  - intros n.
    assert (Hn' : _get_param_names o' = Ok names)
      by (rewrite get_param_names_eq in *; unfold parameters, init_signature in *;
          rewrite Hi; exact Hn).
    rewrite (shallow_mapping _ self o' names n Ho' Hn' Hnd).
    f_equal; apply map_ext; intros key; rewrite Hg; reflexivity.
Qed.

(** *** Nested keywords *)

(** A keyword [key__sub] whose [key] holds a nested estimator is passed on
    to that estimator: the call amounts to [setattr(nested, sub, v)]. *)
Theorem set_params_nested fuel h self key sub v l valid valid_l :
  clean key = true ->
  plain sub = true ->
  get_params (S fuel) h self true = Ok valid ->
  dict_get valid key = Some (VObj l) ->
  get_params fuel h l true = Ok valid_l ->
  dict_mem valid_l sub = true ->
  set_params (S (S fuel)) h self [(key ++ "__" ++ sub, v)]
  = (Ok tt, setattr h l sub v).
Proof.
  intros Hc Hplain Hget Hkey Hget_l Hsub.
  rewrite RoundTripFacts.set_params_unfold, Hget.
  assert (Htop : top (key ++ "__" ++ sub) = key)
    by (unfold top; rewrite partition_flat by exact Hc; reflexivity).
  assert (Hnp : plain (key ++ "__" ++ sub) = false)
    by (unfold plain; rewrite partition_flat by exact Hc; reflexivity).
  rewrite set_params_loop_step
    by (rewrite Htop; unfold dict_mem; rewrite Hkey; reflexivity).
  rewrite Hnp, Htop, partition_flat by exact Hc.
  cbn [snd set_params_loop nested_set dict_get dict_set set_nested].
  rewrite Hkey.
  assert (Hl : has_get_params h (VObj l) = Some l).
  { destruct fuel as [ | fuel]; [discriminate | ].
    simpl; cbn [get_params] in Hget_l.
    destruct (h !! l); [reflexivity | discriminate]. }
  rewrite Hl.
  rewrite (set_params_plain_run fuel h l valid_l [(sub, v)] Hget_l).
  - unfold assign_plain; simpl; rewrite Hplain; reflexivity.
  - intros kv [<- | []]; simpl; auto.
Qed.

(** The same keyword on a parameter whose value is no estimator fails with
    an attribute error; nothing is changed. *)
Theorem set_params_nested_not_estimator fuel h self key sub x valid v :
  clean key = true ->
  get_params fuel h self true = Ok valid ->
  dict_get valid key = Some v ->
  has_get_params h v = None ->
  set_params (S fuel) h self [(key ++ "__" ++ sub, x)]
  = (Err (AttributeError "set_params"), h).
Proof.
  intros Hc Hget Hkey Hv.
  rewrite RoundTripFacts.set_params_unfold, Hget.
  assert (Htop : top (key ++ "__" ++ sub) = key)
    by (unfold top; rewrite partition_flat by exact Hc; reflexivity).
  assert (Hnp : plain (key ++ "__" ++ sub) = false)
    by (unfold plain; rewrite partition_flat by exact Hc; reflexivity).
  rewrite set_params_loop_step
    by (rewrite Htop; unfold dict_mem; rewrite Hkey; reflexivity).
  rewrite Hnp, Htop, partition_flat by exact Hc.
  cbn [snd set_params_loop nested_set dict_get dict_set set_nested].
  rewrite Hkey, Hv; reflexivity.
Qed.

(** A keyword [key__sub] given together with a new value for [key] still
    reaches the estimator that [key] held when [set_params] was entered, not
    the one the same call installs. *)
Theorem set_params_replaced_estimator fuel h self key sub v l1 l2 valid
    valid_l :
  clean key = true ->
  plain sub = true ->
  get_params (S fuel) h self true = Ok valid ->
  dict_get valid key = Some (VObj l1) ->
  get_params fuel (setattr h self key (VObj l2)) l1 true = Ok valid_l ->
  dict_mem valid_l sub = true ->
  set_params (S (S fuel)) h self [(key, VObj l2); (key ++ "__" ++ sub, v)]
  = (Ok tt, setattr (setattr h self key (VObj l2)) l1 sub v).
Proof.
  intros Hc Hplain Hget Hkey Hget_l Hsub.
  rewrite RoundTripFacts.set_params_unfold, Hget.
  assert (Hmem : dict_mem valid key = true)
    by (unfold dict_mem; rewrite Hkey; reflexivity).
  assert (Hpk : plain key = true)
    by (unfold plain; rewrite partition_plain by exact Hc; reflexivity).
  assert (Htop : top (key ++ "__" ++ sub) = key)
    by (unfold top; rewrite partition_flat by exact Hc; reflexivity).
  assert (Hnp : plain (key ++ "__" ++ sub) = false)
    by (unfold plain; rewrite partition_flat by exact Hc; reflexivity).
  rewrite set_params_loop_step
    by (rewrite plain_top by exact Hpk; exact Hmem).
  rewrite Hpk.
  rewrite set_params_loop_step by (rewrite Htop; exact Hmem).
  rewrite Hnp, Htop, partition_flat by exact Hc.
  cbn [snd set_params_loop nested_set dict_get dict_set set_nested].
  rewrite Hkey.
  set (h1 := setattr h self key (VObj l2)) in *.
  assert (Hl : has_get_params h1 (VObj l1) = Some l1).
  { destruct fuel as [ | fuel]; [discriminate | ].
    simpl; cbn [get_params] in Hget_l.
    destruct (h1 !! l1); [reflexivity | discriminate]. }
  rewrite Hl.
  rewrite (set_params_plain_run fuel h1 l1 valid_l [(sub, v)] Hget_l).
  - unfold assign_plain; simpl; rewrite Hplain; reflexivity.
  - intros kv [<- | []]; simpl; auto.
Qed.

(** *** What [set_params] never changes *)

Lemma same_shape_refl h : same_shape h h.
Proof. intros l; destruct (h !! l); auto. Qed.

Lemma same_shape_trans h1 h2 h3 :
  same_shape h1 h2 -> same_shape h2 h3 -> same_shape h1 h3.
Proof.
  intros H12 H23 l; specialize (H12 l); specialize (H23 l).
  destruct (h1 !! l), (h2 !! l), (h3 !! l); try tauto.
  all: destruct H12, H23; split; congruence.
Qed.

Lemma setattr_same_shape h self key v : same_shape h (setattr h self key v).
Proof.
  intros l; unfold setattr.
  destruct (h !! self) as [o | ] eqn:Ho; [ | apply same_shape_refl].
  destruct (decide (l = self)) as [-> | Hne].
  - rewrite lookup_insert_eq, Ho; auto.
  - rewrite lookup_insert_ne by congruence.
    destruct (h !! l); auto.
Qed.

Lemma set_params_loop_same_shape self valid params :
  forall nested h,
    same_shape h (snd (set_params_loop self valid params nested h)).
Proof.
  induction params as [ | [key0 v] params IH]; intros nested h;
    cbn [set_params_loop]; [apply same_shape_refl | ].
  destruct (partition "__" key0) as [[key delim] sub_key].
  destruct (negb (dict_mem valid key)); [apply same_shape_refl | ].
  destruct (negb (String.eqb delim EmptyString)); [apply IH | ].
  eapply same_shape_trans; [apply setattr_same_shape | apply IH].
Qed.

Lemma set_nested_same_shape rec valid nested :
  (forall h l params, same_shape h (snd (rec h l params))) ->
  forall h, same_shape h (snd (set_nested rec valid nested h)).
Proof.
  intros Hrec; induction nested as [ | [key sub_params] nested IH];
    intros h; cbn [set_nested]; [apply same_shape_refl | ].
  destruct (dict_get valid key) as [v | ]; [ | apply same_shape_refl].
  destruct (has_get_params h v) as [l | ]; [ | apply same_shape_refl].
  specialize (Hrec h l sub_params).
  destruct (rec h l sub_params) as [[[] | e] h']; simpl in *.
  - eapply same_shape_trans; [exact Hrec | apply IH].
  - exact Hrec.
Qed.

(** Whatever its keywords and its outcome, [set_params] neither adds nor
    removes an estimator, nor changes the class or the constructor signature
    of one: only attribute values change. *)
Theorem set_params_same_shape fuel :
  forall h self params,
    same_shape h (snd (set_params fuel h self params)).
Proof.
  induction fuel as [ | fuel IH]; intros h self params;
    [apply same_shape_refl | ].
  destruct params as [ | kv params]; [apply same_shape_refl | ].
  rewrite RoundTripFacts.set_params_unfold.
  destruct (get_params fuel h self true) as [valid | e];
    [ | apply same_shape_refl].
  pose proof (set_params_loop_same_shape self valid (kv :: params) [] h) as H1.
  destruct (set_params_loop self valid (kv :: params) [] h)
    as [[nested | e] h1]; simpl in *; [ | exact H1].
  eapply same_shape_trans; [exact H1 | ].
  apply set_nested_same_shape, IH.
Qed.

End SetParamsExtras.

(** ** Rendering *)

Module ReprFacts.
Import Params Convention Trace ParamsNotions ParamsFacts GetParamsFacts
  ParamsExtras Repr.

Local Open Scope string_scope.

(** *** Strings *)

Lemma length_append (s t : string) :
  String.length (s ++ t) = (String.length s + String.length t)%nat.
Proof. induction s as [ | c s IH]; simpl; [reflexivity | rewrite IH; reflexivity]. Qed.

Lemma append_empty_r (s : string) : s ++ EmptyString = s.
Proof.
  induction s as [ | c s IH]; [reflexivity | ].
  change (String c s ++ EmptyString) with (String c (s ++ EmptyString)).
  rewrite IH; reflexivity.
Qed.

Lemma length_take (n : nat) (s : string) :
  String.length (take n s) = Nat.min n (String.length s).
Proof.
  revert s; induction n as [ | n IH]; intros [ | c s]; simpl; auto.
Qed.

Lemma length_drop (n : nat) (s : string) :
  String.length (drop n s) = (String.length s - n)%nat.
Proof.
  revert s; induction n as [ | n IH]; intros [ | c s]; simpl; auto.
Qed.

Lemma take_prefix (n : nat) (s : string) :
  String.prefix (take n s) s = true.
Proof.
  revert s; induction n as [ | n IH]; intros [ | c s]; simpl; auto.
  destruct (ascii_dec c c); [apply IH | congruence].
Qed.

(** *** One parameter *)

Section Render.
Variable str_float : Q -> string.
Variable printer : value -> string.

(** The text of a parameter never exceeds 500 characters: a longer one
    is cut to 403, its first 300, an ellipsis and its last 100. *)
Theorem render_length (kv : string * value) :
  (String.length (render str_float printer kv) <= 500)%nat
  /\ forall this_repr,
      this_repr = match snd kv with
                  | VFloat q => fst kv ++ "=" ++ str_float q
                  | v => fst kv ++ "=" ++ printer v
                  end ->
      (500 < String.length this_repr)%nat ->
      String.length (render str_float printer kv) = 403%nat
      /\ String.prefix (take 300 this_repr) (render str_float printer kv)
         = true
      /\ render str_float printer kv
         = take 300 this_repr ++ "..." ++ last_chars 100 this_repr.
Proof.
  unfold render.
  set (r := match snd kv with
            | VFloat q => fst kv ++ "=" ++ str_float q
            | v => fst kv ++ "=" ++ printer v
            end).
  clearbody r.
  assert (Hlen : (500 < String.length r)%nat ->
                 String.length (take 300 r ++ "..." ++ last_chars 100 r)
                 = 403%nat).
  { intros H; unfold last_chars.
    rewrite !length_append, length_take, length_drop.
    change (String.length "...") with 3%nat; lia. }
  destruct (500 <? String.length r)%nat eqn:E.
  - apply Nat.ltb_lt in E; split; [rewrite Hlen; lia | ].
    intros this_repr -> _; split_and!; [auto | | reflexivity].
    generalize (take_prefix 300 r); generalize (take 300 r) as t.
    intros t _; clear.
    generalize ("..." ++ last_chars 100 r) as u.
    induction t as [ | c t IH]; intros u; simpl.
    + destruct u; reflexivity.
    + destruct (ascii_dec c c); [apply IH | congruence].
  - apply Nat.ltb_ge in E; split; [exact E | ].
    intros this_repr -> H; lia.
Qed.

End Render.

(** *** Lines *)

Lemma has_newline_app (s t : string) :
  has_newline (s ++ t) = has_newline s || has_newline t.
Proof.
  induction s as [ | c s IH]; simpl; [reflexivity | ].
  rewrite IH, orb_assoc; reflexivity.
Qed.

Lemma split_lines_single (s : string) :
  has_newline s = false -> split_lines s = [s].
Proof.
  induction s as [ | c s IH]; simpl; [reflexivity | ].
  intros H; apply orb_false_iff in H as [Hc Hs].
  rewrite Hc, (IH Hs); reflexivity.
Qed.

Lemma split_lines_app (s t : string) :
  has_newline s = false ->
  split_lines (s ++ String newline t) = s :: split_lines t.
Proof.
  induction s as [ | c s IH]; simpl; intros H.
  - reflexivity.
  - apply orb_false_iff in H as [Hc Hs].
    rewrite Hc, (IH Hs); reflexivity.
Qed.

Lemma split_lines_no_newline (s : string) :
  Forall (fun l => has_newline l = false) (split_lines s).
Proof.
  induction s as [ | c s IH]; simpl; [repeat constructor | ].
  destruct (Ascii.eqb c newline) eqn:E; [constructor; auto | ].
  destruct (split_lines s) as [ | l ls]; [repeat constructor; simpl | ].
  - rewrite E; reflexivity.
  - inversion_clear IH as [ | ? ? Hl Hls]; constructor; [ | exact Hls].
    simpl; rewrite E, Hl; reflexivity.
Qed.

Lemma split_lines_nonempty (s : string) : split_lines s <> [].
Proof.
  destruct s as [ | c s]; simpl; [discriminate | ].
  destruct (Ascii.eqb c newline); [discriminate | ].
  destruct (split_lines s); discriminate.
Qed.

Lemma split_lines_concat (ls : list string) :
  ls <> [] ->
  Forall (fun l => has_newline l = false) ls ->
  split_lines (String.concat (String newline EmptyString) ls) = ls.
Proof.
  induction ls as [ | x ls IH]; intros Hne Hall; [congruence | ].
  inversion_clear Hall as [ | ? ? Hx Hls].
  destruct ls as [ | y ls]; [apply split_lines_single, Hx | ].
  change (String.concat (String newline EmptyString) (x :: y :: ls))
    with (x ++ String newline
            (String.concat (String newline EmptyString) (y :: ls))).
  rewrite split_lines_app by exact Hx.
  rewrite IH; [reflexivity | discriminate | exact Hls].
Qed.

Lemma rstrip_no_newline (s : string) :
  has_newline s = false -> has_newline (rstrip s) = false.
Proof.
  induction s as [ | c s IH]; simpl; [reflexivity | ].
  intros H; apply orb_false_iff in H as [Hc Hs]; specialize (IH Hs).
  destruct (rstrip s) as [ | c' r].
  - destruct (Ascii.eqb c space); simpl; [reflexivity | ].
    rewrite Hc; reflexivity.
  - simpl in *; rewrite Hc; exact IH.
Qed.

Lemma rstrip_idempotent (s : string) : rstrip (rstrip s) = rstrip s.
Proof.
  induction s as [ | c s IH]; simpl; [reflexivity | ].
  destruct (rstrip s) as [ | c' r] eqn:E.
  - destruct (Ascii.eqb c space) eqn:Ec; simpl; [reflexivity | ].
    rewrite Ec; reflexivity.
  - change (rstrip (String c (String c' r)))
      with (match rstrip (String c' r) with
            | EmptyString => if Ascii.eqb c space then EmptyString
                             else String c EmptyString
            | r0 => String c r0
            end).
    rewrite IH; reflexivity.
Qed.

(** *** Sorting the items *)

Lemma leb_false_lt (a b : string) :
  String.leb a b = false -> String.leb b a = true /\ a <> b.
Proof.
  intros H; split.
  - destruct (String.leb_total a b); congruence.
  - intros ->.
    destruct (String.leb_total b b); congruence.
Qed.

Lemma insert_item_comm (a b : string * value) (l : list (string * value)) :
  fst a <> fst b ->
  insert_item a (insert_item b l) = insert_item b (insert_item a l).
Proof.
  intros Hab; induction l as [ | y l IH]; simpl.
  - destruct (String.leb (fst a) (fst b)) eqn:E1,
      (String.leb (fst b) (fst a)) eqn:E2; try reflexivity.
    + exfalso; apply Hab, String.leb_antisym; assumption.
    + destruct (String.leb_total (fst a) (fst b)); congruence.
  - destruct (String.leb (fst b) (fst y)) eqn:Eby,
      (String.leb (fst a) (fst y)) eqn:Eay; simpl;
      rewrite ?Eby, ?Eay;
      destruct (String.leb (fst a) (fst b)) eqn:E1,
        (String.leb (fst b) (fst a)) eqn:E2;
      try reflexivity;
      try (exfalso; apply Hab, String.leb_antisym; assumption);
      try (destruct (String.leb_total (fst a) (fst b)); congruence);
      try (rewrite IH; reflexivity).
    + pose proof (leb_trans _ _ _ E1 Eby); congruence.
    + pose proof (leb_trans _ _ _ E2 Eay); congruence.
Qed.

Lemma sorted_items_perm (l l' : list (string * value)) :
  Permutation l l' ->
  NoDup (map fst l) ->
  sorted_items l = sorted_items l'.
Proof.
  induction 1 as [ | x l l' Hp IH | x y l | l l' l'' H1 IH1 H2 IH2];
    simpl; intros Hnd.
  - reflexivity.
  - inversion_clear Hnd; rewrite IH by assumption; reflexivity.
  - apply insert_item_comm.
    inversion_clear Hnd as [ | ? ? Hy _]; simpl in Hy.
    intros E; apply Hy; left; symmetry; exact E.
  - rewrite IH1 by exact Hnd; apply IH2.
    eapply Permutation_NoDup; [ | exact Hnd].
    apply Permutation_map, H1.
Qed.

Lemma sorted_items_sorted (l : list (string * value)) :
  StronglySorted below (map fst l) -> sorted_items l = l.
Proof.
  induction l as [ | x l IH]; simpl; intros Hs; [reflexivity | ].
  inversion_clear Hs as [ | ? ? Hl Hall].
  rewrite (IH Hl).
  destruct l as [ | y l']; [reflexivity | ].
  inversion_clear Hall as [ | ? ? Hxy _]; simpl in *.
  unfold below in Hxy; rewrite Hxy; reflexivity.
Qed.

(** *** [_pprint] *)

Section Pprint.
Variable str_float : Q -> string.
Variable printer : value -> string.

Abbreviation render := (Repr.render str_float printer).
Abbreviation _pprint := (Repr._pprint str_float printer).
Abbreviation __repr__ := (Repr.__repr__ str_float printer).

(** No line of the text [_pprint] returns ends with a space. *)
Theorem pprint_no_trailing_space (params : list (string * value))
    (offset : nat) :
  Forall no_trailing_space (split_lines (_pprint params offset)).
Proof.
  unfold Repr._pprint; cbv zeta.
  set (lines := join_all _).
  rewrite split_lines_concat.
  - apply Forall_map, Forall_forall; intros l _.
    apply rstrip_idempotent.
  - pose proof (split_lines_nonempty lines).
    destruct (split_lines lines); [congruence | discriminate].
  - apply Forall_map.
    eapply Forall_impl; [ | apply split_lines_no_newline].
    intros l Hl; apply rstrip_no_newline, Hl.
Qed.

(** The text does not depend on the order in which the dictionary holds its
    items: they are rendered by ascending key. *)
Theorem pprint_order_independent (params params' : list (string * value))
    (offset : nat) :
  Permutation params params' ->
  NoDup (map fst params) ->
  _pprint params offset = _pprint params' offset.
Proof.
  intros Hp Hnd; unfold Repr._pprint.
  rewrite (sorted_items_perm params params' Hp Hnd); reflexivity.
Qed.

Lemma concat_cons_join (x : string) (items : list (string * value)) :
  String.concat ", " (x :: map render items)
  = x ++ join_all (flat_map (fun kv => [", "; render kv]) items).
Proof.
  revert x; induction items as [ | kv items IH]; intros x.
  - cbn [map flat_map join_all fold_right String.concat].
    rewrite append_empty_r; reflexivity.
  - change (String.concat ", " (x :: map render (kv :: items)))
      with (x ++ ", " ++ String.concat ", " (render kv :: map render items)).
    rewrite IH; reflexivity.
Qed.

Lemma pprint_loop_one_line (line_sep : string) (items : list (string * value)) :
  Forall (fun kv => has_newline (render kv) = false) items ->
  forall len,
    (len + String.length
             (join_all (flat_map (fun kv => [", "; render kv]) items)) < 75)%nat ->
    pprint_loop str_float printer line_sep false items len
    = flat_map (fun kv => [", "; render kv]) items.
Proof.
  induction 1 as [ | kv items Hkv _ IH]; intros len Hlen; [reflexivity | ].
  cbn [pprint_loop flat_map app].
  cbn [flat_map app join_all fold_right] in Hlen.
  fold (join_all (flat_map (fun kv => [", "; render kv]) items)) in Hlen.
  rewrite !length_append in Hlen; change (String.length ", ") with 2%nat in Hlen.
  rewrite Hkv, orb_false_r.
  assert (E : (75 <=? len + String.length (render kv))%nat = false)
    by (apply Nat.leb_gt; lia).
  rewrite E, IH by lia; reflexivity.
Qed.

Lemma has_newline_join (items : list (string * value)) :
  Forall (fun kv => has_newline (render kv) = false) items ->
  has_newline (join_all (flat_map (fun kv => [", "; render kv]) items)) = false.
Proof.
  induction 1 as [ | kv items Hkv _ IH]; [reflexivity | ].
  cbn [flat_map app join_all fold_right].
  fold (join_all (flat_map (fun kv => [", "; render kv]) items)).
  rewrite !has_newline_app, Hkv, IH; reflexivity.
Qed.

Lemma single_line (params : list (string * value)) (offset : nat) :
  Forall (fun kv => has_newline (render kv) = false) params ->
  (offset + String.length
              (String.concat ", " (map render (sorted_items params))) < 75)%nat ->
  _pprint params offset
  = rstrip (String.concat ", " (map render (sorted_items params))).
Proof.
  intros Hnl Hfit; unfold Repr._pprint; cbv zeta.
  assert (Hnl' : Forall (fun kv => has_newline (render kv) = false)
                        (sorted_items params)).
  { clear Hfit; induction Hnl as [ | kv l Hkv _ IH]; simpl; [constructor | ].
    revert IH; generalize (sorted_items l) as s.
    induction s as [ | y s IHs]; simpl; intros Hs; [repeat constructor; auto | ].
    inversion_clear Hs.
    destruct (String.leb (fst kv) (fst y)); repeat constructor; auto. }
  destruct (sorted_items params) as [ | kv items]; [reflexivity | ].
  inversion_clear Hnl' as [ | ? ? Hkv Hitems].
  cbn [map] in *; rewrite concat_cons_join in *.
  rewrite length_append in Hfit.
  cbn [pprint_loop].
  rewrite (pprint_loop_one_line _ items Hitems) by lia.
  cbn [join_all fold_right].
  fold (join_all (flat_map (fun kv => [", "; render kv]) items)).
  rewrite split_lines_single
    by (rewrite has_newline_app, Hkv, has_newline_join; auto).
  reflexivity.
Qed.

Lemma sorted_items_Forall (P : string * value -> Prop)
    (l : list (string * value)) :
  Forall P l -> Forall P (sorted_items l).
Proof.
  induction 1 as [ | kv l Hkv _ IH]; simpl; [constructor | ].
  revert IH; generalize (sorted_items l) as s.
  induction s as [ | y s IHs]; simpl; intros Hs; [repeat constructor; auto | ].
  inversion_clear Hs.
  destruct (String.leb (fst kv) (fst y)); repeat constructor; auto.
Qed.

Lemma has_newline_concat (items : list (string * value)) :
  Forall (fun kv => has_newline (render kv) = false) items ->
  has_newline (String.concat ", " (map render items)) = false.
Proof.
  destruct 1 as [ | kv items Hkv Hitems]; [reflexivity | ].
  cbn [map]; rewrite concat_cons_join, has_newline_app, Hkv.
  apply has_newline_join, Hitems.
Qed.

(** When no parameter text holds a newline and the parameters fit, with the
    offset, in less than 75 characters, [_pprint] puts them on one line, by
    ascending key, separated by a comma and a space, and strips the spaces
    at the end; the text has no newline. *)
Theorem pprint_one_line (params : list (string * value)) (offset : nat) :
  Forall (fun kv => has_newline (render kv) = false) params ->
  (offset + String.length
              (String.concat ", " (map render (sorted_items params))) < 75)%nat ->
  _pprint params offset
  = rstrip (String.concat ", " (map render (sorted_items params)))
  /\ has_newline (_pprint params offset) = false.
Proof.
  intros Hnl Hfit.
  rewrite (single_line params offset Hnl Hfit); split; [reflexivity | ].
  apply rstrip_no_newline, has_newline_concat, sorted_items_Forall, Hnl.
Qed.

(** The text of an estimator: its class name and, in parentheses, its
    declared parameters with their current values, by ascending name; on one
    line when they fit.  Nested estimators are not followed. *)
Theorem repr_one_line h self o names fuel :
  h !! self = Some o ->
  _get_param_names o = Ok names ->
  NoDup names ->
  let items := map (fun key => (key, getattr o key)) names in
  Forall (fun kv => has_newline (render kv) = false) items ->
  (String.length (class_name o)
   + String.length (String.concat ", " (map render items)) < 75)%nat ->
  __repr__ (S fuel) h self
  = Ok (class_name o ++ "("
        ++ rstrip (String.concat ", " (map render items)) ++ ")").
Proof.
  intros Ho Hn Hnd items Hnl Hfit; unfold Repr.__repr__.
  rewrite Ho, (ParamsExtras.shallow_mapping h self o names fuel Ho Hn Hnd).
  fold items.
  assert (Hs : sorted_items items = items).
  { apply sorted_items_sorted; unfold items.
    rewrite map_map; simpl; rewrite map_id.
    apply (param_names_sorted o names Hn). }
  rewrite (single_line items (String.length (class_name o))).
  - rewrite Hs; reflexivity.
  - exact Hnl.
  - rewrite Hs; exact Hfit.
Qed.

End Pprint.

End ReprFacts.

(** ** The further properties at concrete instances *)

Module MoreWitnesses.
Import Num Lib Params Convention Trace ParamsNotions DetectorNotions Repr
  Examples MoreExamples.

Local Open Scope string_scope.


Lemma predict_training_graph_witness :
  exists d' labels,
    Detector._process_decision_scores sqrt_floor scored = (Ok tt, d')
    /\ Detector.labels_ d' = Some labels
    /\ Detector.predict scores_of [1; 2; 3; 4; 5] false d'
       = (Ok (Detector.Alone labels), d').
Proof.
  destruct (DetectorExtras.predict_training_graph scores_of sqrt_floor scored
              [1; 2; 3; 4; 5] [1; 2; 3; 4; 5])
    as (d' & labels & Hrun & Hl & Hp).
  - reflexivity.
  - discriminate.
  - split; [vm_compute; reflexivity | vm_compute; discriminate].
  - exists d', labels; split_and!; [exact Hrun | exact Hl | ].
    apply Hp; reflexivity.
Defined.

Lemma process_idempotent_witness :
  Detector._process_decision_scores sqrt_floor
    (snd (Detector._process_decision_scores sqrt_floor scored))
  = (Ok tt, snd (Detector._process_decision_scores sqrt_floor scored)).
Proof.
  apply (DetectorExtras.process_idempotent sqrt_floor scored).
  reflexivity.
Defined.

Lemma linear_probability_monotone_witness :
  exists prob : Q -> Q,
    Detector.predict_proba scores_of erf_rational sqrt_floor [2; 6] "linear"
      false fitted5
    = (Ok (Detector.Alone
             (map (fun x => (Fin (1 - prob x), Fin (prob x))) [2; 6])),
       fitted5)
    /\ prob 2 <= prob 6.
Proof.
  destruct (DetectorExtras.linear_probability_monotone scores_of erf_rational
              sqrt_floor fitted5 [2; 6] [1; 2; 3; 4; 5])
    as (prob & Hrun & Hmono & _).
  - unfold Detector.fitted; simpl; split_and!; discriminate.
  - reflexivity.
  - discriminate.
  - discriminate.
  - exists prob; split; [exact Hrun | ].
    apply Hmono; vm_compute; discriminate.
Defined.

Lemma unify_zero_deviation_witness :
  exists probs,
    Detector.predict_proba scores_of erf_rational sqrt_floor [0; 1; 2] "unify"
      false fitted_constant
    = (Ok (Detector.Alone probs), fitted_constant)
    /\ nth_error probs 2 = Some (Fin (1 - 1), Fin 1).
Proof.
  destruct (DetectorExtras.unify_zero_deviation scores_of erf_rational
              sqrt_floor fitted_constant [0; 1; 2] 1 0)
    as (probs & Hrun & Hrows).
  - unfold Detector.fitted; simpl; split_and!; discriminate.
  - reflexivity.
  - reflexivity.
  - reflexivity.
  - exists probs; split; [exact Hrun | ].
    apply (Hrows 2%nat 2); [reflexivity | vm_compute; reflexivity].
Defined.

Lemma get_param_names_spec_witness :
  StronglySorted below ["inner"; "scale"]
  /\ Permutation ["inner"; "scale"] ["scale"; "inner"].
Proof.
  destruct (ParamsExtras.get_param_names_spec est_P ["inner"; "scale"] eq_refl)
    as (sig & Hsig & Hs & Hp & _).
  injection Hsig as <-.
  split; [exact Hs | exact Hp].
Defined.

Lemma varargs_rejected_witness :
  (get_params 1 h_varargs 1 true = Err RecursionError
   /\ set_params 2 h_varargs 1 [("k", VInt 4)]
      = (Err RecursionError, h_varargs))
  /\ get_params 1 h_bare 1 false = Err RecursionError.
Proof.
  split.
  - destruct (ParamsExtras.varargs_rejected h_varargs 1 est_varargs
                {| name := "args"; pkind := VAR_POSITIONAL |}
                0 true ("k", VInt 4) [])
      as (_ & Hget & _ & Hset & _).
    + reflexivity.
    + right; left; reflexivity.
    + discriminate.
    + reflexivity.
    + split; [exact Hget | exact Hset].
  - apply (ParamsExtras.varargs_rejected h_bare 1 est_bare
             {| name := "args"; pkind := VAR_POSITIONAL |}
             0 false ("k", VInt 4) []).
    + reflexivity.
    + left; reflexivity.
    + discriminate.
    + reflexivity.
Defined.

Lemma nodup_inner_scale : NoDup ["inner"; "scale"].
Proof. repeat constructor; simpl; intuition discriminate. Qed.

Lemma get_params_shallow_witness :
  get_params 1 h_nested 2 false
  = Ok [("inner", VObj 1); ("scale", VFloat (1 # 2))]
  /\ StronglySorted below ["inner"; "scale"].
Proof.
  apply (ParamsExtras.get_params_shallow h_nested 2 est_P ["inner"; "scale"] 0).
  - reflexivity.
  - reflexivity.
  - exact nodup_inner_scale.
Defined.

Lemma get_params_keys_witness :
  NoDup ["inner__contamination"; "inner"; "scale"].
Proof.
  apply (ParamsExtras.get_params_keys 1 h_nested 2 est_P ["inner"; "scale"]
           [("inner__contamination", VFloat (1 # 10)); ("inner", VObj 1);
            ("scale", VFloat (1 # 2))]).
  - reflexivity.
  - reflexivity.
  - reflexivity.
Defined.

Lemma set_params_plain_witness :
  exists h',
    set_params 3 h_nested 2 [("scale", VFloat (3 # 4))] = (Ok tt, h')
    /\ get_params 1 h' 2 false
       = Ok [("inner", VObj 1); ("scale", VFloat (3 # 4))].
Proof.
  destruct (SetParamsExtras.set_params_plain 2 h_nested 2 est_P
              ["inner"; "scale"]
              [("inner__contamination", VFloat (1 # 10)); ("inner", VObj 1);
               ("scale", VFloat (1 # 2))]
              [("scale", VFloat (3 # 4))])
    as (h' & Hrun & _ & Hget).
  - reflexivity.
  - reflexivity.
  - exact nodup_inner_scale.
  - reflexivity.
  - intros kv [<- | []]; split; [reflexivity | right; left; reflexivity].
  - exists h'; split; [exact Hrun | exact (Hget 0%nat)].
Defined.

Lemma set_params_nested_witness :
  set_params 3 h_nested 2 [("inner__contamination", VFloat (3 # 10))]
  = (Ok tt, setattr h_nested 1 "contamination" (VFloat (3 # 10))).
Proof.
  apply (SetParamsExtras.set_params_nested 1 h_nested 2 "inner" "contamination"
           (VFloat (3 # 10)) 1
           [("inner__contamination", VFloat (1 # 10)); ("inner", VObj 1);
            ("scale", VFloat (1 # 2))]
           [("contamination", VFloat (1 # 10))]);
    reflexivity.
Defined.

Lemma set_params_nested_not_estimator_witness :
  set_params 2 h_base 1 [("contamination__x", VInt 1)]
  = (Err (AttributeError "set_params"), h_base).
Proof.
  apply (SetParamsExtras.set_params_nested_not_estimator 1 h_base 1
           "contamination" "x" (VInt 1)
           [("contamination", VFloat (1 # 10))] (VFloat (1 # 10)));
    reflexivity.
Defined.

Lemma get_params_nested_failure_witness :
  (exists e, get_params 2 h_wraps_varargs 2 true = Err e)
  /\ exists out, get_params 2 h_wraps_varargs 2 false = Ok out.
Proof.
  apply (ParamsExtras.get_params_nested_failure 1 h_wraps_varargs 2 est_W
           ["inner"] "inner" 1 RecursionError).
  - reflexivity.
  - reflexivity.
  - left; reflexivity.
  - reflexivity.
  - reflexivity.
Defined.

Lemma set_params_replaced_estimator_witness :
  set_params 3 h_spare 2
    [("inner", VObj 3); ("inner__contamination", VFloat (3 # 10))]
  = (Ok tt,
     setattr (setattr h_spare 2 "inner" (VObj 3)) 1 "contamination"
             (VFloat (3 # 10))).
Proof.
  apply (SetParamsExtras.set_params_replaced_estimator 1 h_spare 2 "inner"
           "contamination" (VFloat (3 # 10)) 1 3
           [("inner__contamination", VFloat (1 # 10)); ("inner", VObj 1);
            ("scale", VFloat (1 # 2))]
           [("contamination", VFloat (1 # 10))]);
    reflexivity.
Defined.

Lemma pprint_order_independent_witness :
  _pprint show_float show [("b", VNone); ("a", VBool true)] 4
  = _pprint show_float show [("a", VBool true); ("b", VNone)] 4.
Proof.
  apply ReprFacts.pprint_order_independent.
  - apply perm_swap.
  - repeat constructor; simpl; intuition discriminate.
Defined.

Lemma pprint_one_line_witness :
  _pprint show_float show [("b", VNone); ("a", VBool true)] 4
  = "a=True, b=None"
  /\ has_newline (_pprint show_float show [("b", VNone); ("a", VBool true)] 4)
     = false.
Proof.
  apply (ReprFacts.pprint_one_line show_float show
           [("b", VNone); ("a", VBool true)] 4).
  - repeat constructor.
  - vm_compute; lia.
Defined.

Lemma repr_one_line_witness :
  __repr__ show_float show 1 h_base 1 = Ok "BaseDetector(contamination=0.1)".
Proof.
  rewrite (ReprFacts.repr_one_line show_float show h_base 1 base_detector
             ["contamination"] 0).
  - reflexivity.
  - reflexivity.
  - reflexivity.
  - repeat constructor; simpl; tauto.
  - repeat constructor.
  - vm_compute; lia.
Defined.

End MoreWitnesses.
